(** * remotion_minimal: the diffusion schedule engine and its Gaussian utilities

    A shallow embedding of the numerical core of the animation components:
    the four [makeAlphaBar*] schedule builders and their dispatcher, the
    interpolated read of a schedule and the closed-form forward sample
    x_t = sqrt(ab) * x0 + sqrt(1 - ab) * eps, the [mulberry32] generator with
    the Box-Muller sampler [randn], the Fisher-Yates [seededShuffle] of the
    jigsaw element, and the Gaussian kernel density estimate [kde].

    Number model.  A JavaScript [number] is embedded as follows.
    - Values that the code treats as 32-bit integers (the state words of
      [mulberry32]) are integers of [Z]; [ToInt32] and [ToUint32] write out the
      wrap-around of the bit operators.
    - The output of [mulberry32] is the rational k / 2^32 of [Q], and the index
      computation of the shuffle is carried out in [Q], so that it evaluates.
    - Every other number is a real of [R].  Where nothing else is said the
      arithmetic is the exact one, and a fact that needs exactness says
      so.  The two ways in which the code can leave the finite numbers are
      kept visible through [option]: [Math_sqrt] and [Math_log] have no
      value outside their domain (JavaScript answers NaN, or -Infinity for
      the logarithm of 0), and an array read at a position that is not an
      index of the array has no value (JavaScript answers [undefined],
      which arithmetic turns into NaN).
    - Where the rounding of binary64 decides what can be said (the
      interpolated read, the products of the schedules, the two scales,
      the timeline of the image composition) the operations take a
      rounding [rnd] as a parameter: every arithmetic result is [rnd] of
      the exact result, and the facts hold for every [rnd] with the
      properties of [Fp.rounding], which rounding to nearest has as long
      as nothing overflows.  Exact arithmetic is the instance [Fp.exact].
    - A fact stated over exact reals says so, and says where binary64
      departs from it.
    - [B64] is the same code on the binary64 numbers of the kernel
      (primitive floats): it evaluates, and shows on concrete inputs what
      the rounded operations return. *)

From Stdlib Require Import Floats.
From Stdlib Require Import String Bool ZArith QArith Qround Reals Qreals.
From Stdlib Require Import List Permutation Lra Lia.
Import ListNotations.

Set Implicit Arguments.
Set Warnings "-inexact-float,-abstract-large-number".

(** ** The fragment of JavaScript the components use *)

Module JS.

(** Sequencing of computations that may have no value. *)
Definition bind {A B : Type} (m : option A) (k : A -> option B) : option B :=
  match m with
  | Some a => k a
  | None => None
  end.

(** [xs.map(f)] where [f] may have no value: the result has a value when
    every element has one. *)
Fixpoint mapM {A B : Type} (f : A -> option B) (xs : list A) : option (list B) :=
  match xs with
  | [] => Some []
  | x :: rest =>
      bind (f x) (fun y => bind (mapM f rest) (fun ys => Some (y :: ys)))
  end.

(** [Array.from({ length: T }, (_, i) => f(i))]. *)
Definition Array_from {A : Type} (T : nat) (f : nat -> A) : list A :=
  map f (seq 0 T).

(** [arr[i] = v] for an index inside the array. *)
Fixpoint assign {A : Type} (arr : list A) (i : nat) (v : A) : list A :=
  match arr, i with
  | [], _ => []
  | _ :: rest, O => v :: rest
  | x :: rest, S i' => x :: assign rest i' v
  end.

(** [Math.sqrt]: NaN on a negative argument. *)
Definition Math_sqrt (x : R) : option R :=
  if Rle_dec 0 x then Some (sqrt x) else None.

(** [Math.log]: -Infinity at 0 and NaN below. *)
Definition Math_log (x : R) : option R :=
  if Rlt_dec 0 x then Some (ln x) else None.

(** [ToInt32] and [ToUint32] of the language definition, on integers. *)
Definition ToInt32 (x : Z) : Z := ((x + 2 ^ 31) mod 2 ^ 32 - 2 ^ 31)%Z.
Definition ToUint32 (x : Z) : Z := (x mod 2 ^ 32)%Z.

(** [a ^ b], [a | b], [a >>> n] and [Math.imul(a, b)]. *)
Definition bxor (a b : Z) : Z := Z.lxor (ToInt32 a) (ToInt32 b).
Definition bor (a b : Z) : Z := Z.lor (ToInt32 a) (ToInt32 b).
Definition ushr (a n : Z) : Z := Z.shiftr (ToUint32 a) n.
Definition Math_imul (a b : Z) : Z := ToInt32 (ToInt32 a * ToInt32 b).

(** The binary64 number nearest an integer, a tie going to the even
    significand.  An integer below 2^53 in magnitude is a number of the
    format; from there on the numbers are 2, 4, 8, ... apart. *)
Definition b64_int (x : Z) : Z :=
  let a := Z.abs x in
  if (a <? 2 ^ 53)%Z then x
  else
    let e := (Z.log2 a - 52)%Z in
    let q := (a / 2 ^ e)%Z in
    let r := (a mod 2 ^ e)%Z in
    let h := (2 ^ (e - 1))%Z in
    let q' := if (r <? h)%Z then q
              else if (h <? r)%Z then (q + 1)%Z
              else if Z.even q then q else (q + 1)%Z in
    (Z.sgn x * (q' * 2 ^ e))%Z.

(** The length of [Array.from({ length: T }, ...)] for a number [T]: its
    integer part, nothing below 0. *)
Definition array_length (T : R) : nat := Z.to_nat (Int_part T).

(** [arr[k]] for a number [k]: a cell of the array when [k] is one of
    its indices, [undefined] when [k] is not an integer or lies outside. *)
Definition get (arr : list R) (k : R) : option R :=
  if Req_dec_T (IZR (Int_part k)) k
  then (if (0 <=? Int_part k)%Z then nth_error arr (Z.to_nat (Int_part k))
        else None)
  else None.

End JS.

Declare Scope js_scope.
Notation "x <- m ;; k" := (JS.bind m (fun x => k))
(at level 61, m at next level, right associativity) : js_scope.
Notation "' p <- m ;; k" := (JS.bind m (fun p => k))
(at level 61, p pattern, m at next level, right associativity) : js_scope.
Open Scope js_scope.

(** ** Rounded arithmetic *)

Module Fp.

Local Open Scope R_scope.

(** What the facts use of the arithmetic of binary64.  [rnd x] is the
    number of the format nearest [x]; [u] bounds the relative error (the
    unit roundoff, 2^-53) and [eta] the error of a result in the subnormal
    range (2^-1075).  Integers up to 2^53 and the half are numbers of the
    format.  The error bound is asked for arguments up to 64 in magnitude,
    which no computation of the schedules leaves; overflow is outside the
    model. *)
Record rounding (rnd : R -> R) (u eta : R) : Prop := {
  rnd_monotone : forall x y, x <= y -> rnd x <= rnd y;
  rnd_idempotent : forall x, rnd (rnd x) = rnd x;
  rnd_int : forall n : Z, (Z.abs n <= 2 ^ 53)%Z -> rnd (IZR n) = IZR n;
  rnd_half : rnd 0.5 = 0.5;
  rnd_error : forall x, Rabs x <= 64 -> Rabs (rnd x - x) <= u * Rabs x + eta;
  rnd_u : 0 <= u <= 1e-6;
  rnd_eta : 0 <= eta <= 1e-6
}.

(** [Math.exp] as the platform computes it: the language leaves its
    accuracy to the implementation.  The facts ask that it is never
    negative (far down it underflows to 0) and right to one part in a
    thousand for arguments up to 64 in magnitude. *)
Definition exp_accurate (fexp : R -> R) : Prop :=
  (forall x, 0 <= fexp x)
  /\ (forall x, Rabs x <= 64 -> Rabs (fexp x - exp x) <= exp x / 1000).

(** Exact arithmetic. *)
Definition exact (x : R) : R := x.

(** A fixed-point arithmetic with 40 binary digits after the point, a
    half going up: an arithmetic that loses digits and still has the
    properties above. *)
Definition fixed40 (x : R) : R :=
  IZR (Int_part (x * 1099511627776 + / 2)) / 1099511627776.

End Fp.

(** ** The same code on binary64 numbers *)

Module B64.

Local Open Scope float_scope.

(** [Math.max] and [Math.min]: NaN when an argument is NaN, and -0 below
    +0. *)
Definition Math_max (a b : float) : float :=
  if PrimFloat.is_nan a || PrimFloat.is_nan b then PrimFloat.nan
  else if a <? b then b
  else if b <? a then a
  else if PrimFloat.get_sign a then b else a.

Definition Math_min (a b : float) : float :=
  if PrimFloat.is_nan a || PrimFloat.is_nan b then PrimFloat.nan
  else if a <? b then a
  else if b <? a then b
  else if PrimFloat.get_sign a then a else b.

(** An integer below 2^53 in magnitude as a number. *)
Definition of_Z (z : Z) : float :=
  match z with
  | Z0 => PrimFloat.zero
  | Zpos _ => PrimFloat.of_uint63 (Uint63.of_Z z)
  | Zneg q => - PrimFloat.of_uint63 (Uint63.of_Z (Zpos q))
  end.

(** [Math.floor], read off the sign, significand and exponent. *)
Definition Math_floor (x : float) : float :=
  match Prim2SF x with
  | S754_finite sign m e =>
      if (0 <=? e)%Z then x
      else
        let q := (Zpos m / 2 ^ (- e))%Z in
        let whole := (Zpos m mod 2 ^ (- e) =? 0)%Z in
        if sign then (if whole then of_Z (- q) else of_Z (- q - 1))
        else (if (q =? 0)%Z then PrimFloat.zero else of_Z q)
  | _ => x
  end.

(** [arr[k]] as a number: NaN stands for [undefined], which the
    arithmetic of the caller turns into NaN. *)
Fixpoint get (arr : list float) (k : float) : float :=
  match arr with
  | [] => PrimFloat.nan
  | x :: rest =>
      if k =? 0 then x
      else if 1 <=? k then get rest (k - 1)
      else PrimFloat.nan
  end.

(** The interpolated read of the compositions. *)
Definition alpha_bar_at (alphaBar : list float) (steps tPos : float) : float :=
  let k := Math_max 0 (Math_min (steps - 2) (Math_floor tPos)) in
  let frac := Math_max 0 (Math_min 1 (tPos - k)) in
  get alphaBar k + (get alphaBar (k + 1) - get alphaBar k) * frac.

(** The length of [Array.from({ length: T }, ...)]: the whole part of
    [T], nothing for a [T] below 1 or NaN. *)
Definition array_length (T : float) : nat :=
  match Prim2SF T with
  | S754_finite false m e =>
      if (0 <=? e)%Z then Z.to_nat (Zpos m * 2 ^ e)
      else Z.to_nat (Zpos m / 2 ^ (- e))
  | _ => O
  end.

Definition Array_from {A : Type} (T : float) (f : float -> A) : list A :=
  map (fun i => f (of_Z (Z.of_nat i))) (seq 0 (array_length T)).

Fixpoint accumulate (acc : float) (betas : list float) : list float :=
  match betas with
  | [] => []
  | b :: rest =>
      let a := 1 - b in
      let acc' := acc * a in
      acc' :: accumulate acc' rest
  end.

(** The store into a [Float32Array]: the binary32 number nearest [x], as
    sign, significand and exponent. *)
Definition Float32_store (x : float) : spec_float :=
  SFmul 24 128 (Prim2SF x) (S754_finite false 1 0).

(** [(rng() * 2 - 1) * 4] for the draw k / 2^32. *)
Definition uniform_value (k : Z) : float :=
  ((of_Z k / 4294967296) * 2 - 1) * 4.

(** [makeAlphaBarLinear], and with the same operations the [makeAlphaBar]
    of the 2-D compositions. *)
Definition makeAlphaBarLinear (T : float) : list float :=
  let betaStart := 1e-4 in
  let betaEnd := 0.2 in
  let betas := Array_from T (fun i =>
    Math_min 0.999
      (betaStart + (i / Math_max 1 (T - 1)) * (betaEnd - betaStart))) in
  accumulate 1 betas.

(** The two scales of the forward sample. *)
Definition signal_scale (ab : float) : float :=
  PrimFloat.sqrt (Math_max 1e-8 ab).

Definition noise_scale (ab : float) : float :=
  PrimFloat.sqrt (Math_max 0 (1 - ab)).

(** The timeline of the image composition. *)
Definition progress (frame activeFrames : float) : float :=
  if 1 <? activeFrames
  then Math_min frame (activeFrames - 1) / (activeFrames - 1)
  else 0.

Definition local_position (progress : float) : float :=
  if progress <=? 0.5 then progress * 2 else (1 - progress) * 2.

(** The rectangle of [drawCoverToSquare] for an image of [iw] by [ih]. *)
Definition drawCoverToSquare (iw ih size : float)
  : float * float * float * float :=
  let s := size in
  let scale := Math_max (s / iw) (s / ih) in
  let w := iw * scale in
  let h := ih * scale in
  let dx := (s - w) / 2 in
  let dy := (s - h) / 2 in
  (dx, dy, w, h).

(** [mean1], [var1], [safeSpan] and [range1] of the sampling
    composition; a square stands for [** 2]. *)
Definition total (xs : list float) : float :=
  fold_left (fun a b => a + b) xs 0.

Definition squares (m : float) (xs : list float) : float :=
  fold_left (fun s x => s + (x - m) * (x - m)) xs 0.

Definition mean1 (xs : list float) : float :=
  if Nat.eqb (length xs) 0 then 0
  else total xs / of_Z (Z.of_nat (length xs)).

Definition var1 (xs : list float) : float :=
  let n := length xs in
  if (n <=? 1)%nat then 0
  else
    let m := mean1 xs in
    squares m xs / (of_Z (Z.of_nat n) - 1).

Definition safeSpan (a b fallback : float) : float :=
  if b - a <? 1e-6 then fallback else b - a.

Definition range1 (xs : list float) : float * float :=
  let mu := mean1 xs in
  let s := PrimFloat.sqrt (Math_max 1e-9 (var1 xs)) in
  let a := mu - 4 * s in
  let b := mu + 4 * s in
  if safeSpan a b 8 =? 8 then (mu - 4, mu + 4) else (a, b).

End B64.

(** ** Schedule builders (the image forward composition) *)

Module Schedule.

Import JS.
Local Open Scope R_scope.

(** The loop shared by the three product schedules:
    [let acc = 1; for (const b of betas) { const a = 1 - b; acc *= a; out.push(acc); }]. *)
Fixpoint accumulate (acc : R) (betas : list R) : list R :=
  match betas with
  | [] => []
  | b :: rest =>
      let a := 1 - b in
      let acc' := acc * a in
      acc' :: accumulate acc' rest
  end.

Definition betasLinear (T : nat) : list R :=
  let betaStart := 1e-4 in
  let betaEnd := 0.2 in
  Array_from T (fun i =>
    Rmin 0.999 (betaStart + (INR i / Rmax 1 (INR T - 1)) * (betaEnd - betaStart))).

Definition makeAlphaBarLinear (T : nat) : list R :=
  accumulate 1 (betasLinear T).

(** [Math.pow(c, 2)] is the square of [c]. *)
Definition cosine_f (T : nat) (t : R) : R :=
  let s := 0.008 in
  (cos (((t / INR T + s) / (1 + s)) * (PI / 2))) ^ 2.

Definition makeAlphaBarCosine (T : nat) : list R :=
  let f0 := cosine_f T 0 in
  Array_from T (fun i => cosine_f T (INR i) / f0).

Definition betasQuadratic (T : nat) : list R :=
  let betaMin := 1e-4 in
  let betaMax := 0.35 in
  Array_from T (fun i =>
    let r := INR i / Rmax 1 (INR T - 1) in
    Rmin 0.999 (betaMin + r * r * (betaMax - betaMin))).

Definition makeAlphaBarQuadratic (T : nat) : list R :=
  accumulate 1 (betasQuadratic T).

Definition betasSigmoid (T : nat) : list R :=
  let betaMin := 1e-4 in
  let betaMax := 0.3 in
  let k := 8 in
  Array_from T (fun i =>
    let x := INR i / Rmax 1 (INR T - 1) in
    let sig := 1 / (1 + exp (- (x - 0.5) * k)) in
    let b := betaMin + sig * (betaMax - betaMin) in
    Rmin 0.999 b).

Definition makeAlphaBarSigmoid (T : nat) : list R :=
  accumulate 1 (betasSigmoid T).

Record scheduler_def : Type := {
  id : string;
  label : string;
  builder : nat -> list R
}.

Definition ALL_SCHEDULERS : list scheduler_def :=
  [ {| id := "linear"; label := "Linear"; builder := makeAlphaBarLinear |};
    {| id := "cosine"; label := "Cosine"; builder := makeAlphaBarCosine |};
    {| id := "quadratic"; label := "Quadratic"; builder := makeAlphaBarQuadratic |};
    {| id := "sigmoid"; label := "Sigmoid"; builder := makeAlphaBarSigmoid |} ].

(** [Math.max(2, steps)] as the length handed to a builder. *)
Definition clamp_steps (steps : Z) : nat := Z.to_nat (Z.max 2 steps).

(** The selected schedule of [ImageForwardComposition]:
    [ALL_SCHEDULERS.find((s) => s.id === scheduler)], then the linear
    builder when nothing is found. *)
Definition alphaBar (scheduler : string) (steps : Z) : list R :=
  match find (fun s => String.eqb (id s) scheduler) ALL_SCHEDULERS with
  | None => makeAlphaBarLinear (clamp_steps steps)
  | Some found => builder found (clamp_steps steps)
  end.

End Schedule.

(** ** The schedules and the scales in rounded arithmetic *)

Module Rounded.

Import JS.
Local Open Scope R_scope.

Section Builders.

(** The rounding of the arithmetic, and [Math.exp] as the platform
    computes it.  A literal of the program is the number of the format
    nearest to it; whole numbers are numbers of the format. *)
Variable rnd : R -> R.
Variable fexp : R -> R.

(** [const a = 1 - b; acc *= a; out.push(acc)]. *)
Fixpoint accumulate (acc : R) (betas : list R) : list R :=
  match betas with
  | [] => []
  | b :: rest =>
      let a := rnd (1 - b) in
      let acc' := rnd (acc * a) in
      acc' :: accumulate acc' rest
  end.

(** [i / Math.max(1, T - 1)]: the quotient of two whole numbers. *)
Definition position (T i : nat) : R := rnd (INR i / Rmax 1 (INR T - 1)).

Definition betasLinear (T : nat) : list R :=
  let betaStart := rnd 1e-4 in
  let betaEnd := rnd 0.2 in
  Array_from T (fun i =>
    Rmin (rnd 0.999)
         (rnd (betaStart + rnd (position T i * rnd (betaEnd - betaStart))))).

Definition makeAlphaBarLinear (T : nat) : list R :=
  accumulate 1 (betasLinear T).

Definition betasQuadratic (T : nat) : list R :=
  let betaMin := rnd 1e-4 in
  let betaMax := rnd 0.35 in
  Array_from T (fun i =>
    let r := position T i in
    Rmin (rnd 0.999)
         (rnd (betaMin + rnd (rnd (r * r) * rnd (betaMax - betaMin))))).

Definition makeAlphaBarQuadratic (T : nat) : list R :=
  accumulate 1 (betasQuadratic T).

Definition betasSigmoid (T : nat) : list R :=
  let betaMin := rnd 1e-4 in
  let betaMax := rnd 0.3 in
  let k := 8 in
  Array_from T (fun i =>
    let x := position T i in
    let sig := rnd (1 / rnd (1 + fexp (rnd (- rnd (x - rnd 0.5) * k)))) in
    let b := rnd (betaMin + rnd (sig * rnd (betaMax - betaMin))) in
    Rmin (rnd 0.999) b).

Definition makeAlphaBarSigmoid (T : nat) : list R :=
  accumulate 1 (betasSigmoid T).

End Builders.

Section Scales.

Variable rnd : R -> R.

(** [s1 = Math.sqrt(Math.max(1e-8, ab))] and
    [s2 = Math.sqrt(Math.max(0, 1 - ab))]: the root returned is the number
    of the format nearest the exact root. *)
Definition signal_scale (ab : R) : option R :=
  s <- Math_sqrt (Rmax (rnd 1e-8) ab) ;; Some (rnd s).

Definition noise_scale (ab : R) : option R :=
  s <- Math_sqrt (Rmax 0 (rnd (1 - ab))) ;; Some (rnd s).

End Scales.

End Rounded.

(** ** Interpolated schedule value and forward sample (the 2-D forward composition) *)

Module Forward.

Import JS.
Local Open Scope R_scope.

(** The schedule of the 2-D composition: the linear betas, with the
    retained fractions [alphas = betas.map((b) => 1 - b)] multiplied up by
    [let p = 1; for (const a of alphas) { p *= a; out.push(p); }]. *)
Fixpoint products (p : R) (alphas : list R) : list R :=
  match alphas with
  | [] => []
  | a :: rest => let p' := p * a in p' :: products p' rest
  end.

Definition makeAlphaBar (T : nat) : list R :=
  let betaStart := 1e-4 in
  let betaEnd := 0.2 in
  let betas := Array_from T (fun i =>
    Rmin 0.999 (betaStart + (INR i / Rmax 1 (INR T - 1)) * (betaEnd - betaStart))) in
  let alphas := map (fun b => 1 - b) betas in
  products 1 alphas.

Section Read.

(** The rounding of the arithmetic. *)
Variable rnd : R -> R.

(** The cell and the fraction of the continuous position [tPos]:
    [k = Math.max(0, Math.min(steps - 2, Math.floor(tPos)))],
    [frac = Math.max(0, Math.min(1, tPos - k))].  [steps] is the number
    the element hands over, whole or not.  Where the clamps do not cut
    the result off the operands are whole numbers, or a position and its
    floor, and binary64 computes the difference without error. *)
Definition interp_index (steps tPos : R) : R :=
  Rmax 0 (Rmin (steps - 2) (IZR (Int_part tPos))).

Definition interp_frac (tPos k : R) : R := Rmax 0 (Rmin 1 (tPos - k)).

(** [lo + (hi - lo) * frac], every operation rounded. *)
Definition lerp (lo hi frac : R) : R :=
  rnd (lo + rnd (rnd (hi - lo) * frac)).

(** [ab = alphaBar[k] + (alphaBar[k + 1] - alphaBar[k]) * frac]. *)
Definition alpha_bar_at (alphaBar : list R) (steps tPos : R) : option R :=
  let k := interp_index steps tPos in
  let frac := interp_frac tPos k in
  lo <- get alphaBar k ;;
  hi <- get alphaBar (k + 1) ;;
  Some (lerp lo hi frac).

End Read.

(** [s1 = Math.sqrt(Math.max(1e-8, ab))] and
    [s2 = Math.sqrt(Math.max(0, 1 - ab))]. *)
Definition signal_scale (ab : R) : option R := Math_sqrt (Rmax 1e-8 ab).
Definition noise_scale (ab : R) : option R := Math_sqrt (Rmax 0 (1 - ab)).

(** One coordinate of a noised point: [s1 * x0[i] + s2 * ex[i]]. *)
Definition forward_component (s1 s2 : R) (x0 eps : list R) (i : nat) : option R :=
  x <- nth_error x0 i ;;
  e <- nth_error eps i ;;
  Some (s1 * x + s2 * e).

(** The noised signal: the component expression at every index of [x0]. *)
Definition forward_sample (x0 eps : list R) (ab : R) : option (list R) :=
  s1 <- signal_scale ab ;;
  s2 <- noise_scale ab ;;
  mapM (forward_component s1 s2 x0 eps) (seq 0 (length x0)).

(** The contract as the specification words it, on one component. *)
Definition forward_formula (ab x e : R) : R :=
  sqrt (Rmax ab 1e-8) * x + sqrt (Rmax (1 - ab) 0) * e.

End Forward.

(** ** The generator and the normal sampler *)

Module Rng.

Import JS.

(** One call of the closure returned by [mulberry32(s)]: the drawn value
    and the new content of the captured variable [s].  The variable is a
    number, not a 32-bit word: [s += 0x6d2b79f5] is an addition of
    binary64, exact as long as the sum stays below 2^53. *)
Definition mulberry32 (s : Z) : Q * Z :=
  let s := b64_int (s + 0x6d2b79f5)%Z in
  let t := s in
  let t := Math_imul (bxor t (ushr t 15)) (bor t 1) in
  let t := bxor t (t + Math_imul (bxor t (ushr t 7)) (bor t 61)) in
  (Qmake (ushr (bxor t (ushr t 14)) 0) 4294967296, s).

Section Randn.

Local Open Scope R_scope.

(** A generator is a closure over some state: a call returns a number
    and leaves a new state behind. *)
Variable St : Type.
Variable rng : St -> R * St.

(** [while (u === 0) u = rng();] started at [u = 0]: the loop draws at
    least once and stops at the first draw that is not 0.  [fuel] bounds
    the number of draws. *)
Fixpoint draw_nonzero (fuel : nat) (st : St) : option (R * St) :=
  match fuel with
  | O => None
  | S fuel' =>
      let (u, st') := rng st in
      if Req_dec_T u 0 then draw_nonzero fuel' st' else Some (u, st')
  end.

Definition randn (fuel : nat) (st : St) : option (R * St) :=
  '(u, st1) <- draw_nonzero fuel st ;;
  '(v, st2) <- draw_nonzero fuel st1 ;;
  l <- Math_log u ;;
  m <- Math_sqrt (-2 * l) ;;
  Some (m * cos (2 * PI * v), st2).

(** The state after [n] calls and the value of call number [n]. *)
Fixpoint state_after (n : nat) (st : St) : St :=
  match n with
  | O => st
  | S n' => state_after n' (snd (rng st))
  end.

Definition draw (n : nat) (st : St) : R := fst (rng (state_after n st)).

(** Call number [n] is the first one that does not return 0. *)
Definition first_nonzero (n : nat) (st : St) : Prop :=
  draw n st <> 0 /\ forall k, (k < n)%nat -> draw k st = 0.

End Randn.

(** [mulberry32] as a generator of reals. *)
Definition mulberry32_R (s : Z) : R * Z :=
  let (q, s') := mulberry32 s in (Q2R q, s').

End Rng.

(** ** The seeded shuffle of the jigsaw element *)

Module Jigsaw.

Import JS.

Definition identity (n : nat) : list nat :=
  Array_from (n * n) (fun i => i).

(** [[arr[i], arr[j]] = [arr[j], arr[i]]]: both reads come first, then
    the write at [i], then the write at [j].  The shuffle only uses it with
    both indices inside the array. *)
Definition swap (arr : list nat) (i j : nat) : list nat :=
  let vj := nth j arr O in
  let vi := nth i arr O in
  assign (assign arr i vj) j vi.

(** [Math.floor(rnd() * (i + 1))]. *)
Definition pick (r : Q) (i : nat) : nat :=
  Z.to_nat (Qfloor (r * inject_Z (Z.of_nat (i + 1)))).

(** [for (let i = arr.length - 1; i > 0; i--) { ... }], entered at [i]. *)
Fixpoint shuffle_loop (i : nat) (arr : list nat) (seed : Z) : list nat :=
  match i with
  | O => arr
  | S i' =>
      let (r, seed') := Rng.mulberry32 seed in
      let j := pick r i in
      shuffle_loop i' (swap arr i j) seed'
  end.

(** [arr.every((v, i) => v === i)]. *)
Definition every_fixed (arr : list nat) : bool :=
  forallb (fun iv => Nat.eqb (snd iv) (fst iv))
          (combine (seq 0 (length arr)) arr).

Definition seededShuffle (n : nat) (seed : Z) : list nat :=
  let arr := identity n in
  let arr := shuffle_loop (length arr - 1) arr seed in
  if every_fixed arr && (1 <? length arr)%nat then swap arr 0 1 else arr.

End Jigsaw.

(** ** Kernel density estimate (the reverse composition) *)

Module Kde.

Import JS.
Local Open Scope R_scope.

(** [let s = 0; for (let i = 0; i < n; i++) s += term(i);]. *)
Definition for_sum (n : nat) (term : nat -> option R) : option R :=
  fold_left (fun acc i => s <- acc ;; t <- term i ;; Some (s + t))
            (seq 0 n) (Some 0).

(** [Math.pow(x, y)] for a positive base [x]. *)
Definition Math_pow (x y : R) : R := Rpower x y.

(** [data.length || 1]. *)
Definition length_or_1 (data : list R) : nat :=
  if Nat.eqb (length data) 0 then 1%nat else length data.

Definition kde (data grid : list R) : option (list R) :=
  let n := length_or_1 data in
  total <- for_sum n (fun i => nth_error data i) ;;
  let mean := total / INR n in
  ssq <- for_sum n (fun i =>
           x <- nth_error data i ;;
           let d := x - mean in
           Some (d * d)) ;;
  let v := ssq / Rmax 1 (INR n - 1) in
  std <- Math_sqrt (Rmax 1e-6 v) ;;
  let h := 1.06 * std * Math_pow (INR n) (-1 / 5) in
  root <- Math_sqrt (2 * PI) ;;
  let inv := 1 / (root * h * INR n) in
  mapM (fun x =>
          s <- for_sum n (fun i =>
                 xi <- nth_error data i ;;
                 let z := (x - xi) / h in
                 Some (exp (-0.5 * z * z))) ;;
          Some (inv * s))
       grid.

(** *** The estimate as the specification words it *)

Definition Rsum (xs : list R) : R := fold_right Rplus 0 xs.

Definition sample_mean (samples : list R) : R :=
  Rsum samples / INR (length samples).

(** Sample variance with the n-1 denominator, floored at 1e-6; the floor
    is the value when there is a single sample. *)
Definition floored_variance (samples : list R) : R :=
  if (length samples <=? 1)%nat then 1e-6
  else Rmax 1e-6
         (Rsum (map (fun x => (x - sample_mean samples) ^ 2) samples)
          / (INR (length samples) - 1)).

Definition sigma_hat (samples : list R) : R := sqrt (floored_variance samples).

(** Silverman's rule: h = 1.06 * sigma * n^(-1/5). *)
Definition bandwidth (samples : list R) : R :=
  1.06 * sigma_hat samples * Rpower (INR (length samples)) (- (1 / 5)).

Definition density (samples : list R) (x : R) : R :=
  let h := bandwidth samples in
  (1 / (sqrt (2 * PI) * h * INR (length samples)))
  * Rsum (map (fun xi => exp (- 0.5 * ((x - xi) / h) ^ 2)) samples).

End Kde.

(** ** Properties of a schedule *)

Module Props.

Local Open Scope R_scope.

(** A retained-signal fraction: in (0, 1]. *)
Definition in_unit (a : R) : Prop := 0 < a <= 1.

(** Each element is at most its predecessor. *)
Definition non_increasing (l : list R) : Prop :=
  forall t x y, nth_error l t = Some x -> nth_error l (S t) = Some y -> y <= x.

(** Each element is below its predecessor. *)
Definition strictly_decreasing (l : list R) : Prop :=
  forall t x y, nth_error l t = Some x -> nth_error l (S t) = Some y -> y < x.

(** A per-step variance increment as the builders clamp it. *)
Definition beta_ok (b : R) : Prop := 1e-4 <= b <= 0.999.

(** A product schedule with its betas: every beta is at least 1e-4, the
    values fall strictly, and the first value is [first]. *)
Definition strict_schedule (betas alphaBar : list R) (first : R) : Prop :=
  Forall (fun b => 1e-4 <= b) betas
  /\ strictly_decreasing alphaBar
  /\ nth_error alphaBar 0 = Some first.

(** Each element above [floor] is above its successor. *)
Definition strictly_decreasing_above (floor : R) (l : list R) : Prop :=
  forall t x y,
    nth_error l t = Some x -> nth_error l (S t) = Some y -> floor < x -> y < x.

(** A product schedule in rounded arithmetic with its betas: every beta
    is at least [betaMin], the values never rise, and they fall strictly
    as long as they are above [floor]. *)
Definition falling_schedule (betaMin floor : R) (betas alphaBar : list R)
  : Prop :=
  Forall (fun b => betaMin <= b) betas
  /\ non_increasing alphaBar
  /\ strictly_decreasing_above floor alphaBar.

(** The sigmoid beta at position 0: the logistic factor there is
    1 / (1 + e^4), not 0. *)
Definition sigmoid_beta_0 : R := 1e-4 + 1 / (1 + exp 4) * (0.3 - 1e-4).

End Props.

(** ** Base datasets and the paired normal sampler (the 2-D and reverse compositions) *)

Module Sampling.

Import JS.

Inductive dist1d : Type := Uniform | Spiky.
Inductive dist2d : Type := Ring | Spiral.

Section Samplers.

Local Open Scope R_scope.

Variable St : Type.
Variable rng : St -> R * St.

(** The store into a [Float32Array]: [out[i] = v] keeps the binary32
    number nearest [v]. *)
Variable fround : R -> R.

(** [randn2]: the two resampling loops of [randn], then the pair
    [[m * Math.cos(2 * Math.PI * v), m * Math.sin(2 * Math.PI * v)]]. *)
Definition randn2 (fuel : nat) (st : St) : option ((R * R) * St) :=
  '(u, st1) <- Rng.draw_nonzero rng fuel st ;;
  '(v, st2) <- Rng.draw_nonzero rng fuel st1 ;;
  l <- Math_log u ;;
  m <- Math_sqrt (-2 * l) ;;
  Some ((m * cos (2 * PI * v), m * sin (2 * PI * v)), st2).

(** [sample1D], branch "uniform":
    [for (let i = 0; i < n; i++) out[i] = (rng() * 2 - 1) * 4], with
    [out] a [Float32Array].  A draw is k / 2^32, so the three operations
    are exact in binary64; the store rounds. *)
Fixpoint fill_uniform (n : nat) (st : St) : list R * St :=
  match n with
  | O => ([], st)
  | S n' =>
      let (a, st1) := rng st in
      let (rest, st') := fill_uniform n' st1 in
      (fround ((a * 2 - 1) * 4) :: rest, st')
  end.

(** [sample1D], branch "spiky":
    [const k = Math.floor(rng() * 7) - 3; out[i] = k + 0.15 * randn(rng)]. *)
Fixpoint fill_spiky (fuel n : nat) (st : St) : option (list R * St) :=
  match n with
  | O => Some ([], st)
  | S n' =>
      let (a, st1) := rng st in
      let k := (Int_part (a * 7) - 3)%Z in
      '(z, st2) <- Rng.randn rng fuel st1 ;;
      '(rest, st') <- fill_spiky fuel n' st2 ;;
      Some (fround (IZR k + 0.15 * z) :: rest, st')
  end.

Definition sample1D (fuel n : nat) (dist : dist1d) (st : St)
  : option (list R * St) :=
  match dist with
  | Uniform => Some (fill_uniform n st)
  | Spiky => fill_spiky fuel n st
  end.

(** [sample2D], branch "ring":
    [const th = rng() * Math.PI * 2; const r = 2.2 + (rng() - 0.5) * 0.3;
     xs[i] = r * Math.cos(th); ys[i] = r * Math.sin(th)].  The points are
    kept as the exact reals: the facts about them are facts of exact
    arithmetic. *)
Fixpoint fill_ring (n : nat) (st : St) : (list R * list R) * St :=
  match n with
  | O => (([], []), st)
  | S n' =>
      let (a, st1) := rng st in
      let th := a * PI * 2 in
      let (b, st2) := rng st1 in
      let r := 2.2 + (b - 0.5) * 0.3 in
      let '((xs, ys), st') := fill_ring n' st2 in
      ((r * cos th :: xs, r * sin th :: ys), st')
  end.

(** [sample2D], the other branch:
    [const a = rng() * 5.5 * Math.PI; const r = 0.2 + 0.15 * a;
     const [e0, e1] = randn2(rng);
     xs[i] = r * Math.cos(a) + 0.1 * e0; ys[i] = r * Math.sin(a) + 0.1 * e1]. *)
Fixpoint fill_spiral (fuel n : nat) (st : St)
  : option ((list R * list R) * St) :=
  match n with
  | O => Some (([], []), st)
  | S n' =>
      let (u, st1) := rng st in
      let a := u * 5.5 * PI in
      let r := 0.2 + 0.15 * a in
      '((e0, e1), st2) <- randn2 fuel st1 ;;
      '((xs, ys), st') <- fill_spiral fuel n' st2 ;;
      Some ((r * cos a + 0.1 * e0 :: xs, r * sin a + 0.1 * e1 :: ys), st')
  end.

Definition sample2D (fuel n : nat) (dist : dist2d) (st : St)
  : option ((list R * list R) * St) :=
  match dist with
  | Ring => Some (fill_ring n st)
  | Spiral => fill_spiral fuel n st
  end.

End Samplers.

End Sampling.

(** ** Timelines of the compositions *)

Module Timeline.

Import JS.
Local Open Scope R_scope.

Section Frames.

(** The rounding of the arithmetic. *)
Variable rnd : R -> R.

(** [activeFrames = Math.max(1, steps * framesPerStep)]. *)
Definition activeFrames (steps framesPerStep : R) : R :=
  Rmax 1 (rnd (steps * framesPerStep)).

(** [progress = activeFrames > 1
      ? Math.min(frame, activeFrames - 1) / (activeFrames - 1) : 0];
    the frame is a whole number. *)
Definition progress (frame : Z) (activeFrames : R) : R :=
  if Rlt_dec 1 activeFrames
  then rnd (Rmin (IZR frame) (rnd (activeFrames - 1))
            / rnd (activeFrames - 1))
  else 0.

(** [firstHalf = progress <= 0.5;
     local = firstHalf ? progress * 2 : (1 - progress) * 2]. *)
Definition local_position (p : R) : R :=
  if Rle_dec p 0.5 then rnd (p * 2) else rnd (rnd (1 - p) * 2).

End Frames.

(** The position of the reverse composition:
    [tPosRev = (steps - 1) - tPosFwd]. *)
Definition tPosRev (steps tPosFwd : R) : R := (steps - 1) - tPosFwd.

End Timeline.

(** ** Pixels of the image composition *)

Module Pixels.

Import JS.
Local Open Scope R_scope.

(** [Math.round]: the nearest integer, a half going up. *)
Definition Math_round (x : R) : Z := Int_part (x + 0.5).

(** A byte of the image as a fraction: [data[i] / 255]. *)
Definition to_unit (byte : Z) : R := IZR byte / 255.

(** [Math.max(0, Math.min(255, Math.round(r * 255)))]. *)
Definition quantize (r : R) : Z :=
  Z.max 0 (Z.min 255 (Math_round (r * 255))).

(** One channel of the right canvas:
    [r = s1 * basePx[i] + s2 * noise[i]], then the byte of [r]. *)
Definition noised_byte (s1 s2 px e : R) : Z := quantize (s1 * px + s2 * e).

(** [a || b] on numbers: [b] when [a] is 0. *)
Definition or_else (a b : R) : R := if Req_dec_T a 0 then b else a.

(** The rectangle [drawCoverToSquare] hands to [drawImage]:
    [(dx, dy, w, h)] for an image of the given sizes and a square of side
    [size]. *)
Definition drawCoverToSquare (naturalWidth width naturalHeight height size : R)
  : R * R * R * R :=
  let iw := or_else naturalWidth width in
  let ih := or_else naturalHeight height in
  let s := size in
  let scale := Rmax (s / iw) (s / ih) in
  let w := iw * scale in
  let h := ih * scale in
  let dx := (s - w) / 2 in
  let dy := (s - h) / 2 in
  (dx, dy, w, h).

End Pixels.

(** ** The dots drawn of a point cloud *)

Module Dots.

(** [for (let i = 0; i < len && written < count; i += stride, written++)],
    entered at [i] and [written]: the indices drawn.  [fuel] bounds the
    number of rounds. *)
Fixpoint dots_loop (fuel : nat) (len count stride i written : Z) : list Z :=
  match fuel with
  | O => []
  | S fuel' =>
      if ((i <? len) && (written <? count))%Z
      then i :: dots_loop fuel' len count stride (i + stride) (written + 1)
      else []
  end.

(** [count = Math.min(visibleCount, len)],
    [stride = Math.max(1, Math.floor(len / count))].  With [count = 0] the
    quotient is not a finite number in the code; the loop does not run
    then, whatever the stride. *)
Definition visible_indices (fuel : nat) (len visibleCount : Z) : list Z :=
  let count := Z.min visibleCount len in
  let stride := Z.max 1 (len / count) in
  dots_loop fuel len count stride 0 0.

End Dots.

(** ** The board of the jigsaw composition *)

Module Board.

Import JS.
Local Open Scope R_scope.

(** [idxToRC]: [{ r: Math.floor(idx / grid), c: idx % grid }]. *)
Definition idxToRC (grid idx : nat) : nat * nat :=
  ((idx / grid)%nat, (idx mod grid)%nat).

(** The geometry the composition derives from its size and padding. *)
Record layout : Type := {
  width : R;
  height : R;
  boardPadding : R;
  grid : nat
}.

Definition size (L : layout) : R := Rmin (width L) (height L).
Definition inner (L : layout) : R := size L - boardPadding L * 2.
Definition boardX (L : layout) : R := (width L - size L) / 2.
Definition boardY (L : layout) : R := (height L - size L) / 2.
Definition cell (L : layout) : R := inner L / INR (grid L).

(** [posXY]: the corner of board cell [idx]. *)
Definition posXY (L : layout) (idx : nat) : R * R :=
  let (r, c) := idxToRC (grid L) idx in
  (boardX L + boardPadding L + INR c * cell L,
   boardY L + boardPadding L + INR r * cell L).

(** [arr[i] = v] on an array that may have holes: a write past the end
    extends the array, the cells in between staying empty. *)
Fixpoint write {A : Type} (arr : list (option A)) (i : nat) (v : A)
  : list (option A) :=
  match i, arr with
  | O, [] => [Some v]
  | O, _ :: rest => Some v :: rest
  | S i', [] => None :: write [] i' v
  | S i', x :: rest => x :: write rest i' v
  end.

(** The inverse table:
    [const inv = new Array(perm.length).fill(0);
     perm.forEach((tileIndex, boardPos) => (inv[tileIndex] = boardPos))]. *)
Definition invert (perm : list nat) : list (option nat) :=
  fold_left (fun inv pt => write inv (snd pt) (fst pt))
            (combine (seq 0 (length perm)) perm)
            (repeat (Some O) (length perm)).

(** [invFrom[tileIndex]]: nothing past the end or in a hole. *)
Definition read (inv : list (option nat)) (i : nat) : option nat :=
  match nth_error inv i with
  | Some (Some v) => Some v
  | _ => None
  end.

(** The corner of a tile at spring value [t]:
    [x = start.x + (end.x - start.x) * t], and so for [y]. *)
Definition tile_xy (L : layout) (invFrom invTo : list (option nat))
           (tileIndex : nat) (t : R) : option (R * R) :=
  startPosIdx <- read invFrom tileIndex ;;
  endPosIdx <- read invTo tileIndex ;;
  let (sx, sy) := posXY L startPosIdx in
  let (ex, ey) := posXY L endPosIdx in
  Some (sx + (ex - sx) * t, sy + (ey - sy) * t).

(** The player of the jigsaw element: 720 x 720, the default padding 12
    and the initial grid 3. *)
Definition board_720 : layout :=
  {| width := 720; height := 720; boardPadding := 12; grid := 3 |}.

End Board.

(** ** Estimating and sampling (the sampling element and its composition) *)

Module Stats.

Import JS.
Local Open Scope R_scope.

(** [xs.reduce((a, b) => a + b, 0)]. *)
Definition total (xs : list R) : R := fold_left (fun a b => a + b) xs 0.

(** [xs.reduce((s, x) => s + (x - m) ** 2, 0)]. *)
Definition squares (m : R) (xs : list R) : R :=
  fold_left (fun s x => s + (x - m) ^ 2) xs 0.

(** [mean1]: [xs.length ? total / xs.length : 0]. *)
Definition mean1 (xs : list R) : R :=
  if Nat.eqb (length xs) 0 then 0 else total xs / INR (length xs).

(** [var1]: 0 for fewer than two values, else the n - 1 variance. *)
Definition var1 (xs : list R) : R :=
  let n := length xs in
  if (n <=? 1)%nat then 0
  else
    let m := mean1 xs in
    squares m xs / (INR n - 1).

(** The deviation the composition prints and scales its axis by:
    [Math.sqrt(Math.max(1e-9, var1(original1d)))]. *)
Definition shown_sigma (xs : list R) : option R :=
  Math_sqrt (Rmax 1e-9 (var1 xs)).

(** [safeSpan]: [b - a < 1e-6 ? fallback : b - a]. *)
Definition safeSpan (a b fallback : R) : R :=
  if Rlt_dec (b - a) 1e-6 then fallback else b - a.

(** [range1], with [padK = 4] and the default fallback 8. *)
Definition range1 (xs : list R) : option (R * R) :=
  let mu := mean1 xs in
  s <- shown_sigma xs ;;
  let a := mu - 4 * s in
  let b := mu + 4 * s in
  if Req_dec_T (safeSpan a b 8) 8 then Some (mu - 4, mu + 4) else Some (a, b).

(** [xToPx1]. *)
Definition xToPx1 (mSide plotW : R) (range : R * R) (x : R) : R :=
  mSide + ((x - fst range) / safeSpan (fst range) (snd range) 8) * plotW.

(** The estimate of [sampleFromEstimated] in one dimension:
    [n = orig1.length || 1], [mu = total / n],
    [v = n > 1 ? squares / (n - 1) : 1],
    [sigma = Math.sqrt(Math.max(1e-9, v))]. *)
Definition estimate1 (orig1 : list R) : option (R * R) :=
  let n := if Nat.eqb (length orig1) 0 then 1%nat else length orig1 in
  let mu := total orig1 / INR n in
  let v := if (1 <? n)%nat then squares mu orig1 / (INR n - 1) else 1 in
  sigma <- Math_sqrt (Rmax 1e-9 v) ;;
  Some (mu, sigma).

End Stats.

(** ** The sketch pads *)

Module Sketch.

Local Open Scope R_scope.

(** [clamp]: [Math.max(a, Math.min(b, v))]. *)
Definition clamp (v a b : R) : R := Rmax a (Rmin b v).

(** A stroke abscissa (with its jitter added) as a target value:
    [xn = clamp(px / width, 0, 1); xs[i] = -4 + xn * 8]. *)
Definition target_x (px width : R) : R :=
  let xn := clamp (px / width) 0 1 in
  -4 + xn * 8.

(** The ordinate, turned over: [yn = clamp(py / height, 0, 1);
    ys[i] = 4 - yn * 8]. *)
Definition target_y (py height : R) : R :=
  let yn := clamp (py / height) 0 1 in
  4 - yn * 8.

End Sketch.

(** ** Number inputs of the elements *)

Module Inputs.

Local Open Scope R_scope.

(** [Number(e.target.value) || fallback]: the fallback replaces 0 and
    NaN ([None]). *)
Definition number_or (value : option R) (fallback : R) : R :=
  match value with
  | Some v => if Req_dec_T v 0 then fallback else v
  | None => fallback
  end.

(** [Math.max(lo, Math.min(hi, Number(e.target.value) || fallback))]: the
    step inputs of the forward, reverse and image elements have
    (lo, hi, fallback) = (30, 300, 30), (20, 300, 20) and (30, 400, 30), the
    grid input of the jigsaw element (2, 20, 2). *)
Definition bounded_input (lo hi fallback : R) (value : option R) : R :=
  Rmax lo (Rmin hi (number_or value fallback)).

End Inputs.

(** * Facts *)

(** ** Arrays *)

Section ArrayFacts.

Import JS.
Variables A B : Type.

Lemma Array_from_length (T : nat) (f : nat -> A) :
  length (Array_from T f) = T.
Proof. unfold Array_from. now rewrite length_map, length_seq. Qed.

Lemma Array_from_nth (T : nat) (f : nat -> A) (i : nat) :
  (i < T)%nat -> nth_error (Array_from T f) i = Some (f i).
Proof.
  intros Hi. unfold Array_from.
  rewrite nth_error_map, nth_error_seq.
  destruct (Nat.ltb_spec i T) as [_ | Hge]; [reflexivity | lia].
Qed.

Lemma Array_from_nth_inv (T : nat) (f : nat -> A) (i : nat) (y : A) :
  nth_error (Array_from T f) i = Some y -> (i < T)%nat /\ y = f i.
Proof.
  intros H.
  assert (Hi : (i < T)%nat).
  { rewrite <- (Array_from_length T f). apply nth_error_Some. congruence. }
  rewrite Array_from_nth in H by exact Hi. split; congruence.
Qed.

Lemma Array_from_Forall (P : A -> Prop) (T : nat) (f : nat -> A) :
  (forall i, (i < T)%nat -> P (f i)) -> Forall P (Array_from T f).
Proof.
  intros H. unfold Array_from. apply Forall_forall.
  intros x Hx. apply in_map_iff in Hx as (i & <- & Hi).
  apply in_seq in Hi. apply H. lia.
Qed.

Lemma mapM_Some (f : A -> option B) (g : A -> B) (xs : list A) :
  (forall x, In x xs -> f x = Some (g x)) -> mapM f xs = Some (map g xs).
Proof.
  induction xs as [| x rest IH]; intros H; simpl; [reflexivity |].
  rewrite (H x) by now left. simpl.
  rewrite IH by (intros y Hy; apply H; now right). reflexivity.
Qed.

Lemma combine_nth_error (xs : list A) (ys : list B)
      (i : nat) (x : A) (y : B) :
  nth_error xs i = Some x -> nth_error ys i = Some y ->
  nth_error (combine xs ys) i = Some (x, y).
Proof.
  revert i ys. induction xs as [| x' rest IH]; intros i ys Hx Hy;
    [destruct i; discriminate |].
  destruct ys as [| y' ys']; [destruct i; discriminate |].
  destruct i as [| i']; simpl in *; [congruence | now apply IH].
Qed.

End ArrayFacts.

(** ** Whole parts *)

Section Floors.

Local Open Scope R_scope.

Lemma Int_part_ge (r : R) (z : Z) : IZR z <= r -> (z <= Int_part r)%Z.
Proof.
  intros Hz. destruct (base_Int_part r) as [_ Hlow].
  assert (Hlt : IZR (z - 1) < IZR (Int_part r)) by (rewrite minus_IZR; lra).
  apply lt_IZR in Hlt. lia.
Qed.

Lemma Int_part_lt (r : R) (z : Z) : r < IZR z -> (Int_part r < z)%Z.
Proof.
  intros Hz. destruct (base_Int_part r) as [Hup _].
  apply lt_IZR. lra.
Qed.

Lemma Int_part_IZR (z : Z) : Int_part (IZR z) = z.
Proof. symmetry. apply Int_part_spec. lra. Qed.

Lemma Int_part_half (z : Z) : Int_part (IZR z + 0.5) = z.
Proof. symmetry. apply Int_part_spec. lra. Qed.

Lemma Int_part_monotone (r r' : R) : r <= r' -> (Int_part r <= Int_part r')%Z.
Proof.
  intros H. apply Int_part_ge.
  destruct (base_Int_part r) as [Hup _]. lra.
Qed.

Lemma Rmin_IZR (a b : Z) : Rmin (IZR a) (IZR b) = IZR (Z.min a b).
Proof.
  destruct (Z.min_spec a b) as [[Hlt ->] | [Hle ->]].
  - apply Rmin_left, IZR_le. lia.
  - apply Rmin_right, IZR_le. lia.
Qed.

Lemma Rmax_IZR (a b : Z) : Rmax (IZR a) (IZR b) = IZR (Z.max a b).
Proof.
  destruct (Z.max_spec a b) as [[Hlt ->] | [Hle ->]].
  - apply Rmax_right, IZR_le. lia.
  - apply Rmax_left, IZR_le. lia.
Qed.

Lemma Rabs_bound (x b : R) : Rabs x <= b -> - b <= x <= b.
Proof. unfold Rabs. destruct (Rcase_abs x); lra. Qed.

End Floors.

(** ** Rounded arithmetic *)

Section FpInstances.

Import Fp.
Local Open Scope R_scope.

(** Exact arithmetic rounds nothing. *)
Lemma exact_rounding : rounding exact 0 0.
Proof.
  constructor; unfold exact.
  - intros x y H. exact H.
  - reflexivity.
  - reflexivity.
  - reflexivity.
  - intros x _. replace (x - x) with 0 by lra. rewrite Rabs_R0. lra.
  - lra.
  - lra.
Qed.

Lemma exp_exact : exp_accurate exp.
Proof.
  split; intros x; pose proof (exp_pos x); [lra |].
  intros _. replace (exp x - exp x) with 0 by lra. rewrite Rabs_R0. lra.
Qed.

Lemma fixed40_grid (m : Z) :
  fixed40 (IZR m / 1099511627776) = IZR m / 1099511627776.
Proof.
  unfold fixed40.
  replace (IZR m / 1099511627776 * 1099511627776 + / 2) with (IZR m + 0.5)
    by lra.
  now rewrite Int_part_half.
Qed.

Lemma fixed40_values :
  fixed40 1 = 1 /\ fixed40 0.5 = 0.5 /\ fixed40 0.25 = 0.25.
Proof.
  repeat split.
  - replace 1 with (IZR 1099511627776 / 1099511627776) at 1 2 by lra.
    apply fixed40_grid.
  - replace 0.5 with (IZR 549755813888 / 1099511627776) at 1 2 by lra.
    apply fixed40_grid.
  - replace 0.25 with (IZR 274877906944 / 1099511627776) at 1 2 by lra.
    apply fixed40_grid.
Qed.

(** The fixed-point arithmetic loses at most 2^-41 per operation. *)
Lemma fixed40_rounding : rounding fixed40 0 (/ 2199023255552).
Proof.
  constructor.
  - intros x y H. unfold fixed40.
    apply Rmult_le_compat_r; [lra |].
    apply IZR_le, Int_part_monotone. lra.
  - intros x. unfold fixed40 at 2. apply fixed40_grid.
  - intros n _.
    replace (IZR n) with (IZR (n * 1099511627776) / 1099511627776)
      by (rewrite mult_IZR; field; lra).
    apply fixed40_grid.
  - apply fixed40_values.
  - intros x _. unfold fixed40.
    destruct (base_Int_part (x * 1099511627776 + / 2)) as [Hup Hlow].
    apply Rabs_le. lra.
  - lra.
  - lra.
Qed.

End FpInstances.

Section FpFacts.

Import Fp.
Local Open Scope R_scope.

Variable rnd : R -> R.
Variables u eta : R.
Hypothesis Hr : rounding rnd u eta.

Lemma rnd_0 : rnd 0 = 0.
Proof. apply (rnd_int Hr 0). simpl. lia. Qed.

Lemma rnd_1 : rnd 1 = 1.
Proof. apply (rnd_int Hr 1). simpl. lia. Qed.

Lemma rnd_nonneg (x : R) : 0 <= x -> 0 <= rnd x.
Proof. intros H. rewrite <- rnd_0. now apply (rnd_monotone Hr). Qed.

Lemma rnd_nonpos (x : R) : x <= 0 -> rnd x <= 0.
Proof. intros H. rewrite <- rnd_0. now apply (rnd_monotone Hr). Qed.

Lemma rnd_le_1 (x : R) : x <= 1 -> rnd x <= 1.
Proof. intros H. rewrite <- rnd_1. now apply (rnd_monotone Hr). Qed.

Lemma rnd_ge_1 (x : R) : 1 <= x -> 1 <= rnd x.
Proof. intros H. rewrite <- rnd_1. now apply (rnd_monotone Hr). Qed.

(** A number of the format stays below whatever it is below, rounded. *)
Lemma rnd_le_fixed (x y : R) : rnd y = y -> x <= y -> rnd x <= y.
Proof. intros Hy H. rewrite <- Hy. now apply (rnd_monotone Hr). Qed.

Lemma rnd_ge_fixed (x y : R) : rnd y = y -> y <= x -> y <= rnd x.
Proof. intros Hy H. rewrite <- Hy. now apply (rnd_monotone Hr). Qed.

(** The error of one operation whose exact result is at most [b] in
    magnitude. *)
Lemma rnd_within (x b : R) :
  Rabs x <= b -> b <= 64 ->
  - (u * b + eta) <= rnd x - x <= u * b + eta.
Proof.
  intros Hx Hb. apply Rabs_bound.
  apply Rle_trans with (u * Rabs x + eta).
  - apply (rnd_error Hr). lra.
  - destruct (rnd_u Hr) as [Hu _].
    apply Rplus_le_compat_r, Rmult_le_compat_l; assumption.
Qed.

End FpFacts.


(** ** The product loop *)

Section AccumulateFacts.

Import JS Schedule Props.
Local Open Scope R_scope.

Lemma accumulate_length (betas : list R) (acc : R) :
  length (accumulate acc betas) = length betas.
Proof.
  revert acc. induction betas as [| b rest IH]; intros acc; simpl; auto.
Qed.

(** The first value is the start value times the first retained fraction. *)
Lemma accumulate_first (acc b : R) (betas : list R) :
  nth_error betas 0 = Some b ->
  nth_error (accumulate acc betas) 0 = Some (acc * (1 - b)).
Proof.
  destruct betas as [| b0 rest]; [discriminate |].
  simpl. now intros [= ->].
Qed.

(** Each later value is its predecessor times the retained fraction of
    the step. *)
Lemma accumulate_step (betas : list R) (acc : R) (t : nat) (x b : R) :
  nth_error (accumulate acc betas) t = Some x ->
  nth_error betas (S t) = Some b ->
  nth_error (accumulate acc betas) (S t) = Some (x * (1 - b)).
Proof.
  revert acc t. induction betas as [| b0 rest IH]; intros acc t Hx Hb.
  - destruct t; discriminate.
  - destruct t as [| t'].
    + simpl in Hx. injection Hx as <-.
      destruct rest as [| b1 rest']; [discriminate |].
      simpl in Hb. injection Hb as <-. reflexivity.
    + simpl in Hx, Hb. simpl. now apply IH.
Qed.

(** A value of the result has a predecessor and a step. *)
Lemma accumulate_succ_inv (betas : list R) (acc : R) (t : nat) (y : R) :
  nth_error (accumulate acc betas) (S t) = Some y ->
  exists x b, nth_error (accumulate acc betas) t = Some x
           /\ nth_error betas (S t) = Some b
           /\ y = x * (1 - b).
Proof.
  intros Hy.
  assert (Hlt : (S t < length betas)%nat).
  { rewrite <- (accumulate_length betas acc).
    apply nth_error_Some. congruence. }
  destruct (nth_error (accumulate acc betas) t) as [x |] eqn:Hx.
  2:{ apply nth_error_None in Hx. rewrite accumulate_length in Hx. lia. }
  destruct (nth_error betas (S t)) as [b |] eqn:Hb.
  2:{ apply nth_error_None in Hb. lia. }
  exists x, b. repeat split; auto.
  rewrite (accumulate_step _ _ _ Hx Hb) in Hy. congruence.
Qed.

Lemma accumulate_in_unit (betas : list R) (acc : R) :
  in_unit acc -> Forall beta_ok betas ->
  Forall in_unit (accumulate acc betas).
Proof.
  revert acc. induction betas as [| b rest IH]; intros acc Hacc Hb; simpl.
  - constructor.
  - inversion Hb as [| ? ? Hb0 Hrest]; subst.
    assert (Hnext : in_unit (acc * (1 - b))).
    { unfold in_unit, beta_ok in *. split; nra. }
    constructor; [exact Hnext | now apply IH].
Qed.

Lemma accumulate_strictly_decreasing (betas : list R) (acc : R) :
  in_unit acc -> Forall beta_ok betas ->
  strictly_decreasing (accumulate acc betas).
Proof.
  intros Hacc Hb t x y Hx Hy.
  destruct (accumulate_succ_inv _ _ _ Hy) as (x' & b & Hx' & Hbt & ->).
  assert (x' = x) by congruence. subst x'.
  pose proof (accumulate_in_unit Hacc Hb) as Hall.
  rewrite Forall_forall in Hall, Hb.
  specialize (Hall x (nth_error_In _ _ Hx)).
  specialize (Hb b (nth_error_In _ _ Hbt)).
  unfold in_unit, beta_ok in *. nra.
Qed.

(** The 2-D composition builds the linear schedule. *)
Lemma products_accumulate (betas : list R) (p : R) :
  Forward.products p (map (fun b => 1 - b) betas) = accumulate p betas.
Proof.
  revert p. induction betas as [| b rest IH]; intros p; simpl;
    [reflexivity | now rewrite IH].
Qed.

Lemma makeAlphaBar_linear (T : nat) :
  Forward.makeAlphaBar T = makeAlphaBarLinear T.
Proof. unfold Forward.makeAlphaBar. cbv zeta. apply products_accumulate. Qed.

Lemma strictly_decreasing_non_increasing (l : list R) :
  strictly_decreasing l -> non_increasing l.
Proof. intros H t x y Hx Hy. left. exact (H t x y Hx Hy). Qed.

End AccumulateFacts.

(** ** The three product schedules *)

Section ProductSchedules.

Import JS Schedule Props.
Local Open Scope R_scope.

(** The normalised position [i / Math.max(1, T - 1)] is never negative,
    and its divisor is never 0. *)
Lemma position_divisor_pos (T : nat) : 0 < Rmax 1 (INR T - 1).
Proof. pose proof (Rmax_l 1 (INR T - 1)). lra. Qed.

Lemma position_nonneg (T i : nat) : 0 <= INR i / Rmax 1 (INR T - 1).
Proof.
  apply Rmult_le_pos; [apply pos_INR |].
  left. apply Rinv_0_lt_compat, position_divisor_pos.
Qed.

Lemma clamp_beta_ok (b : R) : 1e-4 <= b -> beta_ok (Rmin 0.999 b).
Proof.
  intros Hb. unfold beta_ok. split.
  - apply Rmin_glb; lra.
  - apply Rmin_l.
Qed.

Lemma betasLinear_ok (T : nat) : Forall beta_ok (betasLinear T).
Proof.
  apply Array_from_Forall. intros i _. apply clamp_beta_ok.
  pose proof (position_nonneg T i). nra.
Qed.

Lemma betasQuadratic_ok (T : nat) : Forall beta_ok (betasQuadratic T).
Proof.
  apply Array_from_Forall. intros i _. cbv zeta. apply clamp_beta_ok.
  pose proof (position_nonneg T i). nra.
Qed.

Lemma logistic_pos (x : R) : 0 < 1 / (1 + exp x).
Proof.
  pose proof (exp_pos x). apply Rdiv_lt_0_compat; lra.
Qed.

Lemma logistic_lt_1 (x : R) : 1 / (1 + exp x) < 1.
Proof.
  pose proof (exp_pos x).
  apply Rmult_lt_reg_r with (1 + exp x); [lra |].
  unfold Rdiv. rewrite Rmult_assoc, Rinv_l by lra. lra.
Qed.

Lemma betasSigmoid_ok (T : nat) : Forall beta_ok (betasSigmoid T).
Proof.
  apply Array_from_Forall. intros i _. cbv zeta. apply clamp_beta_ok.
  pose proof (logistic_pos (- (INR i / Rmax 1 (INR T - 1) - 0.5) * 8)). nra.
Qed.

Lemma one_in_unit : in_unit 1.
Proof. unfold in_unit. lra. Qed.

(** What the three builders share: the length asked for, values in
    (0, 1], and a strict decrease. *)
Lemma product_schedule (betas : nat -> list R) (T : nat) :
  length (betas T) = T -> Forall beta_ok (betas T) ->
  length (accumulate 1 (betas T)) = T
  /\ Forall in_unit (accumulate 1 (betas T))
  /\ strictly_decreasing (accumulate 1 (betas T)).
Proof.
  intros Hlen Hok. split; [| split].
  - now rewrite accumulate_length.
  - apply accumulate_in_unit; [apply one_in_unit | exact Hok].
  - apply accumulate_strictly_decreasing; [apply one_in_unit | exact Hok].
Qed.

Lemma makeAlphaBarLinear_schedule (T : nat) :
  length (makeAlphaBarLinear T) = T
  /\ Forall in_unit (makeAlphaBarLinear T)
  /\ strictly_decreasing (makeAlphaBarLinear T).
Proof.
  apply (product_schedule betasLinear);
    [apply Array_from_length | apply betasLinear_ok].
Qed.

Lemma makeAlphaBarQuadratic_schedule (T : nat) :
  length (makeAlphaBarQuadratic T) = T
  /\ Forall in_unit (makeAlphaBarQuadratic T)
  /\ strictly_decreasing (makeAlphaBarQuadratic T).
Proof.
  apply (product_schedule betasQuadratic);
    [apply Array_from_length | apply betasQuadratic_ok].
Qed.

Lemma makeAlphaBarSigmoid_schedule (T : nat) :
  length (makeAlphaBarSigmoid T) = T
  /\ Forall in_unit (makeAlphaBarSigmoid T)
  /\ strictly_decreasing (makeAlphaBarSigmoid T).
Proof.
  apply (product_schedule betasSigmoid);
    [apply Array_from_length | apply betasSigmoid_ok].
Qed.

End ProductSchedules.

(** ** The cosine schedule *)

Section CosineSchedule.

Import JS Schedule Props.
Local Open Scope R_scope.

Variable T : nat.
Hypothesis T_pos : (0 < T)%nat.

(** The argument of the cosine at position [t]. *)
Let angle (t : R) : R := ((t / INR T + 0.008) / (1 + 0.008)) * (PI / 2).

Lemma INR_T_pos : 0 < INR T.
Proof. apply lt_0_INR. exact T_pos. Qed.

Lemma cosine_position (t : R) : 0 <= t < INR T -> 0 <= t / INR T < 1.
Proof.
  intros [H0 H1]. pose proof INR_T_pos as HT. split.
  - apply Rmult_le_pos; [exact H0 | left; now apply Rinv_0_lt_compat].
  - apply Rmult_lt_reg_r with (INR T); [exact HT |].
    unfold Rdiv. rewrite Rmult_assoc, Rinv_l by lra. lra.
Qed.

Lemma angle_range (t : R) : 0 <= t < INR T -> 0 < angle t < PI / 2.
Proof.
  intros Ht. pose proof (cosine_position Ht) as [Hu0 Hu1].
  pose proof PI_RGT_0 as Hpi. unfold angle.
  set (u := t / INR T) in *.
  assert (Hw : 0 < (u + 0.008) / (1 + 0.008) < 1).
  { split.
    - apply Rdiv_lt_0_compat; lra.
    - apply Rmult_lt_reg_r with (1 + 0.008); [lra |].
      unfold Rdiv. rewrite Rmult_assoc, Rinv_l by lra. lra. }
  split; nra.
Qed.

Lemma angle_monotone (t t' : R) :
  0 <= t -> t <= t' -> angle t <= angle t'.
Proof.
  intros H0 Hle. pose proof INR_T_pos as HT. pose proof PI_RGT_0 as Hpi.
  unfold angle.
  apply Rmult_le_compat_r; [lra |].
  apply Rmult_le_compat_r; [left; apply Rinv_0_lt_compat; lra |].
  apply Rplus_le_compat_r.
  apply Rmult_le_compat_r; [left; now apply Rinv_0_lt_compat | exact Hle].
Qed.

Lemma cosine_f_unfold (t : R) : cosine_f T t = cos (angle t) ^ 2.
Proof. reflexivity. Qed.

Lemma cos_angle_pos (t : R) : 0 <= t < INR T -> 0 < cos (angle t).
Proof.
  intros Ht. pose proof (angle_range Ht) as [Ha0 Ha1].
  apply cos_gt_0; lra.
Qed.

Lemma cosine_f_pos (t : R) : 0 <= t < INR T -> 0 < cosine_f T t.
Proof.
  intros Ht. rewrite cosine_f_unfold.
  pose proof (cos_angle_pos Ht). simpl. nra.
Qed.

Lemma cosine_f_antitone (t t' : R) :
  0 <= t -> t <= t' -> t' < INR T -> cosine_f T t' <= cosine_f T t.
Proof.
  intros H0 Hle Hlt. rewrite !cosine_f_unfold.
  assert (Ht : 0 <= t < INR T) by lra.
  assert (Ht' : 0 <= t' < INR T) by lra.
  pose proof (angle_range Ht) as [Ha0 Ha1].
  pose proof (angle_range Ht') as [Hb0 Hb1].
  pose proof (cos_angle_pos Ht) as Hc.
  pose proof (cos_angle_pos Ht') as Hc'.
  pose proof PI_RGT_0 as Hpi.
  assert (Hcos : cos (angle t') <= cos (angle t)).
  { apply cos_decr_1; try lra. now apply angle_monotone. }
  simpl. nra.
Qed.

Lemma makeAlphaBarCosine_nth (i : nat) :
  (i < T)%nat ->
  nth_error (makeAlphaBarCosine T) i
  = Some (cosine_f T (INR i) / cosine_f T 0).
Proof. intros Hi. unfold makeAlphaBarCosine. now apply Array_from_nth. Qed.

Lemma INR_index_range (i : nat) : (i < T)%nat -> 0 <= INR i < INR T.
Proof. intros Hi. split; [apply pos_INR | now apply lt_INR]. Qed.

Lemma cosine_start_pos : 0 < cosine_f T 0.
Proof. apply cosine_f_pos. pose proof INR_T_pos. lra. Qed.

Lemma makeAlphaBarCosine_in_unit : Forall in_unit (makeAlphaBarCosine T).
Proof.
  apply Array_from_Forall. intros i Hi.
  pose proof (INR_index_range Hi) as Hr.
  pose proof cosine_start_pos as H0.
  pose proof (cosine_f_pos Hr) as Hp.
  assert (Hle : cosine_f T (INR i) <= cosine_f T 0)
    by (apply cosine_f_antitone; lra).
  unfold in_unit. split.
  - now apply Rdiv_lt_0_compat.
  - apply Rmult_le_reg_r with (cosine_f T 0); [exact H0 |].
    unfold Rdiv. rewrite Rmult_assoc, Rinv_l by lra. lra.
Qed.

Lemma makeAlphaBarCosine_non_increasing : non_increasing (makeAlphaBarCosine T).
Proof.
  intros t x y Hx Hy.
  unfold makeAlphaBarCosine in Hx, Hy.
  apply Array_from_nth_inv in Hx as [_ ->].
  apply Array_from_nth_inv in Hy as [Hlt ->].
  pose proof cosine_start_pos as H0.
  pose proof (INR_index_range Hlt) as [_ Hr].
  apply Rmult_le_compat_r; [left; now apply Rinv_0_lt_compat |].
  apply cosine_f_antitone; [apply pos_INR | | exact Hr].
  change (INR t <= INR (S t)). apply le_INR. lia.
Qed.

End CosineSchedule.

(** ** Concrete schedules *)

Section ConcreteSchedules.

Import JS Schedule Props.
Local Open Scope R_scope.

(** Decide the [Math.min] and [Math.max] of the goal when linear
    arithmetic can. *)
Ltac decide_min_max :=
  repeat match goal with
    | |- context [Rmin ?a ?b] =>
        first [ rewrite (Rmin_left a b) by lra
              | rewrite (Rmin_right a b) by lra ]
    | |- context [Rmax ?a ?b] =>
        first [ rewrite (Rmax_left a b) by lra
              | rewrite (Rmax_right a b) by lra ]
    end.

(** The two-step linear schedule: betas 1e-4 and 0.2. *)
Example makeAlphaBarLinear_2 : makeAlphaBarLinear 2 = [0.9999; 0.79992].
Proof.
  unfold makeAlphaBarLinear, betasLinear, Array_from. simpl.
  decide_min_max. f_equal; [lra | f_equal; lra].
Qed.

(** The first beta of the linear and of the quadratic schedule is
    [betaStart], at every length. *)
Lemma position_0 (T : nat) : INR 0 / Rmax 1 (INR T - 1) = 0.
Proof. change (INR 0) with 0. unfold Rdiv. apply Rmult_0_l. Qed.

Lemma makeAlphaBarLinear_first (T : nat) :
  (1 <= T)%nat -> nth_error (makeAlphaBarLinear T) 0 = Some 0.9999.
Proof.
  intros HT. unfold makeAlphaBarLinear, betasLinear.
  erewrite accumulate_first by (apply Array_from_nth; lia).
  rewrite position_0, Rmult_0_l, Rplus_0_r.
  rewrite Rmin_right by lra. f_equal. lra.
Qed.

Lemma makeAlphaBarQuadratic_first (T : nat) :
  (1 <= T)%nat -> nth_error (makeAlphaBarQuadratic T) 0 = Some 0.9999.
Proof.
  intros HT. unfold makeAlphaBarQuadratic, betasQuadratic.
  erewrite accumulate_first by (apply Array_from_nth; lia).
  cbv zeta. rewrite position_0, !Rmult_0_l, Rplus_0_r.
  rewrite Rmin_right by lra. f_equal. lra.
Qed.

(** The first beta of the sigmoid schedule is above [betaMin]. *)
Lemma sigmoid_beta_0_range : 1e-4 < sigmoid_beta_0 < 0.3.
Proof.
  unfold sigmoid_beta_0.
  pose proof (logistic_pos 4) as Hp. pose proof (logistic_lt_1 4) as Hl.
  set (sig := 1 / (1 + exp 4)) in *.
  assert (0 < sig * (0.3 - 1e-4)) by (apply Rmult_lt_0_compat; lra).
  assert (sig * (0.3 - 1e-4) < 1 * (0.3 - 1e-4))
    by (apply Rmult_lt_compat_r; lra).
  lra.
Qed.

Lemma makeAlphaBarSigmoid_first (T : nat) :
  (1 <= T)%nat ->
  nth_error (makeAlphaBarSigmoid T) 0 = Some (1 - sigmoid_beta_0).
Proof.
  intros HT. unfold makeAlphaBarSigmoid, betasSigmoid.
  erewrite accumulate_first by (apply Array_from_nth; lia).
  cbv zeta. rewrite position_0.
  replace (- (0 - 0.5) * 8) with 4 by lra.
  fold sigmoid_beta_0.
  pose proof sigmoid_beta_0_range.
  rewrite Rmin_right by lra. f_equal. lra.
Qed.

End ConcreteSchedules.

(** ** How small a product schedule gets *)

Section Decay.

Import JS Schedule Props.
Local Open Scope R_scope.

(** When every retained fraction from step [m] on is at most [q], the
    value at step [t] is at most q^(t + 1 - m). *)
Lemma accumulate_decay (betas : list R) (q : R) (m : nat) :
  Forall beta_ok betas -> 0 <= q ->
  (forall i b, (m <= i)%nat -> nth_error betas i = Some b -> 1 - b <= q) ->
  forall t x, nth_error (accumulate 1 betas) t = Some x ->
              x <= q ^ (t + 1 - m).
Proof.
  intros Hok Hq Hfrom.
  pose proof (accumulate_in_unit one_in_unit Hok) as Hunit.
  rewrite Forall_forall in Hunit.
  assert (Hle1 : forall t x, nth_error (accumulate 1 betas) t = Some x ->
                             (t + 1 - m = 0)%nat -> x <= q ^ (t + 1 - m)).
  { intros t x Hx ->. simpl.
    apply (Hunit x (nth_error_In _ _ Hx)). }
  induction t as [| t IH]; intros x Hx.
  - destruct (Nat.eq_dec m 0) as [-> | Hm]; [| apply Hle1; [exact Hx | lia]].
    destruct betas as [| b rest]; [discriminate |].
    simpl in Hx. injection Hx as <-. simpl.
    specialize (Hfrom 0%nat b (Nat.le_refl 0) eq_refl). lra.
  - destruct (le_lt_dec m (S t)) as [Hm | Hm]; [| apply Hle1; [exact Hx | lia]].
    destruct (accumulate_succ_inv _ _ _ Hx) as (x' & b & Hx' & Hb & ->).
    specialize (IH x' Hx').
    specialize (Hfrom (S t) b Hm Hb).
    pose proof (Hunit x' (nth_error_In _ _ Hx')) as [Hpos _].
    rewrite Forall_forall in Hok.
    pose proof (Hok b (nth_error_In _ _ Hb)) as [_ Hb1].
    replace (S t + 1 - m)%nat with (S (t + 1 - m)) by lia.
    simpl. apply Rle_trans with (x' * q).
    + apply Rmult_le_compat_l; lra.
    + rewrite Rmult_comm. apply Rmult_le_compat_l; [exact Hq | exact IH].
Qed.

(** In the linear schedule of 100 steps every beta from step 50 on is at
    least 0.1. *)
Lemma betasLinear_100_late (i : nat) (b : R) :
  (50 <= i)%nat -> nth_error (betasLinear 100) i = Some b -> 1 - b <= 0.9.
Proof.
  intros Hi Hb.
  assert (H100 : INR 100 = 100) by (rewrite INR_IZR_INZ; reflexivity).
  unfold betasLinear in Hb. rewrite H100 in Hb.
  apply Array_from_nth_inv in Hb as [Hlt ->].
  rewrite (Rmax_right 1 (100 - 1)) by lra.
  assert (H50 : 50 <= INR i).
  { replace 50 with (INR 50) by (rewrite INR_IZR_INZ; reflexivity).
    now apply le_INR. }
  assert (Hb : 0.1 <= 1e-4 + INR i / (100 - 1) * (0.2 - 1e-4)) by lra.
  assert (0.1 <= Rmin 0.999 (1e-4 + INR i / (100 - 1) * (0.2 - 1e-4)))
    by (apply Rmin_glb; lra).
  lra.
Qed.

Lemma makeAlphaBarLinear_100_last (x : R) :
  nth_error (makeAlphaBarLinear 100) 99 = Some x -> x < 0.01.
Proof.
  intros Hx.
  pose proof (@accumulate_decay (betasLinear 100) 0.9 50
                (betasLinear_ok 100) ltac:(lra) betasLinear_100_late
                99%nat x Hx) as Hle.
  replace (99 + 1 - 50)%nat with 50%nat in Hle by reflexivity.
  assert (Hpow : 0.9 ^ 50 < 0.01) by (simpl; lra).
  lra.
Qed.

End Decay.

(** ** The schedule builder: length, range and monotonicity *)

Section BuilderClaims.

Import JS Schedule Props.
Local Open Scope R_scope.

(** C1. For every T >= 2 and each of the four entries of
    [ALL_SCHEDULERS] (linear, cosine, quadratic, sigmoid), the builder
    returns exactly T values, each in (0, 1], and no value exceeds its
    predecessor.  The comparison is exact, so it holds within every
    tolerance, 1e-9 included. *)
Theorem build_schedule_sound (T : nat) (s : scheduler_def) :
  (2 <= T)%nat -> In s ALL_SCHEDULERS ->
  length (builder s T) = T
  /\ Forall in_unit (builder s T)
  /\ non_increasing (builder s T).
Proof.
  intros HT Hs.
  assert (Hstrict : forall l : list R,
             length l = T /\ Forall in_unit l /\ strictly_decreasing l ->
             length l = T /\ Forall in_unit l /\ non_increasing l).
  { intros l (Hl & Hu & Hd). repeat split; auto.
    now apply strictly_decreasing_non_increasing. }
  simpl in Hs. destruct Hs as [<- | [<- | [<- | [<- | []]]]]; simpl builder.
  - apply Hstrict, makeAlphaBarLinear_schedule.
  - split; [apply Array_from_length |].
    split; [apply makeAlphaBarCosine_in_unit
           | apply makeAlphaBarCosine_non_increasing]; lia.
  - apply Hstrict, makeAlphaBarQuadratic_schedule.
  - apply Hstrict, makeAlphaBarSigmoid_schedule.
Qed.

Lemma build_schedule_sound_witness :
  (2 <= 3)%nat
  /\ In {| id := "cosine"; label := "Cosine"; builder := makeAlphaBarCosine |}
        ALL_SCHEDULERS
  /\ length (makeAlphaBarCosine 3) = 3%nat
  /\ Forall in_unit (makeAlphaBarCosine 3)
  /\ non_increasing (makeAlphaBarCosine 3).
Proof.
  assert (H2 : (2 <= 3)%nat) by lia.
  assert (Hin : In {| id := "cosine"; label := "Cosine";
                      builder := makeAlphaBarCosine |} ALL_SCHEDULERS)
    by (simpl; auto).
  split; [exact H2 | split; [exact Hin |]].
  exact (build_schedule_sound H2 Hin).
Defined.

(** C5. With T = 100, the first value of the cosine schedule is within
    1e-6 of 1 (it is f(0) / f(0)), and the last value, at index 99, of the
    linear schedule is below 0.01. *)
Theorem scenario_100_steps :
  (exists c, nth_error (makeAlphaBarCosine 100) 0 = Some c
             /\ Rabs (c - 1) <= 1e-6)
  /\ (exists l, nth_error (makeAlphaBarLinear 100) 99 = Some l
                /\ l < 0.01).
Proof.
  split.
  - exists 1. split.
    + rewrite makeAlphaBarCosine_nth by lia.
      change (INR 0) with 0. f_equal.
      pose proof (@cosine_start_pos 100 ltac:(lia)).
      unfold Rdiv. apply Rinv_r. lra.
    + replace (1 - 1) with 0 by lra. rewrite Rabs_R0. lra.
  - destruct (nth_error (makeAlphaBarLinear 100) 99) as [l |] eqn:Hl.
    + exists l. split; [reflexivity |].
      now apply makeAlphaBarLinear_100_last.
    + apply nth_error_None in Hl.
      destruct (makeAlphaBarLinear_schedule 100) as [Hlen _]. lia.
Qed.

(** The sigmoid schedule does not start at 0.9999: e^4 is at most 81, so
    its first beta is above 0.0037. *)
Lemma sigmoid_beta_0_lower : 0.0037 < sigmoid_beta_0.
Proof.
  unfold sigmoid_beta_0.
  assert (He : exp 4 <= 81).
  { replace 4 with (1 + 1 + 1 + 1) by lra. rewrite !exp_plus.
    pose proof exp_le_3 as H3. pose proof (exp_pos 1) as H0.
    assert (exp 1 * exp 1 <= 9) by nra.
    assert (0 < exp 1 * exp 1) by nra. nra. }
  pose proof (exp_pos 4) as Hp.
  assert (Hsig : 1 / 82 <= 1 / (1 + exp 4)).
  { unfold Rdiv. rewrite !Rmult_1_l.
    apply Rinv_le_contravar; lra. }
  lra.
Qed.

(** The first value of the sigmoid schedule is not 0.9999. *)
Lemma sigmoid_first_value :
  exists a, nth_error (makeAlphaBarSigmoid 2) 0 = Some a
            /\ a < 0.997 /\ a <> 0.9999.
Proof.
  exists (1 - sigmoid_beta_0).
  pose proof sigmoid_beta_0_lower.
  split; [apply makeAlphaBarSigmoid_first; lia | split; lra].
Qed.

Lemma beta_ok_lower (betas : list R) :
  Forall beta_ok betas -> Forall (fun b => 1e-4 <= b) betas.
Proof. apply Forall_impl. now intros b [H _]. Qed.

(** In exact arithmetic, for every T >= 2, the linear, quadratic and
    sigmoid schedules fall strictly, every beta being at least 1e-4.  Their
    first value is 1 - beta_0: that is 0.9999 for the linear and the
    quadratic schedule, and 1 - (1e-4 + (0.3 - 1e-4) / (1 + e^4)), which is
    below 0.9999, for the sigmoid schedule. *)
Lemma product_schedules_strict (T : nat) :
  (2 <= T)%nat ->
  strict_schedule (betasLinear T) (makeAlphaBarLinear T) 0.9999
  /\ strict_schedule (betasQuadratic T) (makeAlphaBarQuadratic T) 0.9999
  /\ strict_schedule (betasSigmoid T) (makeAlphaBarSigmoid T)
                     (1 - sigmoid_beta_0)
  /\ 1 - sigmoid_beta_0 < 0.9999.
Proof.
  intros HT. unfold strict_schedule. repeat split.
  - apply beta_ok_lower, betasLinear_ok.
  - apply makeAlphaBarLinear_schedule.
  - apply makeAlphaBarLinear_first. lia.
  - apply beta_ok_lower, betasQuadratic_ok.
  - apply makeAlphaBarQuadratic_schedule.
  - apply makeAlphaBarQuadratic_first. lia.
  - apply beta_ok_lower, betasSigmoid_ok.
  - apply makeAlphaBarSigmoid_schedule.
  - apply makeAlphaBarSigmoid_first. lia.
  - pose proof sigmoid_beta_0_range. lra.
Qed.

End BuilderClaims.

(** ** The product schedules in rounded arithmetic *)

Section RoundedSchedules.

Import JS Fp Props.
Local Open Scope R_scope.

Variable rnd : R -> R.
Variables u eta : R.
Variable fexp : R -> R.
Hypothesis Hr : rounding rnd u eta.
Hypothesis Hexp : exp_accurate fexp.

(** One operation on a result of magnitude at most 1 moves it by at
    most 2e-6. *)
Lemma rnd_close (x : R) : Rabs x <= 1 -> x - 2e-6 <= rnd x <= x + 2e-6.
Proof.
  intros Hx. destruct (rnd_u Hr), (rnd_eta Hr).
  pose proof (@rnd_within rnd u eta Hr x 1 Hx ltac:(lra)). lra.
Qed.

Lemma rnd_literal (c : R) : 0 <= c <= 1 -> c - 2e-6 <= rnd c <= c + 2e-6.
Proof. intros Hc. apply rnd_close, Rabs_le. lra. Qed.

Lemma rnd_literal_fixed (c : R) : rnd (rnd c) = rnd c.
Proof. apply (rnd_idempotent Hr). Qed.

Lemma betaMin_range : 9.8e-5 <= rnd 1e-4 <= 1.1e-4.
Proof. pose proof (@rnd_literal 1e-4 ltac:(lra)). lra. Qed.

Lemma cap_range : 0.99 <= rnd 0.999 <= 1.
Proof.
  pose proof (@rnd_literal 0.999 ltac:(lra)).
  pose proof (@rnd_le_1 rnd u eta Hr 0.999 ltac:(lra)). lra.
Qed.

Lemma fexp_nonneg (x : R) : 0 <= fexp x.
Proof. apply Hexp. Qed.

Lemma fexp_close (x : R) :
  Rabs x <= 64 -> - (exp x / 1000) <= fexp x - exp x <= exp x / 1000.
Proof. intros Hx. apply Rabs_bound. now apply Hexp. Qed.

Lemma rounded_position_nonneg (T i : nat) : 0 <= Rounded.position rnd T i.
Proof. apply (rnd_nonneg Hr), position_nonneg. Qed.

Lemma rounded_position_0 (T : nat) : Rounded.position rnd T 0 = 0.
Proof. unfold Rounded.position. rewrite position_0. apply (rnd_0 Hr). Qed.

(** A beta is the smallest one raised by something that is not
    negative, then capped. *)
Lemma rounded_beta_ok (x : R) :
  0 <= x ->
  rnd 1e-4 <= Rmin (rnd 0.999) (rnd (rnd 1e-4 + x)) <= rnd 0.999.
Proof.
  intros Hx. split; [| apply Rmin_l].
  apply Rmin_glb.
  - apply (rnd_monotone Hr). lra.
  - apply (rnd_ge_fixed Hr); [apply rnd_literal_fixed | lra].
Qed.

Lemma rounded_difference_nonneg (lo hi : R) :
  lo <= hi -> 0 <= rnd (rnd hi - rnd lo).
Proof.
  intros H. apply (rnd_nonneg Hr).
  pose proof (rnd_monotone Hr H). lra.
Qed.

Lemma rounded_betasLinear_ok (T : nat) :
  Forall (fun b => rnd 1e-4 <= b <= rnd 0.999) (Rounded.betasLinear rnd T).
Proof.
  apply Array_from_Forall. intros i _. apply rounded_beta_ok.
  apply (rnd_nonneg Hr), Rmult_le_pos;
    [apply rounded_position_nonneg | apply rounded_difference_nonneg; lra].
Qed.

Lemma rounded_betasQuadratic_ok (T : nat) :
  Forall (fun b => rnd 1e-4 <= b <= rnd 0.999)
         (Rounded.betasQuadratic rnd T).
Proof.
  apply Array_from_Forall. intros i _. cbv zeta. apply rounded_beta_ok.
  apply (rnd_nonneg Hr), Rmult_le_pos;
    [| apply rounded_difference_nonneg; lra].
  apply (rnd_nonneg Hr). pose proof (rounded_position_nonneg T i). nra.
Qed.

(** The logistic factor is in [0, 1], whatever the exponent. *)
Lemma rounded_logistic_range (x : R) :
  0 <= rnd (1 / rnd (1 + fexp x)) <= 1.
Proof.
  pose proof (fexp_nonneg x) as He.
  pose proof (@rnd_ge_1 rnd u eta Hr (1 + fexp x) ltac:(lra)) as Hw.
  assert (Hq : 0 <= 1 / rnd (1 + fexp x) <= 1).
  { split.
    - apply Rlt_le, Rdiv_lt_0_compat; lra.
    - apply Rmult_le_reg_r with (rnd (1 + fexp x)); [lra |].
      unfold Rdiv. rewrite Rmult_assoc, Rinv_l by lra. lra. }
  split; [apply (rnd_nonneg Hr) | apply (rnd_le_1 Hr)]; lra.
Qed.

Lemma rounded_betasSigmoid_ok (T : nat) :
  Forall (fun b => rnd 1e-4 <= b <= rnd 0.999)
         (Rounded.betasSigmoid rnd fexp T).
Proof.
  apply Array_from_Forall. intros i _. cbv zeta. apply rounded_beta_ok.
  apply (rnd_nonneg Hr), Rmult_le_pos;
    [apply rounded_logistic_range | apply rounded_difference_nonneg; lra].
Qed.

(** The retained fraction of a step is at most 1 - 9.6e-5. *)
Lemma rounded_retained (b : R) :
  rnd 1e-4 <= b <= rnd 0.999 -> 0 <= rnd (1 - b) <= 1 - 9.6e-5.
Proof.
  intros [Hlow Hup]. pose proof betaMin_range. pose proof cap_range.
  split; [apply (rnd_nonneg Hr); lra |].
  apply Rle_trans with (rnd (1 - rnd 1e-4)).
  - apply (rnd_monotone Hr). lra.
  - pose proof (@rnd_close (1 - rnd 1e-4) ltac:(apply Rabs_le; lra)). lra.
Qed.

(** One step of the product: the new value is a number of the format,
    it is not above the old one, and it is below it when the old one is
    above 20000 eta. *)
Lemma rounded_step (acc a : R) :
  rnd acc = acc -> 0 <= acc <= 1 -> 0 <= a <= 1 - 9.6e-5 ->
  rnd (rnd (acc * a)) = rnd (acc * a)
  /\ 0 <= rnd (acc * a) <= acc
  /\ (20000 * eta < acc -> rnd (acc * a) < acc).
Proof.
  intros Hfix Hacc Ha.
  destruct (rnd_u Hr) as [Hu0 Hu1]. destruct (rnd_eta Hr) as [He0 He1].
  assert (Hx0 : 0 <= acc * a) by (apply Rmult_le_pos; lra).
  assert (Hx1 : acc * a <= acc * (1 - 9.6e-5))
    by (apply Rmult_le_compat_l; lra).
  split; [apply (rnd_idempotent Hr) |]. split.
  - split; [now apply (rnd_nonneg Hr) |].
    apply (rnd_le_fixed Hr); [exact Hfix | lra].
  - intros Hfloor.
    pose proof (rnd_error Hr (acc * a)) as Herr.
    rewrite (Rabs_pos_eq (acc * a)) in Herr by exact Hx0.
    apply Rabs_bound in Herr; [| lra].
    assert (Hux : u * (acc * a) <= 1e-6 * (acc * a))
      by (apply Rmult_le_compat_r; lra).
    lra.
Qed.

Lemma rounded_accumulate_length (betas : list R) (acc : R) :
  length (Rounded.accumulate rnd acc betas) = length betas.
Proof.
  revert acc. induction betas as [| b rest IH]; intros acc; simpl; auto.
Qed.

Lemma rounded_accumulate_first (acc b : R) (betas : list R) :
  nth_error betas 0 = Some b ->
  nth_error (Rounded.accumulate rnd acc betas) 0
  = Some (rnd (acc * rnd (1 - b))).
Proof.
  destruct betas as [| b0 rest]; [discriminate |].
  simpl. now intros [= ->].
Qed.

Lemma rounded_accumulate_step (betas : list R) (acc : R) (t : nat) (x b : R) :
  nth_error (Rounded.accumulate rnd acc betas) t = Some x ->
  nth_error betas (S t) = Some b ->
  nth_error (Rounded.accumulate rnd acc betas) (S t)
  = Some (rnd (x * rnd (1 - b))).
Proof.
  revert acc t. induction betas as [| b0 rest IH]; intros acc t Hx Hb.
  - destruct t; discriminate.
  - destruct t as [| t'].
    + simpl in Hx. injection Hx as <-.
      destruct rest as [| b1 rest']; [discriminate |].
      simpl in Hb. injection Hb as <-. reflexivity.
    + simpl in Hx, Hb. simpl. now apply IH.
Qed.

Lemma rounded_accumulate_succ_inv (betas : list R) (acc : R) (t : nat) (y : R) :
  nth_error (Rounded.accumulate rnd acc betas) (S t) = Some y ->
  exists x b, nth_error (Rounded.accumulate rnd acc betas) t = Some x
           /\ nth_error betas (S t) = Some b
           /\ y = rnd (x * rnd (1 - b)).
Proof.
  intros Hy.
  assert (Hlt : (S t < length betas)%nat).
  { rewrite <- (rounded_accumulate_length betas acc).
    apply nth_error_Some. congruence. }
  destruct (nth_error (Rounded.accumulate rnd acc betas) t) as [x |] eqn:Hx.
  2:{ apply nth_error_None in Hx.
      rewrite rounded_accumulate_length in Hx. lia. }
  destruct (nth_error betas (S t)) as [b |] eqn:Hb.
  2:{ apply nth_error_None in Hb. lia. }
  exists x, b. repeat split; auto.
  rewrite (rounded_accumulate_step _ _ _ Hx Hb) in Hy. congruence.
Qed.

(** Every value of the product is a number of the format in [0, 1]. *)
Lemma rounded_accumulate_range (betas : list R) (acc : R) :
  rnd acc = acc -> 0 <= acc <= 1 ->
  Forall (fun b => rnd 1e-4 <= b <= rnd 0.999) betas ->
  Forall (fun x => rnd x = x /\ 0 <= x <= 1)
         (Rounded.accumulate rnd acc betas).
Proof.
  revert acc. induction betas as [| b rest IH]; intros acc Hfix Hacc Hb;
    simpl; [constructor |].
  inversion Hb as [| ? ? Hb0 Hrest]; subst.
  destruct (rounded_step Hfix Hacc (rounded_retained Hb0))
    as (Hfix' & Hrange & _).
  constructor; [split; [exact Hfix' | lra] |].
  apply IH; [exact Hfix' | lra | exact Hrest].
Qed.

(** The product never rises, and it falls as long as it is above
    20000 eta. *)
Lemma rounded_accumulate_falls (betas : list R) :
  Forall (fun b => rnd 1e-4 <= b <= rnd 0.999) betas ->
  non_increasing (Rounded.accumulate rnd 1 betas)
  /\ strictly_decreasing_above (20000 * eta)
       (Rounded.accumulate rnd 1 betas).
Proof.
  intros Hb.
  pose proof (@rounded_accumulate_range betas 1 (rnd_1 Hr)
                ltac:(lra) Hb) as Hall.
  rewrite Forall_forall in Hall, Hb.
  split; intros t x y Hx Hy;
    destruct (rounded_accumulate_succ_inv _ _ _ Hy)
      as (x' & b & Hx' & Hbt & ->);
    assert (x' = x) by congruence; subst x';
    destruct (Hall x (nth_error_In _ _ Hx)) as [Hfix Hrange];
    destruct (rounded_step Hfix Hrange
                (rounded_retained (Hb b (nth_error_In _ _ Hbt))))
      as (_ & Hle & Hlt).
  - lra.
  - exact Hlt.
Qed.

Lemma falling_from_betas (betas : list R) :
  Forall (fun b => rnd 1e-4 <= b <= rnd 0.999) betas ->
  falling_schedule (rnd 1e-4) (20000 * eta) betas
                   (Rounded.accumulate rnd 1 betas).
Proof.
  intros Hb. destruct (rounded_accumulate_falls Hb) as [Hni Hsd].
  split; [| split; assumption].
  revert Hb. apply Forall_impl. intros b [H _]. exact H.
Qed.

(** *** First values *)

(** The product starts at the retained fraction of the first step. *)
Lemma rounded_first (betas : list R) (b : R) :
  nth_error betas 0 = Some b ->
  nth_error (Rounded.accumulate rnd 1 betas) 0 = Some (rnd (1 - b)).
Proof.
  intros Hb. rewrite (rounded_accumulate_first 1 _ Hb).
  now rewrite Rmult_1_l, (rnd_idempotent Hr).
Qed.

Lemma rounded_cap_betaMin : Rmin (rnd 0.999) (rnd 1e-4) = rnd 1e-4.
Proof. apply Rmin_right, (rnd_monotone Hr). lra. Qed.

Lemma rounded_linear_first (T : nat) :
  (1 <= T)%nat ->
  nth_error (Rounded.makeAlphaBarLinear rnd T) 0
  = Some (rnd (1 - rnd 1e-4)).
Proof.
  intros HT. unfold Rounded.makeAlphaBarLinear.
  apply rounded_first. unfold Rounded.betasLinear.
  rewrite Array_from_nth by lia. f_equal.
  rewrite rounded_position_0, Rmult_0_l, (rnd_0 Hr), Rplus_0_r.
  rewrite rnd_literal_fixed. apply rounded_cap_betaMin.
Qed.

Lemma rounded_quadratic_first (T : nat) :
  (1 <= T)%nat ->
  nth_error (Rounded.makeAlphaBarQuadratic rnd T) 0
  = Some (rnd (1 - rnd 1e-4)).
Proof.
  intros HT. unfold Rounded.makeAlphaBarQuadratic.
  apply rounded_first. unfold Rounded.betasQuadratic.
  rewrite Array_from_nth by lia. f_equal. cbv zeta.
  rewrite rounded_position_0, Rmult_0_l, (rnd_0 Hr), Rmult_0_l,
    (rnd_0 Hr), Rplus_0_r.
  rewrite rnd_literal_fixed. apply rounded_cap_betaMin.
Qed.

(** 1 - 1e-4 with its two roundings is 0.9999 up to 2 (u + eta). *)
Lemma rounded_09999 : Rabs (rnd (1 - rnd 1e-4) - 0.9999) <= 2 * (u + eta).
Proof.
  destruct (rnd_u Hr) as [Hu0 Hu1]. destruct (rnd_eta Hr) as [He0 He1].
  pose proof betaMin_range as Hb.
  pose proof (@rnd_within rnd u eta Hr 1e-4 1e-4
                ltac:(apply Rabs_le; lra) ltac:(lra)) as H1.
  pose proof (@rnd_within rnd u eta Hr (1 - rnd 1e-4) 1
                ltac:(apply Rabs_le; lra) ltac:(lra)) as H2.
  apply Rabs_le. nra.
Qed.

Lemma exp_5 : exp 5 <= 243.
Proof.
  replace 5 with (1 + 1 + 1 + 1 + 1) by lra. rewrite !exp_plus.
  pose proof exp_le_3 as H3. pose proof (exp_pos 1) as H0.
  assert (H2 : 0 < exp 1 * exp 1 <= 9) by nra.
  assert (H4 : 0 < exp 1 * exp 1 * exp 1 * exp 1 <= 81) by nra.
  nra.
Qed.

(** The first beta of the sigmoid schedule is above 0.00129: the
    logistic factor at position 0 is about 1 / (1 + e^4), not 0. *)
Lemma rounded_sigmoid_beta_0 (T : nat) :
  (1 <= T)%nat ->
  exists b, nth_error (Rounded.betasSigmoid rnd fexp T) 0 = Some b
            /\ 0.00129 <= b <= rnd 0.999.
Proof.
  intros HT. unfold Rounded.betasSigmoid.
  rewrite Array_from_nth by lia. cbv zeta.
  rewrite rounded_position_0.
  eexists. split; [reflexivity |].
  split; [| apply Rmin_l].
  destruct (rnd_u Hr) as [Hu0 Hu1]. destruct (rnd_eta Hr) as [He0 He1].
  pose proof betaMin_range as Hbmin. pose proof cap_range as Hcap.
  pose proof (@rnd_literal 0.5 ltac:(lra)) as Hh.
  set (h := rnd 0.5) in *.
  pose proof (@rnd_close (0 - h) ltac:(apply Rabs_le; lra)) as Hy.
  set (y := rnd (0 - h)) in *.
  pose proof (@rnd_within rnd u eta Hr (- y * 8) 5
                ltac:(apply Rabs_le; lra) ltac:(lra)) as Hz.
  set (z := rnd (- y * 8)) in *.
  assert (Hz5 : z < 5) by lra.
  pose proof (exp_increasing _ _ Hz5) as Hez. pose proof exp_5 as He5.
  pose proof (@fexp_close z ltac:(apply Rabs_le; lra)) as Hfz.
  pose proof (fexp_nonneg z) as Hfp.
  assert (Hw1 : 1 <= rnd (1 + fexp z)) by (apply (rnd_ge_1 Hr); lra).
  assert (Hw2 : rnd (1 + fexp z) <= 245).
  { apply (rnd_le_fixed Hr); [apply (rnd_int Hr 245); simpl; lia | lra]. }
  set (w := rnd (1 + fexp z)) in *.
  assert (Hq : 1 / 245 <= 1 / w <= 1).
  { unfold Rdiv. rewrite !Rmult_1_l. split.
    - apply Rinv_le_contravar; lra.
    - rewrite <- Rinv_1. apply Rinv_le_contravar; lra. }
  pose proof (@rnd_close (1 / w) ltac:(apply Rabs_le; lra)) as Hsig.
  pose proof (@rnd_le_1 rnd u eta Hr (1 / w) ltac:(lra)) as Hsig1.
  set (sig := rnd (1 / w)) in *.
  pose proof (@rnd_literal 0.3 ltac:(lra)) as Hbmax.
  pose proof (@rnd_close (rnd 0.3 - rnd 1e-4) ltac:(apply Rabs_le; lra))
    as Hd.
  set (d := rnd (rnd 0.3 - rnd 1e-4)) in *.
  assert (Hsd : 0.0011 <= sig * d <= 0.31) by (split; nra).
  pose proof (@rnd_close (sig * d) ltac:(apply Rabs_le; lra)) as Hp.
  assert (Hsd' : 0.0011992 <= sig * d) by nra.
  set (p := rnd (sig * d)) in *.
  pose proof (@rnd_close (rnd 1e-4 + p) ltac:(apply Rabs_le; lra)) as Hs.
  apply Rmin_glb; lra.
Qed.

Lemma rounded_sigmoid_first (T : nat) :
  (1 <= T)%nat ->
  exists a, nth_error (Rounded.makeAlphaBarSigmoid rnd fexp T) 0 = Some a
            /\ a < 0.999.
Proof.
  intros HT. destruct (rounded_sigmoid_beta_0 HT) as (b & Hb & Hlow & Hup).
  exists (rnd (1 - b)). split.
  - unfold Rounded.makeAlphaBarSigmoid. now apply rounded_first.
  - pose proof cap_range.
    pose proof (@rnd_close (1 - b) ltac:(apply Rabs_le; lra)). lra.
Qed.


End RoundedSchedules.

Section RoundedSchedulesWitness.

Import JS Fp Props.
Local Open Scope R_scope.

(** In exact arithmetic the rounded builders are the builders of
    [Schedule]. *)
Lemma accumulate_exact (betas : list R) (acc : R) :
  Rounded.accumulate exact acc betas = Schedule.accumulate acc betas.
Proof.
  revert acc. induction betas as [| b rest IH]; intros acc; simpl;
    [reflexivity |].
  unfold exact at 1 2. now rewrite IH.
Qed.

Lemma builders_exact (T : nat) :
  Rounded.makeAlphaBarLinear exact T = Schedule.makeAlphaBarLinear T
  /\ Rounded.makeAlphaBarQuadratic exact T = Schedule.makeAlphaBarQuadratic T
  /\ Rounded.makeAlphaBarSigmoid exact exp T = Schedule.makeAlphaBarSigmoid T.
Proof.
  unfold Rounded.makeAlphaBarLinear, Rounded.makeAlphaBarQuadratic,
    Rounded.makeAlphaBarSigmoid.
  rewrite !accumulate_exact. repeat split; f_equal.
Qed.



(** On the binary64 numbers the schedules of the scenario, of length 100,
    fall strictly to their end, from 0.9999. *)
Example linear_100_binary64 :
  nth_error (B64.makeAlphaBarLinear 100) 0 = Some 0.9999%float
  /\ forallb (fun p => PrimFloat.ltb (snd p) (fst p))
       (combine (B64.makeAlphaBarLinear 100)
                (tl (B64.makeAlphaBarLinear 100))) = true.
Proof. vm_compute. split; reflexivity. Qed.

End RoundedSchedulesWitness.

(** ** The dispatcher *)

Section Dispatcher.

Import JS Schedule Props.

Lemma clamp_steps_of_nat (T : nat) :
  (2 <= T)%nat -> clamp_steps (Z.of_nat T) = T.
Proof. intros HT. unfold clamp_steps. lia. Qed.

(** The four names find their own builders. *)
Example alphaBar_known (steps : Z) :
  alphaBar "linear" steps = makeAlphaBarLinear (clamp_steps steps)
  /\ alphaBar "cosine" steps = makeAlphaBarCosine (clamp_steps steps)
  /\ alphaBar "quadratic" steps = makeAlphaBarQuadratic (clamp_steps steps)
  /\ alphaBar "sigmoid" steps = makeAlphaBarSigmoid (clamp_steps steps).
Proof. repeat split. Qed.

(** C6. For every T >= 2, a shape name that is none of linear, cosine,
    quadratic, sigmoid selects the schedule of the linear builder, the
    same one the name linear selects. *)
Theorem unknown_shape_falls_back (scheduler : string) (T : nat) :
  (2 <= T)%nat ->
  ~ In scheduler (map id ALL_SCHEDULERS) ->
  alphaBar scheduler (Z.of_nat T) = makeAlphaBarLinear T
  /\ alphaBar scheduler (Z.of_nat T) = alphaBar "linear" (Z.of_nat T).
Proof.
  intros HT Hnot.
  assert (Hfind : find (fun s => String.eqb (id s) scheduler) ALL_SCHEDULERS
                  = None).
  { simpl in Hnot. unfold ALL_SCHEDULERS. cbn [find id].
    repeat match goal with
      | |- context [String.eqb ?a scheduler] =>
          destruct (String.eqb_spec a scheduler); [exfalso; tauto |]
      end.
    reflexivity. }
  unfold alphaBar at 1 2. rewrite Hfind.
  rewrite clamp_steps_of_nat by exact HT.
  split; [reflexivity |].
  unfold alphaBar. simpl. now rewrite clamp_steps_of_nat.
Qed.

Lemma unknown_shape_falls_back_witness :
  (2 <= 5)%nat
  /\ ~ In "exponential"%string (map id ALL_SCHEDULERS)
  /\ alphaBar "exponential" (Z.of_nat 5) = makeAlphaBarLinear 5
  /\ alphaBar "exponential" (Z.of_nat 5) = alphaBar "linear" (Z.of_nat 5).
Proof.
  assert (H2 : (2 <= 5)%nat) by lia.
  assert (Hnot : ~ In "exponential"%string (map id ALL_SCHEDULERS)).
  { simpl. intros [H | [H | [H | [H | []]]]]; discriminate H. }
  split; [exact H2 | split; [exact Hnot |]].
  exact (unknown_shape_falls_back H2 Hnot).
Defined.

End Dispatcher.

(** ** The interpolated schedule value *)

Section Interpolation.

Import JS Fp Forward.
Local Open Scope R_scope.

Variable rnd : R -> R.
Variables u eta : R.
Hypothesis Hr : rounding rnd u eta.

(** *** Reading a cell *)

Lemma get_IZR (arr : list R) (z : Z) :
  (0 <= z)%Z -> get arr (IZR z) = nth_error arr (Z.to_nat z).
Proof.
  intros Hz. unfold get. rewrite Int_part_IZR.
  destruct (Req_dec_T (IZR z) (IZR z)) as [_ | Hne]; [| contradiction].
  destruct (Z.leb_spec 0 z); [reflexivity | lia].
Qed.

Lemma get_fraction (arr : list R) (k : R) :
  (forall z : Z, k <> IZR z) -> get arr k = None.
Proof.
  intros Hk. unfold get.
  destruct (Req_dec_T (IZR (Int_part k)) k) as [Heq | _]; [| reflexivity].
  exfalso. apply (Hk (Int_part k)). now symmetry.
Qed.

(** The length of the schedule for a whole number of steps. *)
Lemma array_length_integer (n : Z) :
  array_length (Rmax 2 (IZR n)) = Z.to_nat (Z.max 2 n).
Proof. unfold array_length. now rewrite Rmax_IZR, Int_part_IZR. Qed.

(** *** The cell and the fraction for a whole number of steps *)

Lemma interp_index_integer (n : Z) (tPos : R) :
  interp_index (IZR n) tPos
  = IZR (Z.max 0 (Z.min (n - 2) (Int_part tPos))).
Proof.
  unfold interp_index.
  replace (IZR n - 2) with (IZR (n - 2)) by now rewrite minus_IZR.
  now rewrite Rmin_IZR, Rmax_IZR.
Qed.

(** The code clamps against [steps - 2]; with a schedule of
    T = max(2, steps) values this is the clamp against T - 2. *)
Lemma interp_index_length (n : Z) (tPos : R) :
  Z.max 0 (Z.min (n - 2) (Int_part tPos))
  = Z.max 0 (Z.min (Z.max 2 n - 2) (Int_part tPos)).
Proof. lia. Qed.

Lemma interp_frac_range (tPos k : R) : 0 <= interp_frac tPos k <= 1.
Proof.
  unfold interp_frac. split; [apply Rmax_l |].
  apply Rmax_lub; [lra | apply Rmin_l].
Qed.

(** At an integer position below the last one the cell is the position
    and the fraction is 0. *)
Lemma interp_at_integer (n t : Z) :
  (0 <= t <= Z.max 2 n - 2)%Z ->
  interp_index (IZR n) (IZR t) = IZR t
  /\ interp_frac (IZR t) (IZR t) = 0.
Proof.
  intros Ht. split.
  - rewrite interp_index_integer, Int_part_IZR. f_equal. lia.
  - unfold interp_frac. rewrite Rmin_right, Rmax_left by lra. reflexivity.
Qed.

(** At the last position the cell is the one before and the fraction
    is 1. *)
Lemma interp_at_last (n : Z) :
  let T := Z.max 2 n in
  interp_index (IZR n) (IZR (T - 1)) = IZR (T - 2)
  /\ interp_frac (IZR (T - 1)) (IZR (T - 2)) = 1.
Proof.
  intros T. split.
  - rewrite interp_index_integer, Int_part_IZR. f_equal. unfold T. lia.
  - unfold interp_frac. rewrite !minus_IZR.
    rewrite Rmin_left, Rmax_right by lra. reflexivity.
Qed.

(** Half a step after an integer position the cell is that position and
    the fraction is 1/2. *)
Lemma interp_at_half (n t : Z) :
  (0 <= t <= Z.max 2 n - 2)%Z ->
  interp_index (IZR n) (IZR t + 0.5) = IZR t
  /\ interp_frac (IZR t + 0.5) (IZR t) = 0.5.
Proof.
  intros Ht. split.
  - rewrite interp_index_integer, Int_part_half. f_equal. lia.
  - unfold interp_frac. rewrite Rmin_right, Rmax_right by lra. lra.
Qed.

(** Both neighbours of a position are cells of the schedule. *)
Lemma interp_neighbours (alphaBar : list R) (n : Z) (tPos : R) :
  length alphaBar = array_length (Rmax 2 (IZR n)) ->
  let k := Z.max 0 (Z.min (n - 2) (Int_part tPos)) in
  exists lo hi,
    nth_error alphaBar (Z.to_nat k) = Some lo
    /\ nth_error alphaBar (Z.to_nat (k + 1)) = Some hi
    /\ alpha_bar_at rnd alphaBar (IZR n) tPos
       = Some (lerp rnd lo hi (interp_frac tPos (IZR k))).
Proof.
  intros Hlen k. rewrite array_length_integer in Hlen.
  assert (Hk : (0 <= k <= Z.max 2 n - 2)%Z) by (unfold k; lia).
  destruct (nth_error alphaBar (Z.to_nat k)) as [lo |] eqn:Hlo.
  2:{ apply nth_error_None in Hlo. lia. }
  destruct (nth_error alphaBar (Z.to_nat (k + 1))) as [hi |] eqn:Hhi.
  2:{ apply nth_error_None in Hhi. lia. }
  exists lo, hi. repeat split.
  unfold alpha_bar_at. rewrite interp_index_integer. fold k.
  rewrite get_IZR by lia. rewrite Hlo. cbn [bind].
  replace (IZR k + 1) with (IZR (k + 1)) by now rewrite plus_IZR.
  rewrite get_IZR by lia. now rewrite Hhi.
Qed.

(** *** The rounded expression *)

(** With the fraction 0 the expression returns the cell itself. *)
Lemma lerp_0 (lo hi : R) : rnd lo = lo -> lerp rnd lo hi 0 = lo.
Proof.
  intros Hlo. unfold lerp.
  now rewrite Rmult_0_r, (rnd_0 Hr), Rplus_0_r.
Qed.

Lemma lerp_1 (lo hi : R) : lerp rnd lo hi 1 = rnd (lo + rnd (hi - lo)).
Proof. unfold lerp. now rewrite Rmult_1_r, (rnd_idempotent Hr). Qed.

(** For cells of [0, 1] and a fraction of [0, 1] the three roundings move
    the result by at most 4 (u + eta). *)
Lemma lerp_error (lo hi f : R) :
  0 <= lo <= 1 -> 0 <= hi <= 1 -> 0 <= f <= 1 ->
  - (4 * (u + eta)) <= lerp rnd lo hi f - (lo + (hi - lo) * f)
  <= 4 * (u + eta).
Proof.
  intros Hlo Hhi Hf.
  destruct (rnd_u Hr) as [Hu0 Hu1]. destruct (rnd_eta Hr) as [He0 He1].
  unfold lerp.
  set (d := rnd (hi - lo)).
  assert (Hd : - (u * 1 + eta) <= d - (hi - lo) <= u * 1 + eta).
  { apply (rnd_within Hr); [apply Rabs_le; lra | lra]. }
  assert (Hdf : - (u + eta) <= (d - (hi - lo)) * f <= u + eta) by nra.
  set (p := rnd (d * f)).
  assert (Hp : - (u * 1.01 + eta) <= p - d * f <= u * 1.01 + eta).
  { apply (rnd_within Hr); [apply Rabs_le; split; nra | lra]. }
  assert (Hmid : 0 <= lo + (hi - lo) * f <= 1) by (split; nra).
  assert (Hq : - (u * 1.01 + eta) <= rnd (lo + p) - (lo + p)
               <= u * 1.01 + eta).
  { apply (rnd_within Hr); [apply Rabs_le; split; nra | lra]. }
  split; nra.
Qed.

(** The read at an integer position before the last one. *)
Lemma alpha_bar_at_cell (alphaBar : list R) (n t : Z) :
  length alphaBar = array_length (Rmax 2 (IZR n)) ->
  Forall (fun a => rnd a = a /\ 0 <= a <= 1) alphaBar ->
  (0 <= t <= Z.max 2 n - 2)%Z ->
  exists a, nth_error alphaBar (Z.to_nat t) = Some a
            /\ alpha_bar_at rnd alphaBar (IZR n) (IZR t) = Some a.
Proof.
  intros Hlen Hcells Ht. rewrite Forall_forall in Hcells.
  destruct (interp_neighbours alphaBar n (IZR t) Hlen)
    as (lo & hi & Hlo & Hhi & Hv).
  destruct (interp_at_integer n Ht) as [Hk Hf].
  rewrite interp_index_integer in Hk. apply eq_IZR in Hk.
  rewrite Hk in Hlo, Hv. exists lo. split; [exact Hlo |].
  rewrite Hv, Hf. f_equal. apply lerp_0.
  apply (Hcells lo (nth_error_In _ _ Hlo)).
Qed.

(** The read at the last position. *)
Lemma alpha_bar_at_last (alphaBar : list R) (n : Z) :
  length alphaBar = array_length (Rmax 2 (IZR n)) ->
  Forall (fun a => rnd a = a /\ 0 <= a <= 1) alphaBar ->
  let T := Z.max 2 n in
  exists lo hi,
    nth_error alphaBar (Z.to_nat (T - 2)) = Some lo
    /\ nth_error alphaBar (Z.to_nat (T - 1)) = Some hi
    /\ alpha_bar_at rnd alphaBar (IZR n) (IZR (T - 1))
       = Some (rnd (lo + rnd (hi - lo)))
    /\ Rabs (rnd (lo + rnd (hi - lo)) - hi) <= 4 * (u + eta).
Proof.
  intros Hlen Hcells T. rewrite Forall_forall in Hcells.
  destruct (interp_neighbours alphaBar n (IZR (T - 1)) Hlen)
    as (lo & hi & Hlo & Hhi & Hv).
  destruct (interp_at_last n) as [Hk Hf]. fold T in Hk, Hf.
  rewrite interp_index_integer in Hk. apply eq_IZR in Hk.
  rewrite Hk in Hlo, Hhi, Hv.
  replace (T - 2 + 1)%Z with (T - 1)%Z in Hhi by lia.
  exists lo, hi. split; [exact Hlo |]. split; [exact Hhi |].
  rewrite Hf, lerp_1 in Hv. split; [exact Hv |].
  pose proof (@lerp_error lo hi 1
                (proj2 (Hcells lo (nth_error_In _ _ Hlo)))
                (proj2 (Hcells hi (nth_error_In _ _ Hhi)))
                ltac:(lra)) as Herr.
  rewrite lerp_1 in Herr. apply Rabs_le. lra.
Qed.


End Interpolation.

Section InterpolationWitness.

Import JS Fp Forward.
Local Open Scope R_scope.

Lemma schedule_3_cells :
  Forall (fun a => fixed40 a = a /\ 0 <= a <= 1) [1; 0.5; 0.25].
Proof.
  destruct fixed40_values as (H1 & H2 & H3).
  repeat constructor; try assumption; lra.
Qed.

Lemma schedule_3_length :
  length [1; 0.5; 0.25] = array_length (Rmax 2 (IZR 3)).
Proof. now rewrite array_length_integer. Qed.



(** At the positions before the last one the same read returns the
    cell. *)
Example alpha_bar_at_first_exact :
  B64.alpha_bar_at [0.5; 0.1]%float 2 0 = 0.5%float.
Proof. vm_compute. reflexivity. Qed.

End InterpolationWitness.

(** ** The forward sample *)

Section ForwardSample.

Import JS Forward.
Local Open Scope R_scope.

Lemma Math_sqrt_nonneg (x : R) : 0 <= x -> Math_sqrt x = Some (sqrt x).
Proof.
  intros Hx. unfold Math_sqrt. destruct (Rle_dec 0 x); [reflexivity | lra].
Qed.

(** Both scale factors have a value at every [ab]: the guards keep the
    arguments of the square roots from being negative. *)
Lemma signal_scale_value (ab : R) :
  signal_scale ab = Some (sqrt (Rmax 1e-8 ab)).
Proof.
  apply Math_sqrt_nonneg. pose proof (Rmax_l 1e-8 ab). lra.
Qed.

Lemma noise_scale_value (ab : R) :
  noise_scale ab = Some (sqrt (Rmax 0 (1 - ab))).
Proof. apply Math_sqrt_nonneg, Rmax_l. Qed.

Lemma mapM_map (A B C : Type) (g : A -> B) (f : B -> option C) (xs : list A) :
  mapM f (map g xs) = mapM (fun x => f (g x)) xs.
Proof.
  induction xs as [| x rest IH]; simpl; [reflexivity | now rewrite IH].
Qed.

Lemma mapM_ext (A B : Type) (f g : A -> option B) (xs : list A) :
  (forall x, f x = g x) -> mapM f xs = mapM g xs.
Proof.
  intros H. induction xs as [| x rest IH]; simpl; [reflexivity |].
  now rewrite H, IH.
Qed.

(** Reading two arrays of the same length side by side. *)
Lemma forward_components (s1 s2 : R) (x0 eps : list R) :
  length x0 = length eps ->
  mapM (forward_component s1 s2 x0 eps) (seq 0 (length x0))
  = Some (map (fun xe => s1 * fst xe + s2 * snd xe) (combine x0 eps)).
Proof.
  revert eps. induction x0 as [| x rest IH]; intros eps Hlen.
  - reflexivity.
  - destruct eps as [| e eps']; [discriminate |].
    injection Hlen as Hlen.
    cbn [length seq mapM].
    rewrite <- seq_shift, mapM_map.
    rewrite (mapM_ext _ (forward_component s1 s2 rest eps'))
      by reflexivity.
    rewrite (IH eps' Hlen). reflexivity.
Qed.

Lemma forward_sample_value (x0 eps : list R) (ab : R) :
  length x0 = length eps ->
  forward_sample x0 eps ab
  = Some (map (fun xe => sqrt (Rmax 1e-8 ab) * fst xe
                         + sqrt (Rmax 0 (1 - ab)) * snd xe)
              (combine x0 eps)).
Proof.
  intros Hlen. unfold forward_sample.
  rewrite signal_scale_value, noise_scale_value. simpl.
  now apply forward_components.
Qed.

(** C2. For vectors x0 and eps of the same length and every scalar ab,
    the forward sample has a value (no NaN arises, whatever ab is, so in
    particular for ab in [0, 1]), it has the length of the inputs, and its
    component i is sqrt(max(ab, 1e-8)) * x0[i] + sqrt(max(1 - ab, 0)) * eps[i]. *)
Theorem forward_sample_formula (x0 eps : list R) (ab : R) :
  length x0 = length eps ->
  exists out,
    forward_sample x0 eps ab = Some out
    /\ length out = length x0
    /\ forall i x e, nth_error x0 i = Some x -> nth_error eps i = Some e ->
         nth_error out i = Some (forward_formula ab x e).
Proof.
  intros Hlen. rewrite (forward_sample_value _ _ ab Hlen).
  eexists. split; [reflexivity |]. split.
  - rewrite length_map, length_combine. lia.
  - intros i x e Hx He.
    rewrite nth_error_map.
    rewrite (combine_nth_error _ _ _ Hx He). simpl. unfold forward_formula.
    now rewrite (Rmax_comm ab), (Rmax_comm (1 - ab)).
Qed.

Lemma forward_sample_formula_witness :
  length [2; -1] = length [0.5; 3]
  /\ exists out,
       forward_sample [2; -1] [0.5; 3] 0.25 = Some out
       /\ length out = length [2; -1]
       /\ forall i x e, nth_error [2; -1] i = Some x ->
            nth_error [0.5; 3] i = Some e ->
            nth_error out i = Some (forward_formula 0.25 x e).
Proof.
  assert (Hlen : length [2; -1] = length [0.5; 3]) by reflexivity.
  split; [exact Hlen | exact (forward_sample_formula _ _ 0.25 Hlen)].
Defined.

End ForwardSample.

(** ** The forward sample at the two ends of a schedule *)

Section ForwardExtremes.

Import JS Forward.
Local Open Scope R_scope.

Lemma sqrt_1e8 : sqrt 1e-8 = 1e-4.
Proof.
  replace 1e-8 with (1e-4 * 1e-4) by lra. apply sqrt_square. lra.
Qed.

(** At [ab = 1] the scales are 1 and 0; at [ab = 0] they are 1e-4 (the
    guard 1e-8 under the root) and 1. *)
Lemma scales_at_1 : sqrt (Rmax 1e-8 1) = 1 /\ sqrt (Rmax 0 (1 - 1)) = 0.
Proof.
  rewrite Rmax_right by lra. rewrite sqrt_1.
  replace (1 - 1) with 0 by lra. rewrite Rmax_left by lra.
  now rewrite sqrt_0.
Qed.

Lemma scales_at_0 : sqrt (Rmax 1e-8 0) = 1e-4 /\ sqrt (Rmax 0 (1 - 0)) = 1.
Proof.
  rewrite Rmax_left by lra. rewrite sqrt_1e8.
  replace (1 - 0) with 1 by lra. rewrite Rmax_right by lra.
  now rewrite sqrt_1.
Qed.

Lemma map_fst_combine_same_length (xs ys : list R) :
  length xs = length ys ->
  map (fun xe => 1 * fst xe + 0 * snd xe) (combine xs ys) = xs.
Proof.
  revert ys. induction xs as [| x rest IH]; intros ys Hlen; [reflexivity |].
  destruct ys as [| y ys']; [discriminate |].
  injection Hlen as Hlen. simpl. rewrite (IH ys' Hlen). f_equal. lra.
Qed.




End ForwardExtremes.

(** ** The generator *)

Section Mulberry32.

Import JS Rng.

Lemma ToUint32_range (x : Z) : (0 <= ToUint32 x < 2 ^ 32)%Z.
Proof. unfold ToUint32. apply Z.mod_pos_bound. lia. Qed.

Lemma ushr_0_range (x : Z) : (0 <= ushr x 0 < 4294967296)%Z.
Proof.
  unfold ushr. rewrite Z.shiftr_0_r.
  pose proof (ToUint32_range x). lia.
Qed.

(** Every draw is a rational of [0, 1). *)
Lemma mulberry32_range (s : Z) :
  (0 <= fst (mulberry32 s) /\ fst (mulberry32 s) < 1)%Q.
Proof.
  unfold mulberry32. cbv zeta. cbn [fst].
  match goal with
  | |- context [Qmake (ushr ?x 0) _] => pose proof (ushr_0_range x) as Hr
  end.
  unfold Qle, Qlt. cbn [Qnum Qden]. lia.
Qed.

(** The captured state moves by the constant, whatever is drawn, and
    without rounding as long as it stays below 2^53. *)
Lemma b64_int_exact (x : Z) : (Z.abs x < 2 ^ 53)%Z -> b64_int x = x.
Proof.
  intros Hx. unfold b64_int.
  destruct (Z.ltb_spec (Z.abs x) (2 ^ 53)) as [_ | Hge]; [reflexivity | lia].
Qed.

Lemma mulberry32_state (s : Z) :
  (Z.abs (s + 0x6d2b79f5) < 2 ^ 53)%Z ->
  snd (mulberry32 s) = (s + 0x6d2b79f5)%Z.
Proof. intros Hs. unfold mulberry32. cbn [snd]. now apply b64_int_exact. Qed.

(** Past 2^53 the state is rounded: after the seed 2^53 the captured
    variable holds 2^53 + 1831565812, not 2^53 + 1831565813, and the draw
    is 3850105811 / 2^32, not the 1144304738 / 2^32 of the seed 0. *)
Example mulberry32_seed_2_53 :
  mulberry32 (2 ^ 53)
  = (Qmake 3850105811 4294967296, (2 ^ 53 + 1831565812)%Z).
Proof. vm_compute. reflexivity. Qed.

Lemma mulberry32_R_range (s : Z) :
  (0 <= fst (mulberry32_R s) < 1)%R.
Proof.
  unfold mulberry32_R.
  pose proof (mulberry32_range s) as [H0 H1].
  destruct (mulberry32 s) as [q s']. cbn [fst] in *.
  split.
  - replace 0%R with (Q2R 0) by (unfold Q2R; simpl; lra).
    now apply Qle_Rle.
  - replace 1%R with (Q2R 1) by (unfold Q2R; simpl; lra).
    now apply Qlt_Rlt.
Qed.

(** The first draw after seed 0 is 0x4434b462 / 2^32 = 0.26642920868... *)
Example mulberry32_seed_0 :
  mulberry32 0 = (Qmake 1144304738 4294967296, 1831565813%Z).
Proof. vm_compute. reflexivity. Qed.

End Mulberry32.

(** ** The normal sampler *)

Section RandnFacts.

Import JS Rng.
Local Open Scope R_scope.

Variable St : Type.
Variable rng : St -> R * St.

Lemma state_after_S (n : nat) (st : St) :
  state_after rng (S n) st = state_after rng n (snd (rng st)).
Proof. reflexivity. Qed.

Lemma draw_S (n : nat) (st : St) :
  draw rng (S n) st = draw rng n (snd (rng st)).
Proof. reflexivity. Qed.

Lemma first_nonzero_S (n : nat) (st : St) :
  first_nonzero rng (S n) st ->
  fst (rng st) = 0 /\ first_nonzero rng n (snd (rng st)).
Proof.
  intros [Hn Hbefore]. split.
  - apply (Hbefore 0%nat). lia.
  - split; [exact Hn |].
    intros k Hk. rewrite <- draw_S. apply Hbefore. lia.
Qed.

(** The resampling loop stops at the first draw that is not 0, provided
    the fuel reaches it. *)
Lemma draw_nonzero_first (n : nat) :
  forall (st : St) (fuel : nat),
    first_nonzero rng n st -> (n < fuel)%nat ->
    draw_nonzero rng fuel st
    = Some (draw rng n st, state_after rng (S n) st).
Proof.
  induction n as [| n IH]; intros st fuel Hfirst Hfuel.
  - destruct fuel as [| fuel']; [lia |].
    destruct Hfirst as [Hn _]. unfold draw in Hn. simpl in *.
    destruct (rng st) as [u st'] eqn:Hrng. simpl in *.
    destruct (Req_dec_T u 0) as [Hz | Hnz]; [contradiction |].
    unfold draw. simpl. now rewrite Hrng.
  - destruct fuel as [| fuel']; [lia |].
    destruct (first_nonzero_S Hfirst) as [Hz Hrest].
    rewrite draw_S, state_after_S.
    cbn [draw_nonzero].
    destruct (rng st) as [u st'] eqn:Hrng. simpl in *.
    destruct (Req_dec_T u 0) as [_ | Hnz]; [| contradiction].
    apply IH; [exact Hrest | lia].
Qed.

(** Without a draw other than 0 the loop runs out of every fuel: the
    code does not come back. *)
Lemma draw_nonzero_never (fuel : nat) :
  forall st : St,
    (forall n, draw rng n st = 0) -> draw_nonzero rng fuel st = None.
Proof.
  induction fuel as [| fuel IH]; intros st Hzero; [reflexivity |].
  simpl. pose proof (Hzero 0%nat) as H0. unfold draw in H0. simpl in H0.
  destruct (rng st) as [u st'] eqn:Hrng. simpl in H0.
  destruct (Req_dec_T u 0) as [_ | Hnz]; [| contradiction].
  apply IH. intros n. specialize (Hzero (S n)).
  rewrite draw_S, Hrng in Hzero. exact Hzero.
Qed.

(** The generator is uniform on [0, 1): this much of it is used. *)
Hypothesis rng_range : forall st, 0 <= fst (rng st) < 1.

Lemma draw_range (n : nat) (st : St) : 0 <= draw rng n st < 1.
Proof. unfold draw. apply rng_range. Qed.

Lemma Math_log_pos (u : R) : 0 < u -> Math_log u = Some (ln u).
Proof.
  intros Hu. unfold Math_log. destruct (Rlt_dec 0 u); [reflexivity | lra].
Qed.

Lemma ln_below_1 (u : R) : 0 < u < 1 -> ln u < 0.
Proof.
  intros [H0 H1]. rewrite <- ln_1. now apply ln_increasing.
Qed.

(** C8. Let the generator return values of [0, 1).  If call number n is
    its first call that does not return 0, and call number m after that one
    is the next call that does not return 0, then with enough fuel the
    sampler returns sqrt(-2 ln u) * cos(2 pi v) for u and v these two
    values, leaving the generator after the call that gave v.  u is
    positive, so the logarithm is not taken at 0. *)
Theorem randn_box_muller (st : St) (n m fuel : nat) :
  first_nonzero rng n st ->
  first_nonzero rng m (state_after rng (S n) st) ->
  (n < fuel)%nat -> (m < fuel)%nat ->
  let u := draw rng n st in
  let v := draw rng m (state_after rng (S n) st) in
  0 < u /\ v <> 0
  /\ Math_log u = Some (ln u)
  /\ randn rng fuel st
     = Some (sqrt (-2 * ln u) * cos (2 * PI * v),
             state_after rng (S m) (state_after rng (S n) st)).
Proof.
  intros Hu Hv Hn Hm u v.
  assert (Hu0 : 0 < u).
  { destruct Hu as [Hne _]. pose proof (draw_range n st) as [Hge _].
    destruct Hge as [Hgt | Heq]; [exact Hgt | now symmetry in Heq]. }
  assert (Hu1 : u < 1) by apply draw_range.
  split; [exact Hu0 |]. split; [apply Hv |].
  split; [now apply Math_log_pos |].
  unfold randn.
  rewrite (draw_nonzero_first Hu Hn). cbn [bind].
  rewrite (draw_nonzero_first Hv Hm). cbn [bind].
  fold u v. rewrite (Math_log_pos Hu0). cbn [bind].
  pose proof (@ln_below_1 u ltac:(lra)).
  rewrite Math_sqrt_nonneg by lra. reflexivity.
Qed.

End RandnFacts.

(** ** The normal sampler on [mulberry32] *)

Section RandnOnMulberry32.

Import JS Rng.
Local Open Scope R_scope.

(** After the seed 2463401483 the captured variable holds 2^32 and the
    first draw is 0: the sampler has to draw again. *)
Example mulberry32_zero_draw :
  mulberry32 2463401483 = (Qmake 0 4294967296, 4294967296%Z).
Proof. vm_compute. reflexivity. Qed.

Example mulberry32_zero_draw_next :
  mulberry32 4294967296 = (Qmake 1144304738 4294967296, 6126533109%Z).
Proof. vm_compute. reflexivity. Qed.

Example mulberry32_zero_draw_third :
  mulberry32 6126533109 = (Qmake 1416247 4294967296, 7958098922%Z).
Proof. vm_compute. reflexivity. Qed.

Lemma mulberry32_R_step (s s' : Z) (q : Q) :
  mulberry32 s = (q, s') -> mulberry32_R s = (Q2R q, s').
Proof. intros H. unfold mulberry32_R. now rewrite H. Qed.

(** The first draw that is not 0 is the second one. *)
Lemma resampled_draw : first_nonzero mulberry32_R 1 2463401483%Z.
Proof.
  split.
  - unfold draw. cbn [state_after].
    rewrite (mulberry32_R_step mulberry32_zero_draw). cbn [snd].
    rewrite (mulberry32_R_step mulberry32_zero_draw_next).
    unfold Q2R. simpl. lra.
  - intros k Hk. assert (k = 0%nat) by lia. subst k.
    unfold draw. cbn [state_after].
    rewrite (mulberry32_R_step mulberry32_zero_draw).
    unfold Q2R. simpl. lra.
Qed.

Lemma following_draw :
  first_nonzero mulberry32_R 0 (state_after mulberry32_R 2 2463401483%Z).
Proof.
  split; [| intros k Hk; lia].
  unfold draw. cbn [state_after].
  rewrite (mulberry32_R_step mulberry32_zero_draw). cbn [snd].
  rewrite (mulberry32_R_step mulberry32_zero_draw_next). cbn [snd].
  rewrite (mulberry32_R_step mulberry32_zero_draw_third).
  unfold Q2R. simpl. lra.
Qed.

Lemma randn_box_muller_witness :
  (forall s, 0 <= fst (mulberry32_R s) < 1)
  /\ first_nonzero mulberry32_R 1 2463401483%Z
  /\ first_nonzero mulberry32_R 0 (state_after mulberry32_R 2 2463401483%Z)
  /\ (1 < 2)%nat /\ (0 < 2)%nat
  /\ let u := draw mulberry32_R 1 2463401483%Z in
     let v := draw mulberry32_R 0 (state_after mulberry32_R 2 2463401483%Z) in
     0 < u /\ v <> 0
     /\ Math_log u = Some (ln u)
     /\ randn mulberry32_R 2 2463401483%Z
        = Some (sqrt (-2 * ln u) * cos (2 * PI * v),
                state_after mulberry32_R 1
                  (state_after mulberry32_R 2 2463401483%Z)).
Proof.
  assert (Hn : (1 < 2)%nat) by lia.
  assert (Hm : (0 < 2)%nat) by lia.
  split; [exact mulberry32_R_range |].
  split; [exact resampled_draw |].
  split; [exact following_draw |].
  split; [exact Hn |]. split; [exact Hm |].
  exact (randn_box_muller mulberry32_R_range
           resampled_draw following_draw Hn Hm).
Defined.

End RandnOnMulberry32.

(** ** Swapping two cells *)

Section SwapFacts.

Import JS Jigsaw.

Lemma assign_length (A : Type) (arr : list A) (i : nat) (v : A) :
  length (assign arr i v) = length arr.
Proof.
  revert i. induction arr as [| x rest IH]; intros [| i']; simpl; auto.
Qed.

Lemma assign_nth_same (arr : list nat) (i v : nat) :
  (i < length arr)%nat -> nth i (assign arr i v) O = v.
Proof.
  revert i. induction arr as [| x rest IH]; intros [| i'] Hi; simpl in *;
    try lia; auto.
  apply IH. lia.
Qed.

Lemma assign_nth_other (arr : list nat) (i j v : nat) :
  i <> j -> nth j (assign arr i v) O = nth j arr O.
Proof.
  revert i j. induction arr as [| x rest IH]; intros [| i'] [| j'] Hne;
    simpl; auto; try lia.
Qed.

(** Writing [v] over a cell trades it for the old content. *)
Lemma assign_trade (arr : list nat) (i v : nat) :
  (i < length arr)%nat ->
  Permutation (v :: arr) (nth i arr O :: assign arr i v).
Proof.
  revert i. induction arr as [| x rest IH]; intros [| i'] Hi; simpl in *;
    try lia.
  - apply perm_swap.
  - apply Permutation_trans with (x :: v :: rest); [apply perm_swap |].
    apply Permutation_trans with (x :: nth i' rest O :: assign rest i' v).
    + apply perm_skip, IH. lia.
    + apply perm_swap.
Qed.

Lemma swap_length (arr : list nat) (i j : nat) :
  length (swap arr i j) = length arr.
Proof. unfold swap. now rewrite !assign_length. Qed.

Lemma swap_Permutation (arr : list nat) (i j : nat) :
  (i < length arr)%nat -> (j < length arr)%nat ->
  Permutation (swap arr i j) arr.
Proof.
  intros Hi Hj. unfold swap.
  set (vi := nth i arr O). set (vj := nth j arr O).
  pose proof (assign_trade arr vj Hi) as H1. fold vi in H1.
  assert (Hj' : (j < length (assign arr i vj))%nat)
    by now rewrite assign_length.
  pose proof (assign_trade (assign arr i vj) vi Hj') as H2.
  assert (Hold : nth j (assign arr i vj) O = vj).
  { destruct (Nat.eq_dec i j) as [<- | Hne].
    - now apply assign_nth_same.
    - now rewrite assign_nth_other. }
  rewrite Hold in H2.
  apply Permutation_cons_inv with vj.
  apply Permutation_sym.
  now apply Permutation_trans with (vi :: assign arr i vj).
Qed.

End SwapFacts.

(** ** The seeded shuffle *)

Section ShuffleFacts.

Import JS Rng Jigsaw.

Lemma identity_seq (n : nat) : identity n = seq 0 (n * n).
Proof. unfold identity, Array_from. apply map_id. Qed.

(** The index drawn for position [i] is one of 0 .. i. *)
Lemma pick_bound (r : Q) (i : nat) :
  (0 <= r)%Q -> (r < 1)%Q -> (pick r i <= i)%nat.
Proof.
  intros H0 H1. unfold pick.
  set (k := inject_Z (Z.of_nat (i + 1))).
  assert (Hk : (0 < k)%Q).
  { unfold k. change 0%Q with (inject_Z 0). rewrite <- Zlt_Qlt. lia. }
  assert (Hlt : (r * k < k)%Q).
  { setoid_replace k with (1 * k)%Q at 2 by ring.
    apply Qmult_lt_compat_r; assumption. }
  assert (Hfloor : (Qfloor (r * k) < Z.of_nat (i + 1))%Z).
  { rewrite Zlt_Qlt. fold k.
    apply Qle_lt_trans with (r * k)%Q; [apply Qfloor_le | exact Hlt]. }
  lia.
Qed.

Lemma shuffle_loop_Permutation (i : nat) :
  forall (arr : list nat) (seed : Z),
    (i < length arr)%nat ->
    Permutation (shuffle_loop i arr seed) arr.
Proof.
  induction i as [| i IH]; intros arr seed Hi; [reflexivity |].
  cbn [shuffle_loop].
  pose proof (mulberry32_range seed) as [H0 H1].
  destruct (mulberry32 seed) as [r seed']. cbn [fst] in *.
  pose proof (pick_bound (S i) H0 H1) as Hj.
  apply Permutation_trans with (swap arr (S i) (pick r (S i))).
  - apply IH. rewrite swap_length. lia.
  - apply swap_Permutation; lia.
Qed.

(** [every] answers true on the identity and on nothing else. *)
Lemma every_fixed_from (arr : list nat) (k : nat) :
  forallb (fun iv => Nat.eqb (snd iv) (fst iv))
          (combine (seq k (length arr)) arr) = true
  <-> arr = seq k (length arr).
Proof.
  revert k. induction arr as [| x rest IH]; intros k; simpl.
  - split; reflexivity.
  - rewrite andb_true_iff, Nat.eqb_eq, IH. split.
    + intros [-> Hrest]. now f_equal.
    + intros H. injection H as Hx Hrest. split; assumption.
Qed.

Lemma every_fixed_iff (arr : list nat) :
  every_fixed arr = true <-> arr = seq 0 (length arr).
Proof. apply every_fixed_from. Qed.

(** Swapping the first two cells of the identity does not give the
    identity back. *)
Lemma swap_identity_front (len : nat) :
  (1 < len)%nat -> swap (seq 0 len) 0 1 <> seq 0 len.
Proof.
  intros Hlen. destruct len as [| [| len']]; try lia.
  simpl. discriminate.
Qed.

(** In a permutation of 0 .. len - 1 each of these values occurs once. *)
Lemma permutation_of_seq_once (l : list nat) (len v : nat) :
  Permutation l (seq 0 len) -> (v < len)%nat ->
  count_occ Nat.eq_dec l v = 1%nat.
Proof.
  intros Hperm Hv.
  rewrite (Permutation_count_occ Nat.eq_dec) in Hperm. rewrite Hperm.
  apply NoDup_count_occ'; [apply seq_NoDup | apply in_seq; lia].
Qed.

(** C7. For every n >= 1 and every seed the result is a permutation of
    0 .. n*n - 1, each value occurring once; when n*n > 1 it is not the
    identity. *)
Theorem seededShuffle_permutation (n : nat) (seed : Z) :
  (1 <= n)%nat ->
  Permutation (seededShuffle n seed) (seq 0 (n * n))
  /\ (forall v, (v < n * n)%nat ->
        count_occ Nat.eq_dec (seededShuffle n seed) v = 1%nat)
  /\ ((1 < n * n)%nat -> seededShuffle n seed <> seq 0 (n * n)).
Proof.
  intros Hn.
  enough (H : Permutation (seededShuffle n seed) (seq 0 (n * n))
              /\ ((1 < n * n)%nat -> seededShuffle n seed <> seq 0 (n * n))).
  { destruct H as [Hperm Hnot]. split; [exact Hperm |].
    split; [| exact Hnot].
    intros v Hv. exact (permutation_of_seq_once Hperm Hv). }
  unfold seededShuffle. cbv zeta.
  rewrite identity_seq, length_seq.
  set (arr := shuffle_loop (n * n - 1) (seq 0 (n * n)) seed).
  assert (Hperm : Permutation arr (seq 0 (n * n))).
  { apply shuffle_loop_Permutation. rewrite length_seq. nia. }
  assert (Hlen : length arr = (n * n)%nat).
  { rewrite (Permutation_length Hperm). apply length_seq. }
  destruct (every_fixed arr) eqn:Hevery; simpl.
  - apply every_fixed_iff in Hevery. rewrite Hlen in Hevery.
    destruct (Nat.ltb_spec 1 (length arr)) as [Hlt | Hge].
    + split.
      * apply Permutation_trans with arr; [| exact Hperm].
        apply swap_Permutation; lia.
      * intros _. rewrite Hevery. apply swap_identity_front. lia.
    + split; [exact Hperm | intros Hnn; lia].
  - split; [exact Hperm |].
    intros _ Heq.
    assert (Hid : every_fixed arr = true)
      by (apply every_fixed_iff; now rewrite Hlen).
    congruence.
Qed.

Lemma seededShuffle_permutation_witness :
  (1 <= 3)%nat
  /\ Permutation (seededShuffle 3 42) (seq 0 (3 * 3))
  /\ (forall v, (v < 3 * 3)%nat ->
        count_occ Nat.eq_dec (seededShuffle 3 42) v = 1%nat)
  /\ ((1 < 3 * 3)%nat -> seededShuffle 3 42 <> seq 0 (3 * 3)).
Proof.
  assert (H3 : (1 <= 3)%nat) by lia.
  split; [exact H3 | exact (seededShuffle_permutation 42 H3)].
Defined.

(** The shuffle of the 3 x 3 board under seed 42. *)
Example seededShuffle_3_42 :
  seededShuffle 3 42 = [7; 1; 6; 2; 0; 4; 8; 3; 5]%nat.
Proof. vm_compute. reflexivity. Qed.

End ShuffleFacts.

(** ** The kernel density estimate *)

Section KdeFacts.

Import JS Kde.
Local Open Scope R_scope.

(** The accumulation loop adds its terms up, in order, when each has a
    value. *)
Lemma fold_sum (idx : list nat) (term : nat -> option R) (g : nat -> R) :
  (forall i, In i idx -> term i = Some (g i)) ->
  forall acc : R,
    fold_left (fun acc i => s <- acc ;; t <- term i ;; Some (s + t))
              idx (Some acc)
    = Some (acc + Rsum (map g idx)).
Proof.
  induction idx as [| i rest IH]; intros Hterm acc; simpl.
  - f_equal. lra.
  - rewrite (Hterm i) by now left. simpl.
    rewrite IH by (intros k Hk; apply Hterm; now right).
    f_equal. lra.
Qed.

Lemma read_all (data : list R) :
  map (fun i => nth i data 0) (seq 0 (length data)) = data.
Proof.
  induction data as [| x rest IH]; [reflexivity |].
  cbn [length seq map nth]. f_equal.
  rewrite <- seq_shift, map_map. exact IH.
Qed.

(** A loop over all indices of [data] whose term reads [data[i]]. *)
Lemma for_sum_over (data : list R) (term : nat -> option R) (h : R -> R) :
  (forall i x, nth_error data i = Some x -> term i = Some (h x)) ->
  for_sum (length data) term = Some (Rsum (map h data)).
Proof.
  intros Hterm. unfold for_sum.
  rewrite (@fold_sum _ term (fun i => h (nth i data 0))).
  - rewrite <- (map_map (fun i => nth i data 0) h), read_all.
    f_equal. lra.
  - intros i Hi. apply in_seq in Hi. apply Hterm.
    apply nth_error_nth'. lia.
Qed.

Lemma length_or_1_nonempty (data : list R) :
  data <> [] -> length_or_1 data = length data.
Proof.
  intros Hne. unfold length_or_1.
  destruct data as [| x rest]; [contradiction | reflexivity].
Qed.

Lemma Rsum_zero (xs : list R) :
  Forall (fun x => x = 0) xs -> Rsum xs = 0.
Proof.
  induction 1 as [| x rest Hx _ IH]; simpl; [reflexivity | lra].
Qed.

(** The variance the code takes the root of is the floored sample
    variance: with a single sample the squared deviation is 0 and the
    divisor is [Math.max(1, 0) = 1]; with more the divisor is n - 1. *)
Lemma code_variance (data : list R) :
  data <> [] ->
  Rmax 1e-6
       (Rsum (map (fun x => (x - sample_mean data) * (x - sample_mean data))
                  data)
        / Rmax 1 (INR (length data) - 1))
  = floored_variance data.
Proof.
  intros Hne. unfold floored_variance.
  destruct data as [| x [| y rest]]; [contradiction | |].
  - cbn [length Nat.leb].
    replace (sample_mean [x]) with x
      by (unfold sample_mean; simpl; field).
    simpl. replace ((x - x) * (x - x) + 0) with 0 by lra.
    unfold Rdiv. rewrite Rmult_0_l. apply Rmax_left. lra.
  - cbn [length Nat.leb].
    set (data := x :: y :: rest).
    assert (Hn : 2 <= INR (S (S (length rest)))).
    { change 2 with (INR 2). apply le_INR. lia. }
    rewrite (Rmax_right 1) by lra.
    do 3 f_equal. apply map_ext. intros a. simpl. lra.
Qed.

Lemma Rsum_constant (c : R) (xs : list R) :
  Forall (fun x => x = c) xs -> Rsum xs = INR (length xs) * c.
Proof.
  induction 1 as [| x rest Hx _ IH]; [simpl; lra |].
  change (Rsum (x :: rest)) with (x + Rsum rest).
  rewrite IH, Hx. cbn [length]. rewrite S_INR. lra.
Qed.

(** Equal samples have the floor as their variance. *)
Lemma floored_variance_constant (c : R) (data : list R) :
  data <> [] -> Forall (fun x => x = c) data ->
  floored_variance data = 1e-6.
Proof.
  intros Hne Hall. unfold floored_variance.
  destruct (length data <=? 1)%nat; [reflexivity |].
  assert (Hlen : 0 < INR (length data)).
  { apply lt_0_INR. destruct data; [contradiction | simpl; lia]. }
  assert (Hmean : sample_mean data = c).
  { unfold sample_mean. rewrite (Rsum_constant Hall). field. lra. }
  rewrite Hmean, Rsum_zero.
  - unfold Rdiv. rewrite Rmult_0_l. apply Rmax_left. lra.
  - apply Forall_map. revert Hall. apply Forall_impl.
    intros x ->. simpl. lra.
Qed.

Lemma floored_variance_pos (data : list R) : 1e-6 <= floored_variance data.
Proof.
  unfold floored_variance.
  destruct (length data <=? 1)%nat; [lra | apply Rmax_l].
Qed.

(** C9. For a non-empty sample and every grid, the estimate has a value
    at every grid point, so the result has the length of the grid, and
    the value at x is (1 / (sqrt(2 pi) h n)) * sum_i exp(-0.5 ((x - s_i) / h)^2)
    with h = 1.06 * sigma * n^(-1/5), sigma the root of the sample variance
    (n - 1 denominator) floored at 1e-6. *)
Theorem kde_density (data grid : list R) :
  data <> [] ->
  kde data grid = Some (map (density data) grid)
  /\ length (map (density data) grid) = length grid.
Proof.
  intros Hne. split; [| apply length_map].
  unfold kde. rewrite (length_or_1_nonempty Hne).
  rewrite (@for_sum_over data _ (fun x => x)) by (intros i x ->; reflexivity).
  cbn [bind]. rewrite map_id. fold (sample_mean data).
  rewrite (@for_sum_over data _
             (fun x => (x - sample_mean data) * (x - sample_mean data)))
    by (intros i x ->; reflexivity).
  cbn [bind]. rewrite (code_variance Hne).
  pose proof (floored_variance_pos data) as Hvar.
  rewrite Math_sqrt_nonneg by lra. cbn [bind].
  pose proof PI_RGT_0 as Hpi.
  rewrite Math_sqrt_nonneg by lra. cbn [bind].
  fold (sigma_hat data). unfold Math_pow.
  replace (-1 / 5) with (- (1 / 5)) by lra.
  fold (bandwidth data).
  apply mapM_Some. intros x _.
  rewrite (@for_sum_over data _
             (fun xi => exp (- 0.5 * ((x - xi) / bandwidth data) ^ 2))).
  - reflexivity.
  - intros i xi ->. cbn [bind]. do 2 f_equal. ring.
Qed.

Lemma kde_density_witness :
  [1; 3] <> []
  /\ kde [1; 3] [0; 2] = Some (map (density [1; 3]) [0; 2])
  /\ length (map (density [1; 3]) [0; 2]) = length [0; 2].
Proof.
  assert (Hne : [1; 3] <> []) by discriminate.
  split; [exact Hne | exact (kde_density [0; 2] Hne)].
Defined.

End KdeFacts.

(** * Further facts *)

(** ** Seeds of the generator *)

Section SeedFacts.

Import JS Rng Jigsaw.

Lemma ToInt32_mod (a b : Z) :
  (a mod 2 ^ 32 = b mod 2 ^ 32)%Z -> ToInt32 a = ToInt32 b.
Proof.
  intros H. unfold ToInt32.
  rewrite (Z.add_mod a), (Z.add_mod b), H by lia. reflexivity.
Qed.

Lemma ToUint32_mod (a b : Z) :
  (a mod 2 ^ 32 = b mod 2 ^ 32)%Z -> ToUint32 a = ToUint32 b.
Proof. intros H. exact H. Qed.

Lemma seed_step_mod (s s' : Z) :
  (s mod 2 ^ 32 = s' mod 2 ^ 32)%Z ->
  ((s + 0x6d2b79f5) mod 2 ^ 32 = (s' + 0x6d2b79f5) mod 2 ^ 32)%Z.
Proof.
  intros H.
  rewrite (Z.add_mod s), (Z.add_mod s'), H by lia. reflexivity.
Qed.

(** A draw reads its seed through [ToInt32] and [ToUint32] only, once
    the addition of the constant is exact. *)
Lemma mulberry32_mod (s s' : Z) :
  (Z.abs (s + 0x6d2b79f5) < 2 ^ 53)%Z ->
  (Z.abs (s' + 0x6d2b79f5) < 2 ^ 53)%Z ->
  (s mod 2 ^ 32 = s' mod 2 ^ 32)%Z ->
  fst (mulberry32 s) = fst (mulberry32 s')
  /\ snd (mulberry32 s) = (s + 0x6d2b79f5)%Z
  /\ snd (mulberry32 s') = (s' + 0x6d2b79f5)%Z.
Proof.
  intros Hs Hs' H. pose proof (seed_step_mod _ _ H) as Hstep.
  split; [| split; now apply mulberry32_state].
  unfold mulberry32. cbv zeta. cbn [fst].
  rewrite !b64_int_exact by assumption.
  unfold bxor, bor, ushr.
  rewrite (ToInt32_mod _ _ Hstep), (ToUint32_mod _ _ Hstep). reflexivity.
Qed.

Lemma mulberry32_R_mod (s s' : Z) :
  (Z.abs (s + 0x6d2b79f5) < 2 ^ 53)%Z ->
  (Z.abs (s' + 0x6d2b79f5) < 2 ^ 53)%Z ->
  (s mod 2 ^ 32 = s' mod 2 ^ 32)%Z ->
  fst (mulberry32_R s) = fst (mulberry32_R s')
  /\ snd (mulberry32_R s) = (s + 0x6d2b79f5)%Z
  /\ snd (mulberry32_R s') = (s' + 0x6d2b79f5)%Z.
Proof.
  intros Hs Hs' H. destruct (@mulberry32_mod s s' Hs Hs' H) as (Hq & Ht & Ht').
  unfold mulberry32_R.
  destruct (mulberry32 s) as [q t], (mulberry32 s') as [q' t'].
  cbn [fst snd] in *. now subst q'.
Qed.

Lemma draw_mod (n : nat) :
  forall s s' : Z,
    (0 <= s)%Z -> (0 <= s')%Z ->
    (s + Z.of_nat (S n) * 0x6d2b79f5 < 2 ^ 53)%Z ->
    (s' + Z.of_nat (S n) * 0x6d2b79f5 < 2 ^ 53)%Z ->
    (s mod 2 ^ 32 = s' mod 2 ^ 32)%Z ->
    draw mulberry32_R n s = draw mulberry32_R n s'.
Proof.
  induction n as [| n IH]; intros s s' H0 H0' Hb Hb' H.
  - unfold draw. cbn [state_after].
    apply (@mulberry32_R_mod s s'); [lia | lia | exact H].
  - rewrite !draw_S.
    destruct (@mulberry32_R_mod s s') as (_ & Ht & Ht'); [lia | lia | exact H |].
    rewrite Ht, Ht'. apply IH; try lia.
    now apply seed_step_mod.
Qed.

Lemma shuffle_loop_mod (i : nat) :
  forall (arr : list nat) (s s' : Z),
    (0 <= s)%Z -> (0 <= s')%Z ->
    (s + Z.of_nat i * 0x6d2b79f5 < 2 ^ 53)%Z ->
    (s' + Z.of_nat i * 0x6d2b79f5 < 2 ^ 53)%Z ->
    (s mod 2 ^ 32 = s' mod 2 ^ 32)%Z ->
    shuffle_loop i arr s = shuffle_loop i arr s'.
Proof.
  induction i as [| i IH]; intros arr s s' H0 H0' Hb Hb' H; [reflexivity |].
  cbn [shuffle_loop].
  destruct (@mulberry32_mod s s') as (Hq & Ht & Ht'); [lia | lia | exact H |].
  destruct (mulberry32 s) as [q t], (mulberry32 s') as [q' t'].
  cbn [fst snd] in *. subst q' t t'. apply IH; try lia.
  now apply seed_step_mod.
Qed.

(** X1. Two seeds of 0 .. 2^52 - 1 that agree modulo 2^32 give the same
    first 2^20 draws and the same shuffle of every board up to
    1000 x 1000: taking [seed >>> 0] before the call changes nothing
    there.  (The captured seed is a binary64 number; once it passes 2^53
    the additions round and the lemma [mulberry32_seed_2_53] shows the
    draws of congruent seeds part.) *)
Theorem seed_wraps (s s' : Z) :
  (0 <= s < 2 ^ 52)%Z -> (0 <= s' < 2 ^ 52)%Z ->
  (s mod 2 ^ 32 = s' mod 2 ^ 32)%Z ->
  (forall n, (n < 2 ^ 20)%nat ->
     draw mulberry32_R n s = draw mulberry32_R n s')
  /\ (forall n, (n <= 1000)%nat -> seededShuffle n s = seededShuffle n s').
Proof.
  intros Hs Hs' H. split.
  - intros n Hn.
    assert (Hn' : (Z.of_nat (S n) <= 2 ^ 20)%Z).
    { change (2 ^ 20)%Z with (Z.of_nat (2 ^ 20)). lia. }
    apply draw_mod; try lia; exact H.
  - intros n Hn. unfold seededShuffle. cbv zeta.
    rewrite identity_seq, length_seq.
    assert (Hnn : (Z.of_nat (n * n - 1) <= 1000000)%Z) by nia.
    rewrite (@shuffle_loop_mod (n * n - 1) (seq 0 (n * n)) s s');
      try lia; try exact H. reflexivity.
Qed.

Lemma seed_wraps_witness :
  (0 <= 4294967296 + 42 < 2 ^ 52)%Z /\ (0 <= 42 < 2 ^ 52)%Z
  /\ ((4294967296 + 42) mod 2 ^ 32 = 42 mod 2 ^ 32)%Z
  /\ (forall n, (n < 2 ^ 20)%nat ->
        draw mulberry32_R n (4294967296 + 42)%Z = draw mulberry32_R n 42%Z)
  /\ (forall n, (n <= 1000)%nat ->
        seededShuffle n (4294967296 + 42) = seededShuffle n 42).
Proof.
  assert (H1 : (0 <= 4294967296 + 42 < 2 ^ 52)%Z) by lia.
  assert (H2 : (0 <= 42 < 2 ^ 52)%Z) by lia.
  assert (H : ((4294967296 + 42) mod 2 ^ 32 = 42 mod 2 ^ 32)%Z)
    by reflexivity.
  split; [exact H1 | split; [exact H2 | split; [exact H |]]].
  exact (seed_wraps H1 H2 H).
Defined.

End SeedFacts.

(** ** The paired sampler and the base datasets *)

Section SamplingFacts.

Import JS Rng Sampling.
Local Open Scope R_scope.

Variable St : Type.
Variable rng : St -> R * St.
Hypothesis rng_range : forall st, 0 <= fst (rng st) < 1.


Lemma state_after_add (a b : nat) (st : St) :
  state_after rng (a + b) st = state_after rng b (state_after rng a st).
Proof.
  revert st. induction a as [| a IH]; intros st; [reflexivity |].
  cbn [Nat.add state_after]. apply IH.
Qed.


(** The store rounds to nearest: it keeps the order, and -4 and 4 are
    binary32 numbers. *)
Variable fround : R -> R.
Hypothesis fround_monotone : forall x y, x <= y -> fround x <= fround y.
Hypothesis fround_4 : fround 4 = 4.
Hypothesis fround_minus_4 : fround (-4) = -4.

(** X4. The uniform dataset of n values takes n draws and has a value
    whatever the fuel.  Every value computed lies in [-4, 4) and every
    value stored, being rounded to binary32, in [-4, 4]: the upper end can
    be reached. *)
Theorem sample1D_uniform (fuel n : nat) (st : St) :
  exists out,
    sample1D rng fround fuel n Uniform st
    = Some (out, state_after rng n st)
    /\ length out = n
    /\ Forall (fun x => -4 <= x <= 4
                        /\ exists v, -4 <= v < 4 /\ x = fround v) out.
Proof.
  cbn [sample1D]. revert st.
  induction n as [| n IH]; intros st.
  - exists []. repeat split; auto.
  - cbn [fill_uniform].
    pose proof (rng_range st) as Ha.
    destruct (rng st) as [a st1] eqn:Hr1. cbn [fst] in Ha.
    destruct (IH st1) as (out & Heq & Hlen & Hall).
    injection Heq as Heq. rewrite Heq.
    exists (fround ((a * 2 - 1) * 4) :: out).
    split; [| split].
    + do 2 f_equal. cbn [state_after]. now rewrite Hr1.
    + simpl. now rewrite Hlen.
    + constructor; [| exact Hall].
      assert (Hv : -4 <= (a * 2 - 1) * 4 < 4) by lra.
      split; [| exists ((a * 2 - 1) * 4); split; [exact Hv | reflexivity]].
      split.
      * apply Rle_trans with (fround (-4));
          [rewrite fround_minus_4; lra | apply fround_monotone; lra].
      * apply Rle_trans with (fround 4);
          [apply fround_monotone; lra | rewrite fround_4; lra].
Qed.

End SamplingFacts.

Section SamplingOnMulberry32.

Import JS Rng Sampling.
Local Open Scope R_scope.



Lemma sample1D_uniform_witness :
  (forall s, 0 <= fst (mulberry32_R s) < 1)
  /\ (forall x y, x <= y -> Fp.fixed40 x <= Fp.fixed40 y)
  /\ Fp.fixed40 4 = 4 /\ Fp.fixed40 (-4) = -4
  /\ exists out,
       sample1D mulberry32_R Fp.fixed40 0 4 Uniform 7%Z
       = Some (out, state_after mulberry32_R 4 7%Z)
       /\ length out = 4%nat
       /\ Forall (fun x => -4 <= x <= 4
                           /\ exists v, -4 <= v < 4 /\ x = Fp.fixed40 v) out.
Proof.
  assert (Hm : forall x y, x <= y -> Fp.fixed40 x <= Fp.fixed40 y)
    by exact (Fp.rnd_monotone fixed40_rounding).
  assert (H4 : Fp.fixed40 4 = 4)
    by (apply (Fp.rnd_int fixed40_rounding 4); simpl; lia).
  assert (Hm4 : Fp.fixed40 (-4) = -4)
    by (apply (Fp.rnd_int fixed40_rounding (-4)); simpl; lia).
  split; [exact mulberry32_R_range |].
  split; [exact Hm |]. split; [exact H4 |]. split; [exact Hm4 |].
  exact (@sample1D_uniform Z mulberry32_R mulberry32_R_range Fp.fixed40
           Hm H4 Hm4 0 4 7%Z).
Defined.

(** The upper end is reached on the binary64 numbers: the first draw
    after the seed 52078625 is 4294967275 / 2^32, the value computed is
    3.9999999608844519, and the value stored is 2^23 * 2^-21 = 4. *)
Example uniform_value_stored_as_4 :
  fst (mulberry32 52078625) = Qmake 4294967275 4294967296
  /\ B64.uniform_value 4294967275 = 0x1.ffffffac00000p+1%float
  /\ PrimFloat.ltb (B64.uniform_value 4294967275) 4 = true
  /\ B64.Float32_store (B64.uniform_value 4294967275)
     = S754_finite false 8388608 (-21).
Proof. vm_compute. repeat split. Qed.

End SamplingOnMulberry32.

(** ** More on the schedules *)

Section ScheduleExtras.

Import JS Schedule Props.
Local Open Scope R_scope.

(** X5. The builder [makeAlphaBar] of the 2-D, the reverse and the first
    image composition returns, at every length, what [makeAlphaBarLinear]
    returns; with the length [Math.max(2, steps)] it is the schedule the
    image composition selects under the name linear. *)
Theorem makeAlphaBar_is_linear (T : nat) (steps : Z) :
  Forward.makeAlphaBar T = makeAlphaBarLinear T
  /\ Forward.makeAlphaBar (clamp_steps steps) = alphaBar "linear" steps.
Proof.
  assert (H : forall n, Forward.makeAlphaBar n = makeAlphaBarLinear n).
  { intros n. unfold Forward.makeAlphaBar. cbv zeta.
    apply products_accumulate. }
  split; [apply H | rewrite H; reflexivity].
Qed.

Lemma cosine_f_strict (T : nat) (t t' : R) :
  (0 < T)%nat -> 0 <= t -> t < t' -> t' < INR T ->
  cosine_f T t' < cosine_f T t.
Proof.
  intros HT H0 Hlt Hup. rewrite !cosine_f_unfold.
  assert (Ht : 0 <= t < INR T) by lra.
  assert (Ht' : 0 <= t' < INR T) by lra.
  pose proof (angle_range HT Ht) as [Ha0 Ha1].
  pose proof (angle_range HT Ht') as [Hb0 Hb1].
  pose proof (cos_angle_pos HT Ht) as Hc.
  pose proof (cos_angle_pos HT Ht') as Hc'.
  pose proof PI_RGT_0 as Hpi.
  pose proof (lt_0_INR T HT) as HTR.
  assert (Hangle : (t / INR T + 0.008) / (1 + 0.008) * (PI / 2)
                   < (t' / INR T + 0.008) / (1 + 0.008) * (PI / 2)).
  { apply Rmult_lt_compat_r; [lra |].
    apply Rmult_lt_compat_r; [apply Rinv_0_lt_compat; lra |].
    apply Rplus_lt_compat_r.
    apply Rmult_lt_compat_r; [now apply Rinv_0_lt_compat | exact Hlt]. }
  assert (Hcos : cos ((t' / INR T + 0.008) / (1 + 0.008) * (PI / 2))
                 < cos ((t / INR T + 0.008) / (1 + 0.008) * (PI / 2)))
    by (apply cos_decreasing_1; lra).
  simpl. nra.
Qed.

(** X6. For every T >= 1 the cosine schedule starts at exactly 1 and
    falls strictly from each value to the next. *)
Theorem makeAlphaBarCosine_strict (T : nat) :
  (1 <= T)%nat ->
  nth_error (makeAlphaBarCosine T) 0 = Some 1
  /\ strictly_decreasing (makeAlphaBarCosine T).
Proof.
  intros HT. assert (HT0 : (0 < T)%nat) by lia.
  pose proof (cosine_start_pos HT0) as Hf0.
  split.
  - rewrite makeAlphaBarCosine_nth by lia.
    change (INR 0) with 0. f_equal. unfold Rdiv. apply Rinv_r. lra.
  - intros t x y Hx Hy.
    unfold makeAlphaBarCosine in Hx, Hy.
    apply Array_from_nth_inv in Hx as [_ ->].
    apply Array_from_nth_inv in Hy as [Hlt ->].
    apply Rmult_lt_compat_r; [now apply Rinv_0_lt_compat |].
    apply cosine_f_strict; [exact HT0 | apply pos_INR | | now apply lt_INR].
    change (INR t < INR (S t)). apply lt_INR. lia.
Qed.

Lemma makeAlphaBarCosine_strict_witness :
  (1 <= 4)%nat
  /\ nth_error (makeAlphaBarCosine 4) 0 = Some 1
  /\ strictly_decreasing (makeAlphaBarCosine 4).
Proof.
  assert (H : (1 <= 4)%nat) by lia.
  split; [exact H | exact (makeAlphaBarCosine_strict H)].
Defined.

End ScheduleExtras.

(** ** More on the interpolated read and the scales *)


(** ** The interpolated read at every position *)

Section InterpolationExtras.

Import JS Fp Forward Props.
Local Open Scope R_scope.

Variable rnd : R -> R.
Variables u eta : R.
Hypothesis Hr : rounding rnd u eta.

Lemma between_neighbours (lo hi f : R) :
  0 <= f <= 1 -> Rmin lo hi <= lo + (hi - lo) * f <= Rmax lo hi.
Proof.
  intros Hf. destruct (Rle_lt_dec lo hi) as [Hle | Hgt].
  - rewrite Rmin_left, Rmax_right by lra. split; nra.
  - rewrite Rmin_right, Rmax_left by lra. split; nra.
Qed.

(** Before the first position the cell is 0 and the fraction 0. *)
Lemma interp_before (n : Z) (tPos : R) :
  tPos <= 0 ->
  Z.max 0 (Z.min (n - 2) (Int_part tPos)) = 0%Z
  /\ interp_frac tPos (IZR 0) = 0.
Proof.
  intros Hneg. split.
  - assert (Int_part tPos <= 0)%Z.
    { destruct (base_Int_part tPos) as [Hup _]. apply le_IZR. lra. }
    lia.
  - unfold interp_frac. rewrite Rmin_right, Rmax_left by lra. reflexivity.
Qed.

(** A number of steps that is not whole sends the late positions to a
    place that is no cell. *)
Lemma alpha_bar_at_fraction (alphaBar : list R) (steps tPos : R) :
  (forall n : Z, steps <> IZR n) -> 2 < steps ->
  steps - 2 <= IZR (Int_part tPos) ->
  alpha_bar_at rnd alphaBar steps tPos = None.
Proof.
  intros Hfrac Hsteps Hlate. unfold alpha_bar_at, interp_index.
  rewrite Rmin_left, Rmax_right by lra.
  rewrite get_fraction; [reflexivity |].
  intros z Hz. apply (Hfrac (z + 2)%Z). rewrite plus_IZR. lra.
Qed.

(** X7. Let the schedule have the length the builders give it for
    [Math.max(2, steps)] and hold numbers of the format in [0, 1].
    For a whole number of steps the interpolated read has a value at
    every real position: it is within 4 (u + eta) of a point between two
    cells of the schedule, and at a position <= 0 it is the first cell.
    For a number of steps above 2 that is not whole the read has no value
    (the code computes NaN) at every position whose floor reaches
    steps - 2. *)
Theorem alpha_bar_at_total (alphaBar : list R) (steps tPos : R) :
  length alphaBar = array_length (Rmax 2 steps) ->
  Forall (fun a => rnd a = a /\ 0 <= a <= 1) alphaBar ->
  ((exists n : Z, steps = IZR n) ->
     exists v lo hi f,
       alpha_bar_at rnd alphaBar steps tPos = Some v
       /\ In lo alphaBar /\ In hi alphaBar /\ 0 <= f <= 1
       /\ Rabs (v - (lo + (hi - lo) * f)) <= 4 * (u + eta)
       /\ Rmin lo hi - 4 * (u + eta) <= v <= Rmax lo hi + 4 * (u + eta)
       /\ (tPos <= 0 -> nth_error alphaBar 0 = Some v))
  /\ ((forall n : Z, steps <> IZR n) -> 2 < steps ->
      steps - 2 <= IZR (Int_part tPos) ->
      alpha_bar_at rnd alphaBar steps tPos = None).
Proof.
  intros Hlen Hcells. split; [| now apply alpha_bar_at_fraction].
  intros [n ->]. rewrite Forall_forall in Hcells.
  destruct (interp_neighbours rnd alphaBar n tPos Hlen)
    as (lo & hi & Hlo & Hhi & Hv).
  set (k := Z.max 0 (Z.min (n - 2) (Int_part tPos))) in *.
  pose proof (interp_frac_range tPos (IZR k)) as Hf.
  pose proof (between_neighbours lo hi Hf) as Hbetween.
  pose proof (@lerp_error rnd u eta Hr lo hi (interp_frac tPos (IZR k))
                (proj2 (Hcells lo (nth_error_In _ _ Hlo)))
                (proj2 (Hcells hi (nth_error_In _ _ Hhi))) Hf) as Herr.
  exists (lerp rnd lo hi (interp_frac tPos (IZR k))), lo, hi,
         (interp_frac tPos (IZR k)).
  split; [exact Hv |].
  split; [exact (nth_error_In _ _ Hlo) |].
  split; [exact (nth_error_In _ _ Hhi) |].
  split; [exact Hf |].
  split; [apply Rabs_le; lra |].
  split; [lra |].
  intros Hneg. destruct (interp_before n Hneg) as [Hk Hfr].
  fold k in Hk. rewrite Hk in Hlo. rewrite Hk, Hfr.
  change (Z.to_nat 0) with 0%nat in Hlo. rewrite Hlo. f_equal.
  symmetry. apply (lerp_0 Hr). apply (Hcells lo (nth_error_In _ _ Hlo)).
Qed.

(** *** The read follows the schedule down *)

Lemma non_increasing_le (l : list R) :
  non_increasing l ->
  forall d i x y, nth_error l i = Some x -> nth_error l (i + d) = Some y ->
                  y <= x.
Proof.
  intros Hl. induction d as [| d IH]; intros i x y Hx Hy.
  - rewrite Nat.add_0_r in Hy. assert (x = y) by congruence. lra.
  - replace (i + S d)%nat with (S (i + d)) in Hy by lia.
    destruct (nth_error l (i + d)) as [z |] eqn:Hz.
    + apply Rle_trans with z; [exact (Hl _ _ _ Hz Hy) | exact (IH i x z Hx Hz)].
    + apply nth_error_None in Hz.
      assert (nth_error l (S (i + d)) <> None) by congruence.
      apply nth_error_Some in H. lia.
Qed.

(** Inside one cell of a falling schedule the rounded expression falls
    with the fraction. *)
Lemma lerp_monotone (lo hi f f' : R) :
  hi <= lo -> 0 <= f <= f' ->
  lerp rnd lo hi f' <= lerp rnd lo hi f.
Proof.
  intros Hstep Hf. unfold lerp.
  assert (Hd : rnd (hi - lo) <= 0) by (apply (rnd_nonpos Hr); lra).
  apply (rnd_monotone Hr), Rplus_le_compat_l, (rnd_monotone Hr). nra.
Qed.

(** X8. On a non-increasing schedule of numbers of the format in [0, 1],
    for a whole number of steps, a later position never reads a value
    that is larger by more than 8 (u + eta), and never a larger value as
    long as both positions lie in the same cell.  In exact arithmetic
    (u = eta = 0) the read is non-increasing in the position. *)
Theorem alpha_bar_at_monotone (alphaBar : list R) (n : Z) (t t' : R) :
  length alphaBar = array_length (Rmax 2 (IZR n)) ->
  Forall (fun a => rnd a = a /\ 0 <= a <= 1) alphaBar ->
  non_increasing alphaBar ->
  t <= t' ->
  exists v v',
    alpha_bar_at rnd alphaBar (IZR n) t = Some v
    /\ alpha_bar_at rnd alphaBar (IZR n) t' = Some v'
    /\ v' <= v + 8 * (u + eta)
    /\ (interp_index (IZR n) t = interp_index (IZR n) t' -> v' <= v).
Proof.
  intros Hlen Hcells Hmono Hle. rewrite Forall_forall in Hcells.
  destruct (interp_neighbours rnd alphaBar n t Hlen)
    as (lo & hi & Hlo & Hhi & Hv).
  destruct (interp_neighbours rnd alphaBar n t' Hlen)
    as (lo' & hi' & Hlo' & Hhi' & Hv').
  set (k := Z.max 0 (Z.min (n - 2) (Int_part t))) in *.
  set (k' := Z.max 0 (Z.min (n - 2) (Int_part t'))) in *.
  set (f := interp_frac t (IZR k)) in *.
  set (f' := interp_frac t' (IZR k')) in *.
  exists (lerp rnd lo hi f), (lerp rnd lo' hi' f').
  split; [exact Hv |]. split; [exact Hv' |].
  pose proof (interp_frac_range t (IZR k)) as Hf. fold f in Hf.
  pose proof (interp_frac_range t' (IZR k')) as Hf'. fold f' in Hf'.
  assert (Hk : (0 <= k)%Z) by (unfold k; lia).
  assert (Hkk : (k <= k')%Z).
  { pose proof (Int_part_monotone Hle). unfold k, k'. lia. }
  assert (Hstep : hi <= lo).
  { apply (non_increasing_le Hmono 1 (Z.to_nat k)); [exact Hlo |].
    replace (Z.to_nat k + 1)%nat with (Z.to_nat (k + 1)) by lia.
    exact Hhi. }
  assert (Hstep' : hi' <= lo').
  { apply (non_increasing_le Hmono 1 (Z.to_nat k')); [exact Hlo' |].
    replace (Z.to_nat k' + 1)%nat with (Z.to_nat (k' + 1)) by lia.
    exact Hhi'. }
  assert (Hsame : k = k' -> f <= f').
  { intros Heq. unfold f, f', interp_frac. rewrite <- Heq.
    apply Rle_max_compat_l, Rle_min_compat_l. lra. }
  pose proof (@lerp_error rnd u eta Hr lo hi f
                (proj2 (Hcells lo (nth_error_In _ _ Hlo)))
                (proj2 (Hcells hi (nth_error_In _ _ Hhi))) Hf) as Herr.
  pose proof (@lerp_error rnd u eta Hr lo' hi' f'
                (proj2 (Hcells lo' (nth_error_In _ _ Hlo')))
                (proj2 (Hcells hi' (nth_error_In _ _ Hhi'))) Hf') as Herr'.
  split.
  - assert (Hexact : lo' + (hi' - lo') * f' <= lo + (hi - lo) * f).
    { destruct (Z.eq_dec k k') as [Heq | Hne].
      - pose proof (Hsame Heq) as Hff. rewrite <- Heq in Hlo', Hhi'.
        assert (lo' = lo) by congruence. assert (hi' = hi) by congruence.
        subst lo' hi'. nra.
      - assert (Hmid : lo' <= hi).
        { apply (non_increasing_le Hmono (Z.to_nat (k' - (k + 1)))
                   (Z.to_nat (k + 1))); [exact Hhi |].
          replace (Z.to_nat (k + 1) + Z.to_nat (k' - (k + 1)))%nat
            with (Z.to_nat k') by lia.
          exact Hlo'. }
        nra. }
    lra.
  - intros Heq. rewrite !interp_index_integer in Heq. apply eq_IZR in Heq.
    fold k k' in Heq. pose proof (Hsame Heq) as Hff.
    rewrite <- Heq in Hlo', Hhi'.
    assert (lo' = lo) by congruence. assert (hi' = hi) by congruence.
    subst lo' hi'. apply lerp_monotone; [exact Hstep | lra].
Qed.

(** *** The reverse composition *)

(** X11. For a whole number of steps >= 2 the reverse composition reads
    the schedule backwards: at the forward position j in 1 .. steps - 1 its
    value is the cell steps - 1 - j, exactly; at the forward position 0 it
    is the expression of the last cell with the fraction 1, within
    4 (u + eta) of the last cell.  With a whole number of steps <= 1 it is
    the first cell at every forward position >= 0: the reverse animation
    does not move.  With a number of steps above 2 that is not whole the
    first frame has no value (the code computes NaN). *)
Theorem reverse_reads_backwards (alphaBar : list R) (n : Z) :
  length alphaBar = array_length (Rmax 2 (IZR n)) ->
  Forall (fun a => rnd a = a /\ 0 <= a <= 1) alphaBar ->
  (forall j : Z, (2 <= n)%Z -> (1 <= j <= n - 1)%Z ->
     alpha_bar_at rnd alphaBar (IZR n) (Timeline.tPosRev (IZR n) (IZR j))
     = nth_error alphaBar (Z.to_nat (n - 1 - j)))
  /\ ((2 <= n)%Z ->
      exists v last,
        nth_error alphaBar (Z.to_nat (n - 1)) = Some last
        /\ alpha_bar_at rnd alphaBar (IZR n) (Timeline.tPosRev (IZR n) 0)
           = Some v
        /\ Rabs (v - last) <= 4 * (u + eta))
  /\ (forall tPosFwd : R, (n <= 1)%Z -> 0 <= tPosFwd ->
        alpha_bar_at rnd alphaBar (IZR n) (Timeline.tPosRev (IZR n) tPosFwd)
        = nth_error alphaBar 0)
  /\ (forall (l : list R) (steps : R),
        (forall z : Z, steps <> IZR z) -> 2 < steps ->
        alpha_bar_at rnd l steps (Timeline.tPosRev steps 0) = None).
Proof.
  intros Hlen Hcells.
  split; [| split; [| split]].
  - intros j Hn Hj. unfold Timeline.tPosRev.
    replace (IZR n - 1 - IZR j) with (IZR (n - 1 - j))
      by (rewrite !minus_IZR; lra).
    destruct (@alpha_bar_at_cell rnd u eta Hr alphaBar n (n - 1 - j)%Z
                Hlen Hcells ltac:(lia)) as (a & Ha & Hv).
    now rewrite Hv, Ha.
  - intros Hn.
    destruct (@alpha_bar_at_last rnd u eta Hr alphaBar n Hlen Hcells)
      as (lo & hi & Hlo & Hhi & Hv & Herr).
    replace (Z.max 2 n - 1)%Z with (n - 1)%Z in Hhi, Hv by lia.
    exists (rnd (lo + rnd (hi - lo))), hi.
    split; [exact Hhi |]. split; [| exact Herr].
    unfold Timeline.tPosRev.
    replace (IZR n - 1 - 0) with (IZR (n - 1)) by (rewrite minus_IZR; lra).
    exact Hv.
  - intros tPosFwd Hn Hpos.
    assert (Hneg : Timeline.tPosRev (IZR n) tPosFwd <= 0).
    { unfold Timeline.tPosRev. assert (IZR n <= 1) by (apply IZR_le; lia).
      lra. }
    destruct (interp_neighbours rnd alphaBar n
                (Timeline.tPosRev (IZR n) tPosFwd) Hlen)
      as (lo & hi & Hlo & Hhi & Hv).
    destruct (interp_before n Hneg) as [Hk Hfr].
    rewrite Hk in Hlo, Hv. rewrite Hfr in Hv.
    change (Z.to_nat 0) with 0%nat in Hlo. rewrite Hv, Hlo. f_equal.
    apply (lerp_0 Hr). rewrite Forall_forall in Hcells.
    apply (Hcells lo (nth_error_In _ _ Hlo)).
  - intros l steps Hfrac Hsteps. apply alpha_bar_at_fraction; try assumption.
    unfold Timeline.tPosRev.
    destruct (base_Int_part (steps - 1 - 0)) as [_ Hlow]. lra.
Qed.

End InterpolationExtras.

Section InterpolationExtrasWitness.

Import JS Fp Forward Props.
Local Open Scope R_scope.

Lemma schedule_3_falls : non_increasing [1; 0.5; 0.25].
Proof.
  intros [| [| [| t]]] x y Hx Hy; simpl in Hx, Hy;
    try discriminate; injection Hx as <-; injection Hy as <-; lra.
Qed.

Lemma alpha_bar_at_total_witness :
  rounding fixed40 0 (/ 2199023255552)
  /\ length [1; 0.5; 0.25] = array_length (Rmax 2 (IZR 3))
  /\ Forall (fun a => fixed40 a = a /\ 0 <= a <= 1) [1; 0.5; 0.25]
  /\ ((exists n : Z, IZR 3 = IZR n) ->
        exists v lo hi f,
          alpha_bar_at fixed40 [1; 0.5; 0.25] (IZR 3) 1.25 = Some v
          /\ In lo [1; 0.5; 0.25] /\ In hi [1; 0.5; 0.25] /\ 0 <= f <= 1
          /\ Rabs (v - (lo + (hi - lo) * f)) <= 4 * (0 + / 2199023255552)
          /\ Rmin lo hi - 4 * (0 + / 2199023255552) <= v
             <= Rmax lo hi + 4 * (0 + / 2199023255552)
          /\ (1.25 <= 0 -> nth_error [1; 0.5; 0.25] 0 = Some v))
  /\ ((forall n : Z, IZR 3 <> IZR n) -> 2 < IZR 3 ->
      IZR 3 - 2 <= IZR (Int_part 1.25) ->
      alpha_bar_at fixed40 [1; 0.5; 0.25] (IZR 3) 1.25 = None).
Proof.
  split; [exact fixed40_rounding |].
  split; [exact schedule_3_length |].
  split; [exact schedule_3_cells |].
  exact (alpha_bar_at_total fixed40_rounding (IZR 3) 1.25
           schedule_3_length schedule_3_cells).
Defined.

Lemma alpha_bar_at_monotone_witness :
  rounding fixed40 0 (/ 2199023255552)
  /\ length [1; 0.5; 0.25] = array_length (Rmax 2 (IZR 3))
  /\ Forall (fun a => fixed40 a = a /\ 0 <= a <= 1) [1; 0.5; 0.25]
  /\ non_increasing [1; 0.5; 0.25]
  /\ 0.5 <= 1.75
  /\ exists v v',
       alpha_bar_at fixed40 [1; 0.5; 0.25] (IZR 3) 0.5 = Some v
       /\ alpha_bar_at fixed40 [1; 0.5; 0.25] (IZR 3) 1.75 = Some v'
       /\ v' <= v + 8 * (0 + / 2199023255552)
       /\ (interp_index (IZR 3) 0.5 = interp_index (IZR 3) 1.75 -> v' <= v).
Proof.
  assert (Hle : 0.5 <= 1.75) by lra.
  split; [exact fixed40_rounding |].
  split; [exact schedule_3_length |].
  split; [exact schedule_3_cells |].
  split; [exact schedule_3_falls |].
  split; [exact Hle |].
  exact (@alpha_bar_at_monotone fixed40 0 (/ 2199023255552) fixed40_rounding
           [1; 0.5; 0.25] 3 0.5 1.75
           schedule_3_length schedule_3_cells schedule_3_falls Hle).
Defined.

Lemma reverse_reads_backwards_witness :
  rounding fixed40 0 (/ 2199023255552)
  /\ length [1; 0.5; 0.25] = array_length (Rmax 2 (IZR 3))
  /\ Forall (fun a => fixed40 a = a /\ 0 <= a <= 1) [1; 0.5; 0.25]
  /\ (forall j : Z, (2 <= 3)%Z -> (1 <= j <= 3 - 1)%Z ->
        alpha_bar_at fixed40 [1; 0.5; 0.25] (IZR 3)
          (Timeline.tPosRev (IZR 3) (IZR j))
        = nth_error [1; 0.5; 0.25] (Z.to_nat (3 - 1 - j)))
  /\ ((2 <= 3)%Z ->
      exists v last,
        nth_error [1; 0.5; 0.25] (Z.to_nat (3 - 1)) = Some last
        /\ alpha_bar_at fixed40 [1; 0.5; 0.25] (IZR 3)
             (Timeline.tPosRev (IZR 3) 0) = Some v
        /\ Rabs (v - last) <= 4 * (0 + / 2199023255552))
  /\ (forall tPosFwd : R, (3 <= 1)%Z -> 0 <= tPosFwd ->
        alpha_bar_at fixed40 [1; 0.5; 0.25] (IZR 3)
          (Timeline.tPosRev (IZR 3) tPosFwd)
        = nth_error [1; 0.5; 0.25] 0)
  /\ (forall (l : list R) (steps : R),
        (forall z : Z, steps <> IZR z) -> 2 < steps ->
        alpha_bar_at fixed40 l steps (Timeline.tPosRev steps 0) = None).
Proof.
  split; [exact fixed40_rounding |].
  split; [exact schedule_3_length |].
  split; [exact schedule_3_cells |].
  exact (reverse_reads_backwards fixed40_rounding 3
           schedule_3_length schedule_3_cells).
Defined.

(** What a number of steps that is not whole does on the binary64
    numbers: with steps = 45.5 the schedule has 45 cells, the read at the
    position 44 is NaN and the read at 43.9 is a number. *)
Example alpha_bar_at_steps_45_5 :
  length (B64.makeAlphaBarLinear (B64.Math_max 2 45.5)) = 45%nat
  /\ PrimFloat.is_nan
       (B64.alpha_bar_at (B64.makeAlphaBarLinear (B64.Math_max 2 45.5))
                         45.5 44) = true
  /\ PrimFloat.is_nan
       (B64.alpha_bar_at (B64.makeAlphaBarLinear (B64.Math_max 2 45.5))
                         45.5 43.9) = false.
Proof. vm_compute. repeat split. Qed.

End InterpolationExtrasWitness.

(** ** The two scales *)

Section ScaleFacts.

Import JS Fp Props.
Local Open Scope R_scope.

Variable rnd : R -> R.
Variables u eta : R.
Hypothesis Hr : rounding rnd u eta.

(** In exact arithmetic the rounded scales are the scales of the forward
    sample. *)
Lemma rounded_scales_exact (ab : R) :
  Rounded.signal_scale exact ab = Forward.signal_scale ab
  /\ Rounded.noise_scale exact ab = Forward.noise_scale ab.
Proof.
  unfold Rounded.signal_scale, Rounded.noise_scale, Forward.signal_scale,
    Forward.noise_scale, exact.
  split.
  - destruct (Math_sqrt (Rmax 1e-8 ab)); reflexivity.
  - destruct (Math_sqrt (Rmax 0 (1 - ab))); reflexivity.
Qed.

(** The square of a rounded root of a number of [0, 1]. *)
Lemma rounded_root_square (m : R) :
  0 <= m <= 1 ->
  0 <= rnd (sqrt m) <= 1
  /\ - (2 * (u + eta)) <= rnd (sqrt m) ^ 2 - m <= 2 * (u + eta).
Proof.
  intros Hm.
  destruct (rnd_u Hr) as [Hu0 Hu1]. destruct (rnd_eta Hr) as [He0 He1].
  assert (Hx0 : 0 <= sqrt m) by apply sqrt_pos.
  assert (Hx1 : sqrt m <= 1).
  { rewrite <- sqrt_1. apply sqrt_le_1_alt. lra. }
  assert (Hxx : sqrt m * sqrt m = m) by (apply sqrt_sqrt; lra).
  pose proof (@rnd_within rnd u eta Hr (sqrt m) 1
                ltac:(apply Rabs_le; lra) ltac:(lra)) as Hw.
  pose proof (@rnd_nonneg rnd u eta Hr (sqrt m) Hx0) as Hs0.
  pose proof (@rnd_le_1 rnd u eta Hr (sqrt m) Hx1) as Hs1.
  set (x := sqrt m) in *. set (s := rnd x) in *.
  split; [lra |].
  replace (s ^ 2 - m) with ((s - x) * (s + x)) by (rewrite <- Hxx; ring).
  assert (H2 : 0 <= s + x <= 2) by lra.
  split; nra.
Qed.

(** X9. In every arithmetic with the properties of [Fp.rounding], for ab
    in [0, 1] both scales have a value in [0, 1], and s1^2 + s2^2 is
    within 6 (u + eta) of max(1e-8, ab) + (1 - ab), which is 1 as soon as
    ab >= 1e-8; then s1 is at least 1e-4 - (u + eta).  In exact
    arithmetic, u = eta = 0, the sum is exactly that number; in binary64
    it is within 7e-16 of it, and need not be 1. *)
Theorem scales_energy (ab : R) :
  0 <= ab <= 1 ->
  exists s1 s2,
    Rounded.signal_scale rnd ab = Some s1
    /\ Rounded.noise_scale rnd ab = Some s2
    /\ 0 <= s1 <= 1 /\ 0 <= s2 <= 1
    /\ Rabs (s1 ^ 2 + s2 ^ 2 - (Rmax 1e-8 ab + (1 - ab))) <= 6 * (u + eta)
    /\ (1e-8 <= ab ->
        1e-4 - (u + eta) <= s1
        /\ Rabs (s1 ^ 2 + s2 ^ 2 - 1) <= 6 * (u + eta)).
Proof.
  intros Hab.
  destruct (rnd_u Hr) as [Hu0 Hu1]. destruct (rnd_eta Hr) as [He0 He1].
  set (c := rnd 1e-8).
  assert (Hc : 0 <= c <= 1).
  { split; [apply (@rnd_nonneg rnd u eta Hr) | apply (@rnd_le_1 rnd u eta Hr)];
      lra. }
  pose proof (@rnd_within rnd u eta Hr 1e-8 1
                ltac:(apply Rabs_le; lra) ltac:(lra)) as Hcw.
  fold c in Hcw.
  set (m1 := Rmax c ab).
  assert (Hm1 : 0 <= m1 <= 1).
  { unfold m1. split; [apply Rle_trans with c; [lra | apply Rmax_l] |].
    apply Rmax_lub; lra. }
  assert (Hm1' : - (u + eta) <= m1 - Rmax 1e-8 ab <= u + eta).
  { unfold m1, Rmax.
    destruct (Rle_dec c ab), (Rle_dec 1e-8 ab); lra. }
  set (d := rnd (1 - ab)).
  assert (Hd : 0 <= d <= 1).
  { split; [apply (@rnd_nonneg rnd u eta Hr) | apply (@rnd_le_1 rnd u eta Hr)];
      lra. }
  pose proof (@rnd_within rnd u eta Hr (1 - ab) 1
                ltac:(apply Rabs_le; lra) ltac:(lra)) as Hdw.
  fold d in Hdw.
  destruct (rounded_root_square Hm1) as [Hs1 He1'].
  destruct (rounded_root_square Hd) as [Hs2 He2'].
  exists (rnd (sqrt m1)), (rnd (sqrt d)).
  split.
  { unfold Rounded.signal_scale. fold c. fold m1.
    rewrite Math_sqrt_nonneg by lra. reflexivity. }
  split.
  { unfold Rounded.noise_scale. fold d.
    rewrite (Rmax_right 0 d) by lra.
    rewrite Math_sqrt_nonneg by lra. reflexivity. }
  split; [exact Hs1 |]. split; [exact Hs2 |].
  assert (Hsum : - (6 * (u + eta))
                 <= rnd (sqrt m1) ^ 2 + rnd (sqrt d) ^ 2
                    - (Rmax 1e-8 ab + (1 - ab))
                 <= 6 * (u + eta)) by lra.
  split; [apply Rabs_le; exact Hsum |].
  intros Hge. split.
  - assert (Hroot : 1e-4 <= sqrt m1).
    { rewrite <- sqrt_1e8. apply sqrt_le_1_alt.
      apply Rle_trans with ab; [lra | apply Rmax_r]. }
    assert (Hroot1 : sqrt m1 <= 1).
    { rewrite <- sqrt_1. apply sqrt_le_1_alt. lra. }
    pose proof (@rnd_within rnd u eta Hr (sqrt m1) 1
                  ltac:(apply Rabs_le; lra) ltac:(lra)) as Hw.
    lra.
  - rewrite (Rmax_right 1e-8 ab) in Hsum by lra.
    apply Rabs_le. lra.
Qed.

End ScaleFacts.

Section ScaleFactsWitness.

Import JS Fp.
Local Open Scope R_scope.

Lemma scales_energy_witness :
  0 <= 0.25 <= 1
  /\ exists s1 s2,
       Rounded.signal_scale fixed40 0.25 = Some s1
       /\ Rounded.noise_scale fixed40 0.25 = Some s2
       /\ 0 <= s1 <= 1 /\ 0 <= s2 <= 1
       /\ Rabs (s1 ^ 2 + s2 ^ 2 - (Rmax 1e-8 0.25 + (1 - 0.25)))
          <= 6 * (0 + / 2199023255552)
       /\ (1e-8 <= 0.25 ->
           1e-4 - (0 + / 2199023255552) <= s1
           /\ Rabs (s1 ^ 2 + s2 ^ 2 - 1) <= 6 * (0 + / 2199023255552)).
Proof.
  assert (H : 0 <= 0.25 <= 1) by lra.
  split; [exact H | exact (scales_energy fixed40_rounding H)].
Defined.

(** In binary64 the sum of the squares is below 1 at the second value of
    the linear schedule of 120 steps. *)
Example scales_energy_binary64 :
  (let ab := 0.9981203460504202 in
   B64.signal_scale ab * B64.signal_scale ab
   + B64.noise_scale ab * B64.noise_scale ab <? 1)%float = true.
Proof. vm_compute. reflexivity. Qed.

End ScaleFactsWitness.

(** ** Timelines *)

Section TimelineFacts.

Import JS Fp Timeline.
Local Open Scope R_scope.

Variable rnd : R -> R.
Variables u eta : R.
Hypothesis Hr : rounding rnd u eta.

(** For whole numbers of steps and of frames per step that multiply
    exactly, the number of active frames is whole. *)
Lemma activeFrames_whole (n m : Z) :
  (Z.abs (n * m) <= 2 ^ 53)%Z ->
  activeFrames rnd (IZR n) (IZR m) = IZR (Z.max 1 (n * m)).
Proof.
  intros Hb. unfold activeFrames.
  rewrite <- mult_IZR, (rnd_int Hr _ Hb). apply Rmax_IZR.
Qed.

Lemma progress_whole (frame A : Z) :
  (1 < A <= 2 ^ 53)%Z ->
  progress rnd frame (IZR A)
  = rnd (IZR (Z.min frame (A - 1)) / IZR (A - 1)).
Proof.
  intros HA. unfold progress.
  destruct (Rlt_dec 1 (IZR A)) as [_ | Hn].
  - rewrite <- minus_IZR, (rnd_int Hr (A - 1)) by lia.
    now rewrite Rmin_IZR.
  - exfalso. apply Hn. apply IZR_lt. lia.
Qed.

Lemma progress_still (frame A : Z) :
  (A <= 1)%Z -> progress rnd frame (IZR A) = 0.
Proof.
  intros HA. unfold progress.
  destruct (Rlt_dec 1 (IZR A)) as [Hlt | _]; [| reflexivity].
  apply lt_IZR in Hlt. lia.
Qed.

(** The exact quotient behind the progress of a frame. *)
Lemma quotient_range (frame A : Z) :
  (0 <= frame)%Z -> (1 < A)%Z ->
  0 <= IZR (Z.min frame (A - 1)) / IZR (A - 1) <= 1.
Proof.
  intros Hf HA.
  assert (Hd : 0 < IZR (A - 1)) by (apply IZR_lt; lia).
  assert (Hn0 : 0 <= IZR (Z.min frame (A - 1))) by (apply IZR_le; lia).
  assert (Hn1 : IZR (Z.min frame (A - 1)) <= IZR (A - 1))
    by (apply IZR_le; lia).
  split.
  - apply Rmult_le_pos; [exact Hn0 | left; now apply Rinv_0_lt_compat].
  - apply Rmult_le_reg_r with (IZR (A - 1)); [exact Hd |].
    unfold Rdiv. rewrite Rmult_assoc, Rinv_l by lra. lra.
Qed.

Lemma progress_range (frame A : Z) :
  (0 <= frame)%Z -> (A <= 2 ^ 53)%Z ->
  0 <= progress rnd frame (IZR A) <= 1.
Proof.
  intros Hf HA. destruct (Z_lt_le_dec 1 A) as [H1 | H1].
  - rewrite progress_whole by lia.
    pose proof (quotient_range Hf H1) as Hq.
    split; [apply (@rnd_nonneg rnd u eta Hr) | apply (@rnd_le_1 rnd u eta Hr)];
      lra.
  - rewrite progress_still by lia. lra.
Qed.

Lemma local_position_range (p : R) :
  0 <= p <= 1 -> 0 <= local_position rnd p <= 1.
Proof.
  intros Hp. unfold local_position. destruct (Rle_dec p 0.5) as [Hle | Hgt].
  - split; [apply (@rnd_nonneg rnd u eta Hr) | apply (@rnd_le_1 rnd u eta Hr)];
      lra.
  - assert (H0 : 0 <= rnd (1 - p))
      by (apply (@rnd_nonneg rnd u eta Hr); lra).
    assert (H1 : rnd (1 - p) <= 0.5)
      by (apply (@rnd_le_fixed rnd u eta Hr); [apply (rnd_half Hr) | lra]).
    split; [apply (@rnd_nonneg rnd u eta Hr) | apply (@rnd_le_1 rnd u eta Hr)];
      lra.
Qed.

(** The local position computed is within three roundings of the exact
    one. *)
Lemma local_position_error (p : R) :
  0 <= p <= 1 ->
  - (3 * (u + eta)) <= local_position rnd p - local_position exact p
  <= 3 * (u + eta).
Proof.
  intros Hp.
  destruct (rnd_u Hr) as [Hu0 Hu1]. destruct (rnd_eta Hr) as [He0 He1].
  unfold local_position, exact. destruct (Rle_dec p 0.5) as [Hle | Hgt].
  - pose proof (@rnd_within rnd u eta Hr (p * 2) 1
                  ltac:(apply Rabs_le; lra) ltac:(lra)). lra.
  - pose proof (@rnd_within rnd u eta Hr (1 - p) 0.5
                  ltac:(apply Rabs_le; lra) ltac:(lra)) as H1.
    assert (H0 : 0 <= rnd (1 - p))
      by (apply (@rnd_nonneg rnd u eta Hr); lra).
    assert (H2 : rnd (1 - p) <= 0.5)
      by (apply (@rnd_le_fixed rnd u eta Hr); [apply (rnd_half Hr) | lra]).
    pose proof (@rnd_within rnd u eta Hr (rnd (1 - p) * 2) 1
                  ltac:(apply Rabs_le; lra) ltac:(lra)) as H3.
    lra.
Qed.

(** The exact local position moves at most twice as fast as the
    progress, and is the same at p and at 1 - p. *)
Lemma local_position_lipschitz (p q d : R) :
  - d <= p - q <= d ->
  - (2 * d) <= local_position exact p - local_position exact q <= 2 * d.
Proof.
  intros Hd. unfold local_position, exact.
  destruct (Rle_dec p 0.5), (Rle_dec q 0.5); lra.
Qed.

Lemma local_position_mirror (p : R) :
  local_position exact (1 - p) = local_position exact p.
Proof.
  unfold local_position, exact.
  destruct (Rle_dec p 0.5), (Rle_dec (1 - p) 0.5); lra.
Qed.

(** X10. In every arithmetic with the properties of [Fp.rounding], for
    whole numbers of steps and of frames per step (their product at most
    2^53): the progress of a frame >= 0 and its local position are both in
    [0, 1]; the local positions of the frames f and activeFrames - 1 - f
    differ by at most 10 (u + eta), so the second half of the animation
    retraces the first up to rounding (exactly in exact arithmetic, not
    always in binary64); from frame activeFrames - 1 on (the tail hold)
    the local position is exactly 0 again. *)
Theorem timeline_mirror (n m frame : Z) :
  (0 <= frame)%Z -> (Z.abs (n * m) <= 2 ^ 53)%Z ->
  let A := Z.max 1 (n * m) in
  let active := activeFrames rnd (IZR n) (IZR m) in
  active = IZR A
  /\ 0 <= progress rnd frame active <= 1
  /\ 0 <= local_position rnd (progress rnd frame active) <= 1
  /\ ((frame <= A - 1)%Z ->
      Rabs (local_position rnd (progress rnd (A - 1 - frame) active)
            - local_position rnd (progress rnd frame active))
      <= 10 * (u + eta))
  /\ ((A - 1 <= frame)%Z ->
      local_position rnd (progress rnd frame active) = 0).
Proof.
  intros Hf Hb A active.
  destruct (rnd_u Hr) as [Hu0 Hu1]. destruct (rnd_eta Hr) as [He0 He1].
  assert (Hactive : active = IZR A) by (apply activeFrames_whole; exact Hb).
  assert (HA : (A <= 2 ^ 53)%Z) by (unfold A; lia).
  split; [exact Hactive |]. rewrite Hactive.
  pose proof (progress_range Hf HA) as Hp.
  split; [exact Hp |]. split; [now apply local_position_range |]. split.
  - intros Hle. destruct (Z_lt_le_dec 1 A) as [H1 | H1].
    + assert (Hm : (0 <= A - 1 - frame)%Z) by lia.
      pose proof (progress_range Hm HA) as Hpm.
      pose proof (local_position_error Hp) as Ef.
      pose proof (local_position_error Hpm) as Em.
      rewrite !progress_whole in * by lia.
      rewrite !Z.min_l in * by lia.
      assert (Hd : 0 < IZR (A - 1)) by (apply IZR_lt; lia).
      set (q := IZR frame / IZR (A - 1)) in *.
      assert (Hq : 0 <= q <= 1).
      { pose proof (quotient_range Hf H1) as H. rewrite Z.min_l in H by lia.
        exact H. }
      assert (Hqm : IZR (A - 1 - frame) / IZR (A - 1) = 1 - q).
      { unfold q. rewrite (minus_IZR (A - 1) frame). field. lra. }
      rewrite Hqm in *.
      pose proof (@rnd_within rnd u eta Hr q 1
                    ltac:(apply Rabs_le; lra) ltac:(lra)) as Wf.
      pose proof (@rnd_within rnd u eta Hr (1 - q) 1
                    ltac:(apply Rabs_le; lra) ltac:(lra)) as Wm.
      pose proof (@local_position_lipschitz (rnd q) q (u + eta)
                    ltac:(lra)) as Lf.
      pose proof (@local_position_lipschitz (rnd (1 - q)) (1 - q) (u + eta)
                    ltac:(lra)) as Lm.
      rewrite local_position_mirror in Lm.
      apply Rabs_le. lra.
    + rewrite !progress_still by lia.
      replace (local_position rnd 0 - local_position rnd 0) with 0 by lra.
      rewrite Rabs_R0. lra.
  - intros Hge. destruct (Z_lt_le_dec 1 A) as [H1 | H1].
    + rewrite progress_whole by lia. rewrite Z.min_r by lia.
      assert (Hd : 0 < IZR (A - 1)) by (apply IZR_lt; lia).
      replace (IZR (A - 1) / IZR (A - 1)) with 1 by (field; lra).
      rewrite (@rnd_1 rnd u eta Hr). unfold local_position.
      destruct (Rle_dec 1 0.5) as [Hbad | _]; [lra |].
      replace (1 - 1) with 0 by lra.
      rewrite (@rnd_0 rnd u eta Hr), Rmult_0_l. apply (@rnd_0 rnd u eta Hr).
    + rewrite progress_still by lia. unfold local_position.
      destruct (Rle_dec 0 0.5) as [_ | Hbad]; [| lra].
      rewrite Rmult_0_l. apply (@rnd_0 rnd u eta Hr).
Qed.

End TimelineFacts.

Section TimelineFactsWitness.

Import JS Fp Timeline.
Local Open Scope R_scope.

Lemma timeline_mirror_witness :
  (0 <= 30)%Z /\ (Z.abs (20 * 6) <= 2 ^ 53)%Z
  /\ let A := Z.max 1 (20 * 6) in
     let active := activeFrames fixed40 20 6 in
     active = IZR A
     /\ 0 <= progress fixed40 30 active <= 1
     /\ 0 <= local_position fixed40 (progress fixed40 30 active) <= 1
     /\ ((30 <= A - 1)%Z ->
         Rabs (local_position fixed40 (progress fixed40 (A - 1 - 30) active)
               - local_position fixed40 (progress fixed40 30 active))
         <= 10 * (0 + / 2199023255552))
     /\ ((A - 1 <= 30)%Z ->
         local_position fixed40 (progress fixed40 30 active) = 0).
Proof.
  assert (H : (0 <= 30)%Z) by lia.
  assert (Hb : (Z.abs (20 * 6) <= 2 ^ 53)%Z) by (vm_compute; discriminate).
  split; [exact H |]. split; [exact Hb |].
  exact (timeline_mirror fixed40_rounding 20 6 H Hb).
Defined.

(** In binary64, with 2 steps of 6 frames, the frames 1 and 10 mirror each
    other and get local positions that differ in the last digits. *)
Example timeline_mirror_binary64 :
  (B64.local_position (B64.progress 1 12)
   <? B64.local_position (B64.progress 10 12))%float = true
  /\ (B64.local_position (B64.progress 10 12)
      - B64.local_position (B64.progress 1 12) <? 1e-15)%float = true.
Proof. vm_compute. split; reflexivity. Qed.

End TimelineFactsWitness.

(** ** Pixels *)

Section PixelFacts.

Import JS Pixels.
Local Open Scope R_scope.

Lemma Math_round_spec (x : R) :
  IZR (Math_round x) - 0.5 <= x < IZR (Math_round x) + 0.5.
Proof.
  unfold Math_round. destruct (base_Int_part (x + 0.5)) as [Hup Hlow]. lra.
Qed.

Lemma Math_round_IZR (z : Z) : Math_round (IZR z) = z.
Proof. unfold Math_round. apply Int_part_half. Qed.

Lemma Math_round_monotone (x y : R) :
  x <= y -> (Math_round x <= Math_round y)%Z.
Proof. intros H. unfold Math_round. apply Int_part_monotone. lra. Qed.

Lemma to_unit_scaled (byte : Z) : to_unit byte * 255 = IZR byte.
Proof. unfold to_unit. field. Qed.

(** X12. A byte d of 0 .. 255 survives the image pipeline at scales
    s1 = 1, s2 = 0: turned into the fraction d / 255, mixed with any noise
    value and turned back into a byte, it is d again. *)
Theorem byte_round_trip (d : Z) (e : R) :
  (0 <= d <= 255)%Z ->
  quantize (to_unit d) = d /\ noised_byte 1 0 (to_unit d) e = d.
Proof.
  intros Hd.
  assert (Hq : quantize (to_unit d) = d).
  { unfold quantize. rewrite to_unit_scaled, Math_round_IZR. lia. }
  split; [exact Hq |].
  unfold noised_byte.
  replace (1 * to_unit d + 0 * e) with (to_unit d) by lra. exact Hq.
Qed.

Lemma byte_round_trip_witness :
  (0 <= 200 <= 255)%Z
  /\ quantize (to_unit 200) = 200%Z
  /\ noised_byte 1 0 (to_unit 200) 3.5 = 200%Z.
Proof.
  assert (H : (0 <= 200 <= 255)%Z) by lia.
  split; [exact H | exact (byte_round_trip 3.5 H)].
Defined.


Lemma or_else_nonzero (a b : R) : a <> 0 -> or_else a b = a.
Proof.
  intros Ha. unfold or_else. destruct (Req_dec_T a 0); [contradiction | auto].
Qed.

(** X14. Over exact reals, for an image of positive sizes and a square
    of positive side, the rectangle handed to [drawImage] covers the
    square: it is at least as wide and as high as the square and exactly
    as wide or as high, it is centred on the square, and it keeps the
    proportions of the image.  The natural sizes are the ones used when
    they are not 0.  In binary64 the quotient s / iw is rounded and the
    rectangle can fall short of the square in the last digit: for an image
    of 49 by 49 and s = 512 the width is below 512 and dx above 0. *)
Theorem drawCoverToSquare_covers (naturalWidth width naturalHeight height s : R) :
  let iw := or_else naturalWidth width in
  let ih := or_else naturalHeight height in
  0 < iw -> 0 < ih -> 0 < s ->
  exists dx dy w h,
    drawCoverToSquare naturalWidth width naturalHeight height s
    = (dx, dy, w, h)
    /\ s <= w /\ s <= h /\ (w = s \/ h = s)
    /\ dx <= 0 /\ dy <= 0
    /\ dx + w / 2 = s / 2 /\ dy + h / 2 = s / 2
    /\ w * ih = h * iw
    /\ (naturalWidth <> 0 -> iw = naturalWidth)
    /\ (naturalHeight <> 0 -> ih = naturalHeight)
    /\ (let '(dx64, _, w64, _) := B64.drawCoverToSquare 49 49 512 in
        (w64 <? 512) && (0 <? dx64))%float = true.
Proof.
  intros iw ih Hiw Hih Hs.
  unfold drawCoverToSquare. cbv zeta. fold iw ih.
  set (scale := Rmax (s / iw) (s / ih)).
  exists ((s - iw * scale) / 2), ((s - ih * scale) / 2),
         (iw * scale), (ih * scale).
  split; [reflexivity |].
  assert (Hx : iw * (s / iw) = s) by (field; lra).
  assert (Hy : ih * (s / ih) = s) by (field; lra).
  assert (Hsx : s / iw <= scale) by apply Rmax_l.
  assert (Hsy : s / ih <= scale) by apply Rmax_r.
  assert (Hw : s <= iw * scale).
  { rewrite <- Hx at 1. apply Rmult_le_compat_l; lra. }
  assert (Hh : s <= ih * scale).
  { rewrite <- Hy at 1. apply Rmult_le_compat_l; lra. }
  assert (Hone : iw * scale = s \/ ih * scale = s).
  { unfold scale. destruct (Rle_lt_dec (s / iw) (s / ih)) as [Hle | Hgt].
    - right. rewrite Rmax_right by exact Hle. exact Hy.
    - left. rewrite Rmax_left by lra. exact Hx. }
  repeat split; try lra; try exact Hone.
  - intros Hn. unfold iw. now apply or_else_nonzero.
  - intros Hn. unfold ih. now apply or_else_nonzero.
Qed.

Lemma drawCoverToSquare_covers_witness :
  0 < or_else 800 0 /\ 0 < or_else 0 600 /\ 0 < 512
  /\ exists dx dy w h,
       drawCoverToSquare 800 0 0 600 512 = (dx, dy, w, h)
       /\ 512 <= w /\ 512 <= h /\ (w = 512 \/ h = 512)
       /\ dx <= 0 /\ dy <= 0
       /\ dx + w / 2 = 512 / 2 /\ dy + h / 2 = 512 / 2
       /\ w * or_else 0 600 = h * or_else 800 0
       /\ (800 <> 0 -> or_else 800 0 = 800)
       /\ (0 <> 0 -> or_else 0 600 = 0)
       /\ (let '(dx64, _, w64, _) := B64.drawCoverToSquare 49 49 512 in
           (w64 <? 512) && (0 <? dx64))%float = true.
Proof.
  assert (H1 : 0 < or_else 800 0).
  { rewrite or_else_nonzero by lra. lra. }
  assert (H2 : 0 < or_else 0 600).
  { unfold or_else. destruct (Req_dec_T 0 0); lra. }
  assert (H3 : 0 < 512) by lra.
  split; [exact H1 | split; [exact H2 | split; [exact H3 |]]].
  exact (drawCoverToSquare_covers 800 0 0 600 H1 H2 H3).
Defined.

End PixelFacts.

(** ** The dots drawn *)

Section DotsFacts.

Import Dots.
Local Open Scope Z_scope.

Lemma dots_loop_stop (fuel : nat) (len count stride i written : Z) :
  count <= written -> dots_loop fuel len count stride i written = [].
Proof.
  intros H. destruct fuel as [| fuel]; [reflexivity |]. simpl.
  destruct (Z.ltb_spec written count); [lia |].
  now rewrite andb_false_r.
Qed.

Lemma dots_loop_run (len count stride : Z) :
  (forall k, 0 <= k < count -> k * stride < len) ->
  forall (n fuel : nat) (written : Z),
    (n <= fuel)%nat -> 0 <= written -> written + Z.of_nat n = count ->
    dots_loop fuel len count stride (written * stride) written
    = map (fun k => Z.of_nat k * stride) (seq (Z.to_nat written) n).
Proof.
  intros Hin. induction n as [| n IH]; intros fuel written Hfuel Hw Hsum.
  - simpl. apply dots_loop_stop. lia.
  - destruct fuel as [| fuel]; [lia |].
    cbn [dots_loop seq map].
    pose proof (Hin written ltac:(lia)) as Hlt.
    destruct (Z.ltb_spec (written * stride) len); [| lia].
    destruct (Z.ltb_spec written count); [| lia].
    cbn [andb]. f_equal; [now rewrite Z2Nat.id by lia |].
    replace (written * stride + stride) with ((written + 1) * stride) by lia.
    rewrite IH by lia.
    replace (Z.to_nat (written + 1)) with (S (Z.to_nat written)) by lia.
    reflexivity.
Qed.

Lemma stride_fits (len count : Z) :
  1 <= count <= len ->
  forall k, 0 <= k < count -> k * Z.max 1 (len / count) < len.
Proof.
  intros Hc k Hk.
  assert (Hq : 1 <= len / count).
  { apply Z.div_le_lower_bound; lia. }
  rewrite Z.max_r by lia.
  pose proof (Z.mul_div_le len count ltac:(lia)) as Hmul.
  nia.
Qed.

(** X15. For an array of len points and an integer visibleCount, with
    count = min(visibleCount, len) and stride = max(1, floor(len / count)):
    the loop draws exactly the indices 0, stride, 2 * stride, ...,
    (count - 1) * stride, each inside the array; it draws nothing when
    count <= 0.  Any fuel of at least count rounds gives this result. *)
Theorem visible_indices_exact (fuel : nat) (len visibleCount : Z) :
  0 <= len ->
  (Z.to_nat (Z.min visibleCount len) <= fuel)%nat ->
  let count := Z.min visibleCount len in
  let stride := Z.max 1 (len / count) in
  visible_indices fuel len visibleCount
  = map (fun k => Z.of_nat k * stride) (seq 0 (Z.to_nat count))
  /\ length (visible_indices fuel len visibleCount) = Z.to_nat count
  /\ Forall (fun i => 0 <= i < len) (visible_indices fuel len visibleCount).
Proof.
  intros Hlen Hfuel count stride.
  assert (Heq : visible_indices fuel len visibleCount
                = map (fun k => Z.of_nat k * stride) (seq 0 (Z.to_nat count))).
  { unfold visible_indices. cbv zeta. fold count. fold stride.
    destruct (Z_le_gt_dec count 0) as [Hle | Hgt].
    - rewrite dots_loop_stop by lia.
      replace (Z.to_nat count) with 0%nat by lia. reflexivity.
    - assert (Hc : 1 <= count <= len) by (unfold count in *; lia).
      pose proof (@dots_loop_run len count stride (stride_fits Hc)
                    (Z.to_nat count) fuel 0 Hfuel ltac:(lia) ltac:(lia))
        as Hrun.
      exact Hrun. }
  split; [exact Heq |]. split.
  - now rewrite Heq, length_map, length_seq.
  - rewrite Heq. apply Forall_forall. intros i Hi.
    apply in_map_iff in Hi as (k & <- & Hk). apply in_seq in Hk.
    assert (Hc : 1 <= count <= len) by (unfold count in *; lia).
    pose proof (stride_fits Hc) as Hfit.
    specialize (Hfit (Z.of_nat k) ltac:(lia)).
    fold stride in Hfit. unfold stride in *. lia.
Qed.

Lemma visible_indices_exact_witness :
  0 <= 1000
  /\ (Z.to_nat (Z.min 400 1000) <= 400)%nat
  /\ let count := Z.min 400 1000 in
     let stride := Z.max 1 (1000 / count) in
     visible_indices 400 1000 400
     = map (fun k => Z.of_nat k * stride) (seq 0 (Z.to_nat count))
     /\ length (visible_indices 400 1000 400) = Z.to_nat count
     /\ Forall (fun i => 0 <= i < 1000) (visible_indices 400 1000 400).
Proof.
  assert (H1 : 0 <= 1000) by lia.
  assert (H2 : (Z.to_nat (Z.min 400 1000) <= 400)%nat) by (simpl; lia).
  split; [exact H1 | split; [exact H2 |]].
  exact (@visible_indices_exact 400 1000 400 H1 H2).
Defined.

End DotsFacts.

(** ** The board *)

Section BoardFacts.

Import JS Board.
Local Open Scope R_scope.

(** X16. For a grid of side >= 1, [idxToRC] splits an index into a row
    and a column with idx = r * grid + c and c < grid, the row being below
    grid for the indices of the board; when the cells have a width that is
    not 0, two indices with the same corner are the same index. *)
Theorem idxToRC_round_trip (L : layout) (idx idx' : nat) :
  (1 <= grid L)%nat ->
  let (r, c) := idxToRC (grid L) idx in
  (r * grid L + c = idx)%nat
  /\ (c < grid L)%nat
  /\ ((idx < grid L * grid L)%nat -> (r < grid L)%nat)
  /\ (cell L <> 0 -> posXY L idx = posXY L idx' -> idx = idx').
Proof.
  intros Hg. unfold idxToRC.
  pose proof (Nat.div_mod_eq idx (grid L)) as Hdm.
  pose proof (Nat.mod_upper_bound idx (grid L) ltac:(lia)) as Hc.
  split; [lia |]. split; [exact Hc |]. split.
  - intros Hidx. apply Nat.Div0.div_lt_upper_bound. lia.
  - intros Hcell Heq. unfold posXY, idxToRC in Heq.
    injection Heq as Hx Hy.
    assert (Hcc : INR (idx mod grid L) = INR (idx' mod grid L)) by nra.
    assert (Hrr : INR (idx / grid L) = INR (idx' / grid L)) by nra.
    apply INR_eq in Hcc. apply INR_eq in Hrr.
    pose proof (Nat.div_mod_eq idx' (grid L)) as Hdm'.
    rewrite Hdm, Hdm', Hcc, Hrr. reflexivity.
Qed.

Lemma idxToRC_round_trip_witness :
  (1 <= grid {| width := 720; height := 720; boardPadding := 12; grid := 3 |})%nat
  /\ let L := {| width := 720; height := 720; boardPadding := 12; grid := 3 |} in
     let (r, c) := idxToRC (grid L) 7 in
     (r * grid L + c = 7)%nat
     /\ (c < grid L)%nat
     /\ ((7 < grid L * grid L)%nat -> (r < grid L)%nat)
     /\ (cell L <> 0 -> posXY L 7 = posXY L 5 -> 7%nat = 5%nat).
Proof.
  assert (H : (1 <= grid {| width := 720; height := 720;
                            boardPadding := 12; grid := 3 |})%nat)
    by (simpl; lia).
  split; [exact H |].
  exact (@idxToRC_round_trip
           {| width := 720; height := 720; boardPadding := 12; grid := 3 |}
           7 5 H).
Defined.

(** *** Writing into the inverse table *)

Lemma write_length_inside (A : Type) (arr : list (option A)) (i : nat) (v : A) :
  (i < length arr)%nat -> length (write arr i v) = length arr.
Proof.
  revert i. induction arr as [| x rest IH]; intros [| i] Hi; simpl in *;
    try lia; auto.
  f_equal. apply IH. lia.
Qed.

Lemma write_same (A : Type) (arr : list (option A)) (i : nat) (v : A) :
  nth_error (write arr i v) i = Some (Some v).
Proof.
  revert arr. induction i as [| i IH]; intros [| x rest]; simpl; auto.
Qed.

Lemma write_other (A : Type) (arr : list (option A)) (i j : nat) (v : A) :
  (i < length arr)%nat -> i <> j ->
  nth_error (write arr i v) j = nth_error arr j.
Proof.
  revert i j. induction arr as [| x rest IH]; intros [| i] [| j] Hi Hne;
    simpl in *; try lia; auto.
  apply IH; lia.
Qed.

(** A write past the end leaves a hole: the table of the one-tile board
    [2] has three cells. *)
Example invert_out_of_range : invert [2%nat] = [Some O; None; Some O].
Proof. reflexivity. Qed.

Lemma invert_fold (l : list (nat * nat)) :
  forall inv : list (option nat),
    NoDup (map snd l) ->
    (forall pt, In pt l -> (snd pt < length inv)%nat) ->
    let res := fold_left (fun inv pt => write inv (snd pt) (fst pt)) l inv in
    length res = length inv
    /\ (forall p t, In (p, t) l -> nth_error res t = Some (Some p))
    /\ (forall t, ~ In t (map snd l) -> nth_error res t = nth_error inv t).
Proof.
  induction l as [| [p0 t0] rest IH]; intros inv Hnd Hin.
  - simpl. repeat split; auto. intros p t [].
  - cbn [fold_left fst snd]. inversion Hnd as [| ? ? Hnot Hnd']; subst.
    assert (Ht0 : (t0 < length inv)%nat) by (apply (Hin (p0, t0)); now left).
    destruct (IH (write inv t0 p0) Hnd') as (Hlen & Hset & Hkeep).
    { intros pt Hpt. rewrite write_length_inside by exact Ht0.
      apply Hin. now right. }
    cbv zeta in *. split; [| split].
    + rewrite Hlen. now apply write_length_inside.
    + intros p t [Heq | Hrest].
      * injection Heq as <- <-. rewrite Hkeep by exact Hnot.
        apply write_same.
      * now apply Hset.
    + intros t Hnotin. simpl in Hnotin.
      rewrite Hkeep by tauto.
      apply write_other; [exact Ht0 | tauto].
Qed.

Lemma map_snd_combine_seq (perm : list nat) (k : nat) :
  map snd (combine (seq k (length perm)) perm) = perm.
Proof.
  revert k. induction perm as [| x rest IH]; intros k; simpl;
    [reflexivity | now rewrite IH].
Qed.

Lemma in_combine_seq (perm : list nat) (p t : nat) :
  In (p, t) (combine (seq 0 (length perm)) perm) <-> nth_error perm p = Some t.
Proof.
  assert (H : forall k, In (p, t) (combine (seq k (length perm)) perm)
                        <-> (k <= p)%nat /\ nth_error perm (p - k) = Some t).
  { induction perm as [| x rest IH]; intros k; simpl.
    - split; [intros [] | intros [_ H]; destruct (p - k)%nat; discriminate].
    - rewrite IH. split.
      + intros [Heq | [Hle Hnth]].
        * injection Heq as <- <-. split; [lia |].
          now rewrite Nat.sub_diag.
        * split; [lia |].
          replace (p - k)%nat with (S (p - S k)) by lia. exact Hnth.
      + intros [Hle Hnth].
        destruct (Nat.eq_dec k p) as [-> | Hne].
        * left. rewrite Nat.sub_diag in Hnth. simpl in Hnth. congruence.
        * right. split; [lia |].
          replace (p - k)%nat with (S (p - S k)) in Hnth by lia.
          exact Hnth. }
  rewrite H, Nat.sub_0_r. split; [tauto | intros Hn; split; [lia | exact Hn]].
Qed.

(** On a permutation of 0 .. N - 1 every write lands inside the table. *)
Lemma permutation_range (perm : list nat) :
  Permutation perm (seq 0 (length perm)) ->
  forall t, In t perm <-> (t < length perm)%nat.
Proof.
  intros Hperm t. split.
  - intros Ht. apply (Permutation_in _ Hperm) in Ht.
    apply in_seq in Ht. lia.
  - intros Ht. apply (Permutation_in _ (Permutation_sym Hperm)).
    apply in_seq. lia.
Qed.

Lemma invert_lookup (perm : list nat) :
  Permutation perm (seq 0 (length perm)) ->
  length (invert perm) = length perm
  /\ forall p t, nth_error perm p = Some t -> read (invert perm) t = Some p.
Proof.
  intros Hperm.
  assert (Hnd : NoDup perm).
  { apply (Permutation_NoDup (Permutation_sym Hperm)), seq_NoDup. }
  pose proof (permutation_range Hperm) as Hrange.
  destruct (@invert_fold (combine (seq 0 (length perm)) perm)
              (repeat (Some O) (length perm)))
    as (Hlen & Hset & _).
  { now rewrite map_snd_combine_seq. }
  { intros [p t] Hpt. cbn [snd]. rewrite repeat_length.
    apply in_combine_seq in Hpt. apply Hrange.
    exact (nth_error_In _ _ Hpt). }
  cbv zeta in Hlen, Hset. fold (invert perm) in Hlen, Hset.
  rewrite repeat_length in Hlen.
  split; [exact Hlen |].
  intros p t Hpt. unfold read.
  rewrite (Hset p t) by now apply in_combine_seq. reflexivity.
Qed.

(** What the table holds comes from the board. *)
Lemma invert_read_back (perm : list nat) (p t : nat) :
  Permutation perm (seq 0 (length perm)) ->
  read (invert perm) t = Some p -> nth_error perm p = Some t.
Proof.
  intros Hperm Hread.
  destruct (invert_lookup Hperm) as [Hlen Hfwd].
  assert (Ht : (t < length perm)%nat).
  { unfold read in Hread.
    destruct (nth_error (invert perm) t) as [c |] eqn:Hc; [| discriminate].
    rewrite <- Hlen. apply nth_error_Some. congruence. }
  apply (permutation_range Hperm) in Ht.
  apply In_nth_error in Ht as [p' Hp'].
  pose proof (Hfwd p' t Hp') as Hread'.
  assert (p' = p) by congruence. now subst p'.
Qed.

(** X17. For a board that is a permutation of 0 .. N - 1, the table
    built by [forEach] has N cells and is the inverse of the board: tile t
    stands at position p exactly when the table sends t to p. *)
Theorem invert_inverse (perm : list nat) :
  Permutation perm (seq 0 (length perm)) ->
  length (invert perm) = length perm
  /\ forall p t, nth_error perm p = Some t <-> read (invert perm) t = Some p.
Proof.
  intros Hperm. destruct (invert_lookup Hperm) as [Hlen Hfwd].
  split; [exact Hlen |].
  intros p t. split; [apply Hfwd | now apply invert_read_back].
Qed.

Lemma invert_inverse_witness :
  Permutation [2; 0; 1]%nat (seq 0 (length [2; 0; 1]%nat))
  /\ length (invert [2; 0; 1]%nat) = length [2; 0; 1]%nat
  /\ forall p t, nth_error [2; 0; 1]%nat p = Some t
                 <-> read (invert [2; 0; 1]%nat) t = Some p.
Proof.
  assert (H : Permutation [2; 0; 1]%nat (seq 0 (length [2; 0; 1]%nat))).
  { simpl. apply Permutation_trans with [0; 2; 1]%nat.
    - apply perm_swap.
    - apply perm_skip, perm_swap. }
  split; [exact H | exact (invert_inverse H)].
Defined.

(** *** The shuffled board *)

Lemma shuffled_board (n : nat) (seed : Z) :
  (1 <= n)%nat ->
  Permutation (Jigsaw.seededShuffle n seed) (seq 0 (n * n)).
Proof.
  intros Hn. unfold Jigsaw.seededShuffle. cbv zeta.
  rewrite identity_seq, length_seq.
  set (arr := Jigsaw.shuffle_loop (n * n - 1) (seq 0 (n * n)) seed).
  assert (Hperm : Permutation arr (seq 0 (n * n))).
  { apply shuffle_loop_Permutation. rewrite length_seq. nia. }
  destruct (Jigsaw.every_fixed arr && (1 <? length arr)%nat) eqn:Hif;
    [| exact Hperm].
  apply andb_true_iff in Hif as [_ Hlt]. apply Nat.ltb_lt in Hlt.
  apply Permutation_trans with arr; [| exact Hperm].
  apply swap_Permutation; lia.
Qed.

Lemma posXY_injective (L : layout) (idx idx' : nat) :
  cell L <> 0 -> posXY L idx = posXY L idx' -> idx = idx'.
Proof.
  intros Hcell Heq. unfold posXY, idxToRC in Heq.
  injection Heq as Hx Hy.
  assert (Hcc : INR (idx mod grid L) = INR (idx' mod grid L)) by nra.
  assert (Hrr : INR (idx / grid L) = INR (idx' / grid L)) by nra.
  apply INR_eq in Hcc. apply INR_eq in Hrr.
  rewrite (Nat.div_mod_eq idx (grid L)), (Nat.div_mod_eq idx' (grid L)).
  now rewrite Hcc, Hrr.
Qed.

(** X18. After a shuffle of the n x n board (n >= 1, cells of a width
    that is not 0) every tile has a cell of the board, the one the shuffle
    put it on, and tiles whose corners coincide are the same tile; on the
    way back to the solved board a tile starts at the corner of that cell
    (spring value 0) and ends at the corner of its own index (spring value
    1). *)
Theorem shuffle_then_solve (L : layout) (seed : Z) :
  (1 <= grid L)%nat -> cell L <> 0 ->
  let n := grid L in
  let perm := Jigsaw.seededShuffle n seed in
  (forall t, (t < n * n)%nat ->
     exists pos, (pos < n * n)%nat
       /\ nth_error perm pos = Some t
       /\ read (invert perm) t = Some pos
       /\ tile_xy L (invert perm) (invert (Jigsaw.identity n)) t 0
          = Some (posXY L pos)
       /\ tile_xy L (invert perm) (invert (Jigsaw.identity n)) t 1
          = Some (posXY L t))
  /\ (forall t t' pos pos',
        read (invert perm) t = Some pos ->
        read (invert perm) t' = Some pos' ->
        posXY L pos = posXY L pos' -> t = t').
Proof.
  intros Hg Hcell n perm.
  pose proof (shuffled_board seed Hg) as Hperm. fold n perm in Hperm.
  assert (Hlen : length perm = (n * n)%nat).
  { rewrite (Permutation_length Hperm). apply length_seq. }
  assert (Hperm' : Permutation perm (seq 0 (length perm)))
    by now rewrite Hlen.
  destruct (invert_lookup Hperm') as [_ Hfwd].
  assert (Hid : Permutation (Jigsaw.identity n)
                            (seq 0 (length (Jigsaw.identity n)))).
  { rewrite identity_seq, length_seq. apply Permutation_refl. }
  destruct (invert_lookup Hid) as [_ Hfwd_id].
  split.
  - intros t Ht.
    assert (Hin : In t perm).
    { apply (permutation_range Hperm'). lia. }
    apply In_nth_error in Hin as [pos Hpos].
    exists pos.
    assert (Hpos_lt : (pos < n * n)%nat).
    { rewrite <- Hlen. apply nth_error_Some. congruence. }
    pose proof (Hfwd pos t Hpos) as Hread.
    assert (Hread_id : read (invert (Jigsaw.identity n)) t = Some t).
    { apply Hfwd_id. rewrite identity_seq.
      rewrite nth_error_nth' with (d := O) by (rewrite length_seq; lia).
      now rewrite seq_nth. }
    repeat split; try assumption.
    + unfold tile_xy, bind. rewrite Hread, Hread_id.
      destruct (posXY L pos) as [sx sy], (posXY L t) as [ex ey].
      f_equal. f_equal; ring.
    + unfold tile_xy, bind. rewrite Hread, Hread_id.
      destruct (posXY L pos) as [sx sy], (posXY L t) as [ex ey].
      f_equal. f_equal; ring.
  - intros t t' pos pos' Hr Hr' Heq.
    apply (posXY_injective Hcell) in Heq. subst pos'.
    apply (@invert_read_back perm pos t Hperm') in Hr.
    apply (@invert_read_back perm pos t' Hperm') in Hr'.
    congruence.
Qed.

Lemma board_720_cell : cell board_720 <> 0.
Proof.
  unfold cell, inner, size, board_720. cbn [width height boardPadding grid].
  rewrite Rmin_left by lra.
  change (INR 3) with (IZR (Z.of_nat 3)) || rewrite INR_IZR_INZ.
  cbn [Z.of_nat Pos.of_succ_nat Pos.succ]. lra.
Qed.

Lemma shuffle_then_solve_witness :
  (1 <= grid board_720)%nat /\ cell board_720 <> 0
  /\ let n := grid board_720 in
     let perm := Jigsaw.seededShuffle n 42 in
     (forall t, (t < n * n)%nat ->
        exists pos, (pos < n * n)%nat
          /\ nth_error perm pos = Some t
          /\ read (invert perm) t = Some pos
          /\ tile_xy board_720 (invert perm) (invert (Jigsaw.identity n)) t 0
             = Some (posXY board_720 pos)
          /\ tile_xy board_720 (invert perm) (invert (Jigsaw.identity n)) t 1
             = Some (posXY board_720 t))
     /\ (forall t t' pos pos',
           read (invert perm) t = Some pos ->
           read (invert perm) t' = Some pos' ->
           posXY board_720 pos = posXY board_720 pos' -> t = t').
Proof.
  assert (H1 : (1 <= grid board_720)%nat) by (simpl; lia).
  split; [exact H1 |]. split; [exact board_720_cell |].
  exact (@shuffle_then_solve board_720 42 H1 board_720_cell).
Defined.

End BoardFacts.

(** ** Estimates of the sampling element and its composition *)

Section StatsFacts.

Import JS Kde Stats.
Local Open Scope R_scope.

Lemma reduce_sum (f : R -> R) (xs : list R) :
  forall acc : R,
    fold_left (fun s x => s + f x) xs acc = acc + Rsum (map f xs).
Proof.
  induction xs as [| x rest IH]; intros acc; simpl; [lra |].
  rewrite IH. lra.
Qed.

Lemma total_Rsum (xs : list R) : total xs = Rsum xs.
Proof.
  unfold total. rewrite (reduce_sum (fun x => x)), map_id. lra.
Qed.

Lemma squares_Rsum (m : R) (xs : list R) :
  squares m xs = Rsum (map (fun x => (x - m) ^ 2) xs).
Proof. unfold squares. rewrite (reduce_sum (fun x => (x - m) ^ 2)). lra. Qed.

Lemma Rsum_nonneg (xs : list R) :
  Forall (fun x => 0 <= x) xs -> 0 <= Rsum xs.
Proof.
  induction 1 as [| x rest Hx _ IH]; simpl; lra.
Qed.

Lemma Rsum_shift (c : R) (xs : list R) :
  Rsum (map (fun x => x + c) xs) = Rsum xs + INR (length xs) * c.
Proof.
  induction xs as [| x rest IH]; [simpl; lra |].
  cbn [map Rsum fold_right length]. fold (Rsum (map (fun x => x + c) rest)).
  fold (Rsum rest). rewrite IH, S_INR. lra.
Qed.

Lemma squares_nonneg (m : R) (xs : list R) : 0 <= squares m xs.
Proof.
  rewrite squares_Rsum. apply Rsum_nonneg, Forall_map, Forall_forall.
  intros x _. apply pow2_ge_0.
Qed.

(** The deviation shown is the root of a number that is at least 1e-9. *)
Lemma shown_sigma_value (xs : list R) :
  shown_sigma xs = Some (sqrt (Rmax 1e-9 (var1 xs)))
  /\ 1.25e-7 < sqrt (Rmax 1e-9 (var1 xs)).
Proof.
  pose proof (Rmax_l 1e-9 (var1 xs)) as Hv.
  split.
  - unfold shown_sigma. apply Math_sqrt_nonneg. lra.
  - apply Rlt_le_trans with (sqrt (2e-7 * 2e-7)).
    + rewrite sqrt_square by lra. lra.
    + apply sqrt_le_1_alt. lra.
Qed.

(** X19. Over exact reals the sample variance is never negative, and
    adding a constant to every value of a non-empty sample moves the mean
    by that constant and leaves the variance as it is.  In binary64 the
    sums are rounded and the variance changes in its last digits: for
    0.1, 0.2, 0.4 it gets smaller when 0.3 is added to each value. *)
Theorem var1_shift (c : R) (xs : list R) :
  xs <> [] ->
  0 <= var1 xs
  /\ mean1 (map (fun x => x + c) xs) = mean1 xs + c
  /\ var1 (map (fun x => x + c) xs) = var1 xs
  /\ (B64.var1 (map (fun x => x + 0.3) [0.1; 0.2; 0.4])
      <? B64.var1 [0.1; 0.2; 0.4])%float = true.
Proof.
  intros Hne.
  assert (Hlen : (1 <= length xs)%nat)
    by (destruct xs; [contradiction | simpl; lia]).
  assert (Hn : 1 <= INR (length xs))
    by (change 1 with (INR 1); now apply le_INR).
  assert (Hmean : mean1 (map (fun x => x + c) xs) = mean1 xs + c).
  { unfold mean1. rewrite length_map.
    destruct (Nat.eqb_spec (length xs) 0) as [H0 | _]; [lia |].
    rewrite !total_Rsum, Rsum_shift. field. lra. }
  split; [| split; [exact Hmean | split; [| vm_compute; reflexivity]]].
  - unfold var1. destruct (length xs <=? 1)%nat eqn:Hle; [lra |].
    apply Nat.leb_gt in Hle.
    assert (2 <= INR (length xs))
      by (change 2 with (INR 2); apply le_INR; lia).
    apply Rmult_le_pos; [apply squares_nonneg |].
    apply Rlt_le, Rinv_0_lt_compat. lra.
  - unfold var1. rewrite length_map.
    destruct (length xs <=? 1)%nat; [reflexivity |].
    rewrite Hmean, !squares_Rsum, map_map. do 2 f_equal.
    apply map_ext. intros x. ring.
Qed.

Lemma var1_shift_witness :
  [1; 3] <> []
  /\ 0 <= var1 [1; 3]
  /\ mean1 (map (fun x => x + 10) [1; 3]) = mean1 [1; 3] + 10
  /\ var1 (map (fun x => x + 10) [1; 3]) = var1 [1; 3]
  /\ (B64.var1 (map (fun x => x + 0.3) [0.1; 0.2; 0.4])
      <? B64.var1 [0.1; 0.2; 0.4])%float = true.
Proof.
  assert (Hne : [1; 3] <> []) by discriminate.
  split; [exact Hne | exact (var1_shift 10 Hne)].
Defined.

(** X20. Over exact reals, for every sample, the empty one and constant
    ones included, the axis range has a value and is
    (mean - 4 s, mean + 4 s) with s the deviation shown, which is
    positive: the fallback span of [safeSpan] is never used, and [xToPx1]
    sends the ends of the range to the two ends of the plot and the mean
    to its middle.  In binary64 the fallback is used when the mean is so
    large that adding 4 s does not change it: for the sample [1e13] both
    ends come out as the mean and the range is (mean - 4, mean + 4). *)
Theorem range1_spread (xs : list R) :
  (exists s,
     shown_sigma xs = Some s
     /\ 0 < s
     /\ range1 xs = Some (mean1 xs - 4 * s, mean1 xs + 4 * s)
     /\ forall mSide plotW,
          let range := (mean1 xs - 4 * s, mean1 xs + 4 * s) in
          xToPx1 mSide plotW range (fst range) = mSide
          /\ xToPx1 mSide plotW range (snd range) = mSide + plotW
          /\ xToPx1 mSide plotW range (mean1 xs) = mSide + plotW / 2)
  /\ (1e13 - 4 * PrimFloat.sqrt 1e-9 =? 1e13 + 4 * PrimFloat.sqrt 1e-9)%float
     = true
  /\ B64.range1 [1e13%float] = (1e13 - 4, 1e13 + 4)%float.
Proof.
  split; [| split; vm_compute; reflexivity].
  destruct (shown_sigma_value xs) as [Hs Hpos].
  set (s := sqrt (Rmax 1e-9 (var1 xs))) in *.
  exists s. split; [exact Hs |]. split; [lra |].
  assert (Hspan : safeSpan (mean1 xs - 4 * s) (mean1 xs + 4 * s) 8 = 8 * s).
  { unfold safeSpan.
    destruct (Rlt_dec (mean1 xs + 4 * s - (mean1 xs - 4 * s)) 1e-6); lra. }
  split.
  - unfold range1. rewrite Hs. cbn [bind]. rewrite Hspan.
    destruct (Req_dec_T (8 * s) 8) as [H8 | _]; [| reflexivity].
    assert (Hs1 : s = 1) by lra. rewrite Hs1. do 2 f_equal; lra.
  - intros mSide plotW range. unfold xToPx1, range. cbn [fst snd].
    rewrite Hspan. repeat split; field; lra.
Qed.

(** X21. The estimate the element samples from always has a value.  With
    two or more originals it is the mean and the deviation the composition
    shows; with one original or none its deviation is 1, while the
    composition shows the root of 1e-9. *)
Theorem estimate1_agrees (orig1 : list R) :
  ((2 <= length orig1)%nat ->
     exists s, shown_sigma orig1 = Some s
               /\ estimate1 orig1 = Some (mean1 orig1, s))
  /\ ((length orig1 <= 1)%nat ->
        estimate1 orig1 = Some (mean1 orig1, 1)
        /\ shown_sigma orig1 = Some (sqrt 1e-9)).
Proof.
  split.
  - intros Hlen. destruct (shown_sigma_value orig1) as [Hs _].
    exists (sqrt (Rmax 1e-9 (var1 orig1))). split; [exact Hs |].
    unfold shown_sigma in Hs. unfold estimate1, var1, mean1 in *.
    destruct (Nat.eqb_spec (length orig1) 0) as [H0 | _]; [lia |].
    destruct (Nat.ltb_spec 1 (length orig1)) as [_ | H1]; [| lia].
    destruct (Nat.leb_spec (length orig1) 1) as [H1 | _]; [lia |].
    cbv zeta. rewrite Hs. reflexivity.
  - intros Hlen.
    assert (Hone : Math_sqrt (Rmax 1e-9 1) = Some 1).
    { rewrite Rmax_right by lra. rewrite Math_sqrt_nonneg by lra.
      now rewrite sqrt_1. }
    assert (Hfloor : shown_sigma orig1 = Some (sqrt 1e-9)).
    { unfold shown_sigma, var1.
      destruct (Nat.leb_spec (length orig1) 1) as [_ | H1]; [| lia].
      rewrite Rmax_left by lra. apply Math_sqrt_nonneg. lra. }
    split; [| exact Hfloor].
    destruct orig1 as [| x [| y rest]]; [| | simpl in Hlen; lia].
    + unfold estimate1, mean1, total. cbn [length Nat.eqb Nat.ltb Nat.leb].
      cbn [fold_left]. rewrite Hone. cbn [bind]. do 2 f_equal.
      change (INR 1) with 1. field.
    + unfold estimate1, mean1. cbn [length Nat.eqb Nat.ltb Nat.leb].
      rewrite Hone. reflexivity.
Qed.

End StatsFacts.

(** ** Strokes of the sketch pad *)

Section SketchFacts.

Import Sketch.
Local Open Scope R_scope.

Lemma clamp_range (v a b : R) : a <= b -> a <= clamp v a b <= b.
Proof.
  intros Hab. unfold clamp. split; [apply Rmax_l |].
  apply Rmax_lub; [exact Hab | apply Rmin_l].
Qed.

Lemma clamp_inside (v a b : R) : a <= v <= b -> clamp v a b = v.
Proof.
  intros [Ha Hb]. unfold clamp.
  rewrite Rmin_right by exact Hb. now apply Rmax_right.
Qed.

(** X22. On a pad of positive width and height every stroke point,
    wherever its jitter has put it, becomes a target in [-4, 4] on both
    axes; inside the pad the map is affine, the left edge going to -4 and
    the right one to 4, the top edge to 4 and the bottom one to -4. *)
Theorem sketch_target_range (px py width height : R) :
  0 < width -> 0 < height ->
  -4 <= target_x px width <= 4
  /\ -4 <= target_y py height <= 4
  /\ (0 <= px <= width -> target_x px width = -4 + 8 * px / width)
  /\ (0 <= py <= height -> target_y py height = 4 - 8 * py / height)
  /\ target_x 0 width = -4 /\ target_x width width = 4
  /\ target_y 0 height = 4 /\ target_y height height = -4.
Proof.
  intros Hw Hh. unfold target_x, target_y. cbv zeta.
  assert (H01 : 0 <= 1) by lra.
  pose proof (clamp_range (px / width) H01) as Hx.
  pose proof (clamp_range (py / height) H01) as Hy.
  assert (Hin : forall p d, 0 < d -> 0 <= p <= d -> 0 <= p / d <= 1).
  { intros p d Hd [Hp0 Hp1]. split.
    - apply Rmult_le_pos; [exact Hp0 | apply Rlt_le, Rinv_0_lt_compat, Hd].
    - apply Rmult_le_reg_r with d; [exact Hd |].
      unfold Rdiv. rewrite Rmult_assoc, Rinv_l by lra. lra. }
  split; [lra |]. split; [lra |]. split; [| split].
  - intros Hpx. rewrite clamp_inside by now apply Hin. field. lra.
  - intros Hpy. rewrite clamp_inside by now apply Hin. field. lra.
  - rewrite !clamp_inside.
    + repeat split; field; lra.
    + apply Hin; lra.
    + apply Hin; lra.
    + apply Hin; lra.
    + apply Hin; lra.
Qed.

Lemma sketch_target_range_witness :
  0 < 300 /\ 0 < 180
  /\ -4 <= target_x 450 300 <= 4
  /\ -4 <= target_y (-20) 180 <= 4
  /\ (0 <= 450 <= 300 -> target_x 450 300 = -4 + 8 * 450 / 300)
  /\ (0 <= -20 <= 180 -> target_y (-20) 180 = 4 - 8 * -20 / 180)
  /\ target_x 0 300 = -4 /\ target_x 300 300 = 4
  /\ target_y 0 180 = 4 /\ target_y 180 180 = -4.
Proof.
  assert (Hw : 0 < 300) by lra.
  assert (Hh : 0 < 180) by lra.
  split; [exact Hw |]. split; [exact Hh |].
  exact (@sketch_target_range 450 (-20) 300 180 Hw Hh).
Defined.

End SketchFacts.

(** ** Number inputs *)

Section InputFacts.

Import Inputs.
Local Open Scope R_scope.

(** X23. A bounded number input with lo <= hi stores a value in
    [lo, hi] whatever is typed, an empty or unreadable field included; a
    typed value that is not 0 and lies in the range is stored as it is,
    and 0 or an unreadable field stores the fallback when that lies in
    the range. *)
Theorem bounded_input_range (lo hi fallback : R) (value : option R) :
  lo <= hi ->
  lo <= bounded_input lo hi fallback value <= hi
  /\ (forall v, value = Some v -> v <> 0 -> lo <= v <= hi ->
        bounded_input lo hi fallback value = v)
  /\ (lo <= fallback <= hi ->
        bounded_input lo hi fallback None = fallback
        /\ bounded_input lo hi fallback (Some 0) = fallback).
Proof.
  intros Hlohi. unfold bounded_input. split; [| split].
  - split; [apply Rmax_l |].
    apply Rmax_lub; [exact Hlohi | apply Rmin_l].
  - intros v -> Hv [Hlo Hhi]. unfold number_or.
    destruct (Req_dec_T v 0) as [H0 | _]; [contradiction |].
    rewrite Rmin_right by exact Hhi. now apply Rmax_right.
  - intros [Hlo Hhi]. unfold number_or.
    destruct (Req_dec_T 0 0) as [_ | H0]; [| contradiction].
    rewrite Rmin_right by exact Hhi. split; now apply Rmax_right.
Qed.

Lemma bounded_input_range_witness :
  30 <= 300
  /\ 30 <= bounded_input 30 300 30 (Some 1000) <= 300
  /\ (forall v, Some 1000 = Some v -> v <> 0 -> 30 <= v <= 300 ->
        bounded_input 30 300 30 (Some 1000) = v)
  /\ (30 <= 30 <= 300 ->
        bounded_input 30 300 30 None = 30
        /\ bounded_input 30 300 30 (Some 0) = 30).
Proof.
  assert (H : 30 <= 300) by lra.
  split; [exact H | exact (@bounded_input_range 30 300 30 (Some 1000) H)].
Defined.

End InputFacts.

(** ** Size and placement of the density estimate *)

Section KdeExtras.

Import JS Kde.
Local Open Scope R_scope.

(** The estimate of a non-empty sample, point by point. *)
Lemma kde_value (data grid : list R) :
  data <> [] -> kde data grid = Some (map (density data) grid).
Proof.
  intros Hne. unfold kde. rewrite (length_or_1_nonempty Hne).
  rewrite (@for_sum_over data _ (fun x => x)) by (intros i x ->; reflexivity).
  cbn [bind]. rewrite map_id. fold (sample_mean data).
  rewrite (@for_sum_over data _
             (fun x => (x - sample_mean data) * (x - sample_mean data)))
    by (intros i x ->; reflexivity).
  cbn [bind]. rewrite (code_variance Hne).
  pose proof (floored_variance_pos data) as Hvar.
  rewrite Math_sqrt_nonneg by lra. cbn [bind].
  pose proof PI_RGT_0 as Hpi.
  rewrite Math_sqrt_nonneg by lra. cbn [bind].
  fold (sigma_hat data). unfold Math_pow.
  replace (-1 / 5) with (- (1 / 5)) by lra.
  fold (bandwidth data).
  apply mapM_Some. intros x _.
  rewrite (@for_sum_over data _
             (fun xi => exp (- 0.5 * ((x - xi) / bandwidth data) ^ 2))).
  - reflexivity.
  - intros i xi ->. cbn [bind]. do 2 f_equal. ring.
Qed.

Lemma nonempty_length (data : list R) : data <> [] -> 1 <= INR (length data).
Proof.
  intros Hne. change 1 with (INR 1). apply le_INR.
  destruct data; [contradiction | simpl; lia].
Qed.

Lemma bandwidth_pos (data : list R) : 0 < bandwidth data.
Proof.
  unfold bandwidth, sigma_hat.
  pose proof (floored_variance_pos data) as Hvar.
  assert (Hs : 0 < sqrt (floored_variance data)) by (apply sqrt_lt_R0; lra).
  assert (Hp : 0 < Rpower (INR (length data)) (- (1 / 5)))
    by (unfold Rpower; apply exp_pos).
  apply Rmult_lt_0_compat; [| exact Hp]. lra.
Qed.

Lemma Rsum_pos (xs : list R) :
  xs <> [] -> Forall (fun x => 0 < x) xs -> 0 < Rsum xs.
Proof.
  intros Hne Hall. destruct xs as [| x rest]; [contradiction |].
  inversion Hall as [| ? ? Hx Hrest]; subst.
  assert (0 <= Rsum rest).
  { apply Rsum_nonneg. revert Hrest. apply Forall_impl. intros; lra. }
  change (Rsum (x :: rest)) with (x + Rsum rest). lra.
Qed.

Lemma Rsum_at_most (xs : list R) :
  Forall (fun x => x <= 1) xs -> Rsum xs <= INR (length xs).
Proof.
  induction 1 as [| x rest Hx _ IH]; [simpl; lra |].
  cbn [length]. rewrite S_INR.
  change (Rsum (x :: rest)) with (x + Rsum rest). lra.
Qed.



Lemma sample_mean_shift (c : R) (data : list R) :
  data <> [] ->
  sample_mean (map (fun x => x + c) data) = sample_mean data + c.
Proof.
  intros Hne. pose proof (nonempty_length Hne) as Hn.
  unfold sample_mean. rewrite length_map, Rsum_shift. field. lra.
Qed.

Lemma floored_variance_shift (c : R) (data : list R) :
  data <> [] ->
  floored_variance (map (fun x => x + c) data) = floored_variance data.
Proof.
  intros Hne. unfold floored_variance. rewrite length_map.
  destruct (length data <=? 1)%nat; [reflexivity |].
  rewrite (sample_mean_shift c Hne), map_map. do 3 f_equal.
  apply map_ext. intros x. ring.
Qed.



End KdeExtras.
